(** * Catalog publisher: a shallow embedding of [pushMusic]

    The music catalog is a JSON manifest committed to a Git repository next
    to the audio blobs it references.  [pushMusic] uploads pending audio by
    content hash, removes blobs the new manifest no longer references, and
    publishes everything as one tree / commit / ref update.

    Sources embedded here:
    - [getFileExt] and [thousandsSeparator] from [src/lib/utils.ts];
    - [pushMusic] from [app/music/services/push-music.ts];
    - [convertLocalMusicToFile] from [src/lib/local-music-storage.ts];
    - [handleSyncToGitHub], the caller of [pushMusic] in the music selection
      dialog.

    The remote repository client and the auth helper, the file and text
    helpers, and the configuration constants live outside the embedded
    sources: they enter as the records [Remote], [Helpers] and
    [GithubConfig].  A publish is a computation over the remote's state that
    records every call, with its answer, in a trace; the properties below
    are read off that trace. *)

From Stdlib Require Import String Ascii List Bool Arith Lia.
Import ListNotations.
Local Open Scope string_scope.
Local Open Scope list_scope.
Local Open Scope nat_scope.

Set Warnings "-register-all".

(** ** JavaScript string operations used by the sources *)

Module Js.

(** [String.prototype.toLowerCase], on the ASCII letters.  Every recognised
    extension is made of ASCII characters only, and no non-ASCII character
    lower-cases to one of their letters, so the suffix tests of
    [getFileExt] are decided by this part of the mapping. *)
Definition lowerAscii (c : ascii) : ascii :=
  let n := nat_of_ascii c in
  if (65 <=? n) && (n <=? 90) then ascii_of_nat (n + 32) else c.

Fixpoint toLowerCase (s : string) : string :=
  match s with
  | EmptyString => EmptyString
  | String c r => String (lowerAscii c) (toLowerCase r)
  end.

(** [s.startsWith(p)] *)
Definition startsWith (s p : string) : bool := String.prefix p s.

(** The characters of [s] from index [n] on ([s.slice(n)]). *)
Fixpoint slice (n : nat) (s : string) : string :=
  match n, s with
  | O, _ => s
  | S n', String _ r => slice n' r
  | S _, EmptyString => EmptyString
  end.

(** [s.endsWith(p)] *)
Definition endsWith (s p : string) : bool :=
  (String.length p <=? String.length s)
  && String.eqb (slice (String.length s - String.length p) s) p.

(** [s.replace(pat, rep)] with a string pattern: only the first occurrence
    is replaced (the replacement used by the sources has no [$]). *)
Fixpoint replace (s pat rep : string) : string :=
  if String.prefix pat s then (rep ++ slice (String.length pat) s)%string
  else match s with
       | EmptyString => EmptyString
       | String c r => String c (replace r pat rep)
       end.

End Js.

(** ** [src/lib/utils.ts] *)

Definition getFileExt (filename : string) : string :=
  let lower := Js.toLowerCase filename in
  if Js.endsWith lower ".jpg" then ".jpg"
  else if Js.endsWith lower ".jpeg" then ".jpeg"
  else if Js.endsWith lower ".webp" then ".webp"
  else if Js.endsWith lower ".png" then ".png"
  else if Js.endsWith lower ".svg" then ".svg"
  else if Js.endsWith lower ".mp3" then ".mp3"
  else if Js.endsWith lower ".m4a" then ".m4a"
  else if Js.endsWith lower ".wav" then ".wav"
  else if Js.endsWith lower ".ogg" then ".ogg"
  else if Js.endsWith lower ".flac" then ".flac"
  else if Js.endsWith lower ".aac" then ".aac"
  else ".png".

(** The suffixes [getFileExt] recognises, in the order it tests them. *)
Definition recognizedExts : list string :=
  [".jpg"; ".jpeg"; ".webp"; ".png"; ".svg"; ".mp3"; ".m4a"; ".wav"; ".ogg";
   ".flac"; ".aac"].

(** ** Data model of [push-music.ts] *)

Record MusicItem := { name : string; url : string }.

(** A browser [File]: its name and its bytes. *)
Module File.
Record t := { name : string; bytes : list Byte.byte }.
End File.

(** [MusicFileItem]: the source guards on [musicFileItem.file], so the file
    may be missing at run time; [hash] is optional. *)
Record MusicFileItem := { file : option File.t; hash : option string }.

(** [PushMusicParams].  A JavaScript [Map] iterates in insertion order:
    [musicFileItems] is the list of its entries. *)
Record PushMusicParams := {
  musicList : list MusicItem;
  musicFileItems : option (list (string * MusicFileItem))
}.

(** [TreeItem] of the repository client; [sha = None] is the source's
    [sha: null], which deletes the path from the tree. *)
Record TreeItem := {
  path : string;
  mode : string;
  type : string;
  sha : option string
}.

(** A [Set<string>]: membership test, insertion, iteration in insertion
    order. *)
Module StrSet.
Definition t := list string.
Definition empty : t := [].
Definition has (s : t) (x : string) : bool :=
  existsb (String.eqb x) s.
Definition add (x : string) (s : t) : t :=
  if has s x then s else s ++ [x].
Definition elements (s : t) : list string := s.
End StrSet.

(** ** JSON *)

(** The values [JSON.parse] can produce.  An object is the list of its own
    properties (keys are unique in a parsed object). *)
Inductive JValue :=
| JNull
| JBool (b : bool)
| JNumber (literal : string)
| JString (s : string)
| JArray (items : list JValue)
| JObject (props : list (string * JValue)).

Module Json.

Definition dquote : ascii := "034"%char.

Definition hexDigit (n : nat) : ascii :=
  if n <? 10 then ascii_of_nat (48 + n) else ascii_of_nat (87 + n).

(** One character inside a JSON string literal, as [JSON.stringify] quotes
    it. *)
Definition quoteChar (c : ascii) : string :=
  let n := nat_of_ascii c in
  if n =? 34 then String "\" (String dquote EmptyString)
  else if n =? 92 then "\\"
  else if n =? 8 then "\b"
  else if n =? 9 then "\t"
  else if n =? 10 then "\n"
  else if n =? 12 then "\f"
  else if n =? 13 then "\r"
  else if n <? 32 then
    ("\u00" ++ String (hexDigit (n / 16)) (String (hexDigit (n mod 16)) EmptyString))%string
  else String c EmptyString.

Fixpoint quoteBody (s : string) : string :=
  match s with
  | EmptyString => EmptyString
  | String c r => (quoteChar c ++ quoteBody r)%string
  end.

Definition quote (s : string) : string :=
  (String dquote (quoteBody s) ++ String dquote EmptyString)%string.

(** The value of a lower-case hexadecimal digit. *)
Definition hexValue (c : ascii) : option nat :=
  let n := nat_of_ascii c in
  if (48 <=? n) && (n <=? 57) then Some (n - 48)
  else if (97 <=? n) && (n <=? 102) then Some (n - 87)
  else None.

(** Reads one quoted character back from the front of a text: the inverse
    of [quoteChar], used to show that quoting loses nothing. *)
Definition unquoteChar (s : string) : option (ascii * string) :=
  match s with
  | EmptyString => None
  | String c r =>
      if Ascii.eqb c dquote then None
      else if Ascii.eqb c "\"%char then
        match r with
        | EmptyString => None
        | String e r' =>
            if Ascii.eqb e dquote then Some (dquote, r')
            else if Ascii.eqb e "\"%char then Some ("\"%char, r')
            else if Ascii.eqb e "b"%char then Some ("008"%char, r')
            else if Ascii.eqb e "t"%char then Some ("009"%char, r')
            else if Ascii.eqb e "n"%char then Some ("010"%char, r')
            else if Ascii.eqb e "f"%char then Some ("012"%char, r')
            else if Ascii.eqb e "r"%char then Some ("013"%char, r')
            else if Ascii.eqb e "u"%char then
              match r' with
              | String _ (String _ (String h (String l r''))) =>
                  match hexValue h, hexValue l with
                  | Some x, Some y => Some (ascii_of_nat (16 * x + y), r'')
                  | _, _ => None
                  end
              | _ => None
              end
            else None
        end
      else Some (c, r)
  end.

Definition nl : string := String "010"%char EmptyString.
Definition tab : string := String "009"%char EmptyString.

(** One [{name, url}] object, printed at nesting depth one with the
    indentation unit [indent]. *)
Definition stringifyItem (indent : string) (m : MusicItem) : string :=
  (indent ++ "{" ++ nl
   ++ indent ++ indent ++ quote "name" ++ ": " ++ quote (name m) ++ "," ++ nl
   ++ indent ++ indent ++ quote "url" ++ ": " ++ quote (url m) ++ nl
   ++ indent ++ "}")%string.

Fixpoint joinLines (l : list string) : string :=
  match l with
  | [] => EmptyString
  | [x] => x
  | x :: r => (x ++ "," ++ nl ++ joinLines r)%string
  end.

(** [JSON.stringify(list, null, indent)] on an array of [{name, url}]
    objects. *)
Definition stringifyList (indent : string) (l : list MusicItem) : string :=
  match l with
  | [] => "[]"
  | _ => ("[" ++ nl ++ joinLines (map (stringifyItem indent) l) ++ nl ++ "]")%string
  end.

(** The value [JSON.parse] yields on the text [JSON.stringify] prints for a
    track list. *)
Definition ofItem (m : MusicItem) : JValue :=
  JObject [("name", JString (name m)); ("url", JString (url m))].

Definition ofList (l : list MusicItem) : JValue := JArray (map ofItem l).

(** Property read [o.key]; [None] is [undefined]. *)
Fixpoint getProp (key : string) (props : list (string * JValue)) : option JValue :=
  match props with
  | [] => None
  | (k, v) :: r => if String.eqb k key then Some v else getProp key r
  end.

(** What [for (const x of v)] iterates over; [None] is the [TypeError] of a
    value that is not iterable.  A string iterates over its characters. *)
Definition iterate (v : JValue) : option (list JValue) :=
  match v with
  | JArray items => Some items
  | JString s => Some (map (fun c => JString (String c EmptyString)) (list_ascii_of_string s))
  | _ => None
  end.

(** [music.url] when it is a string.  On anything else
    [music.url.startsWith] throws a [TypeError]: [music] is [null], or
    [music.url] is [undefined], or it is a value without that method. *)
Definition urlOf (music : JValue) : option string :=
  match music with
  | JObject props =>
      match getProp "url" props with
      | Some (JString u) => Some u
      | _ => None
      end
  | _ => None
  end.

(** [music.url.startsWith(p)] on a parsed value, with the url it tests;
    [None] is the [TypeError]. *)
Definition urlStartsWith (music : JValue) (p : string) : option (string * bool) :=
  match urlOf music with
  | Some u => Some (u, Js.startsWith u p)
  | None => None
  end.

(** The urls of the elements of a parsed value, when it can be iterated and
    every element has a string [url]. *)
Fixpoint urlsOf (elements : list JValue) : option (list string) :=
  match elements with
  | [] => Some []
  | music :: rest =>
      match urlOf music, urlsOf rest with
      | Some u, Some us => Some (u :: us)
      | _, _ => None
      end
  end.

Definition readUrls (v : JValue) : option (list string) :=
  match iterate v with
  | Some elements => urlsOf elements
  | None => None
  end.

End Json.

(** ** Effects: the remote repository, the toasts and the console *)

Inductive ToastKind := ToastInfo | ToastSuccess.

(** One observable step of a publish: a call to a collaborator together with
    what it answered ([inl e]: the call threw or its promise rejected with
    [e]), a toast, or a console message. *)
Inductive Event (Err : Type) : Type :=
| EvGetAuthToken (reply : Err + string)
| EvGetRef (token owner repo ref : string) (reply : Err + string)
| EvCreateBlob (token owner repo content encoding : string) (reply : Err + string)
| EvReadTextFile (token owner repo filePath ref : string) (reply : Err + option string)
| EvCreateTree (token owner repo : string) (tree : list TreeItem) (baseTree : string)
    (reply : Err + string)
| EvCreateCommit (token owner repo message tree : string) (parents : list string)
    (reply : Err + string)
| EvUpdateRef (token owner repo ref commitSha : string) (reply : Err + unit)
| EvToast (kind : ToastKind) (message : string)
| EvConsoleError (message : string).

Arguments EvGetAuthToken {Err} reply.
Arguments EvGetRef {Err} token owner repo ref reply.
Arguments EvCreateBlob {Err} token owner repo content encoding reply.
Arguments EvReadTextFile {Err} token owner repo filePath ref reply.
Arguments EvCreateTree {Err} token owner repo tree baseTree reply.
Arguments EvCreateCommit {Err} token owner repo message tree parents reply.
Arguments EvUpdateRef {Err} token owner repo ref commitSha reply.
Arguments EvToast {Err} kind message.
Arguments EvConsoleError {Err} message.

(** [GITHUB_CONFIG] of [@/consts]. *)
Record GithubConfig := { OWNER : string; REPO : string; BRANCH : string }.

(** The helpers the publisher imports, taken as total functions:
    [sha256Hex] is the digest behind [hashFileSHA256] and
    [fileToBase64NoPrefix] the file encoder of [@/lib/file-utils],
    [toBase64Utf8] the text encoder of [@/lib/github-client], and [parse] is
    [JSON.parse], [None] being its [SyntaxError]. *)
Record Helpers := {
  sha256Hex : list Byte.byte -> string;
  fileToBase64NoPrefix : File.t -> string;
  toBase64Utf8 : string -> string;
  parse : string -> option JValue
}.

Section Effects.

Variables W Err : Type.

(** The awaited collaborators ([@/lib/auth], [@/lib/github-client]) over a
    remote state [W].  Each answers the [sha] (or token, or text) the source
    reads from the reply, or fails with an error. *)
Record Remote := {
  getAuthToken : W -> (Err + string) * W;
  getRef : string -> string -> string -> string -> W -> (Err + string) * W;
  createBlob : string -> string -> string -> string -> string -> W -> (Err + string) * W;
  readTextFileFromRepo :
    string -> string -> string -> string -> string -> W -> (Err + option string) * W;
  createTree :
    string -> string -> string -> list TreeItem -> string -> W -> (Err + string) * W;
  createCommit :
    string -> string -> string -> string -> string -> list string -> W -> (Err + string) * W;
  updateRef : string -> string -> string -> string -> string -> W -> (Err + unit) * W
}.

Record State := { world : W; trace : list (Event Err) }.

(** Computations that read and change the remote, extend the trace, and
    either return or throw. *)
Definition M (A : Type) : Type := State -> (Err + A) * State.

Definition ret {A : Type} (a : A) : M A := fun s => (inr a, s).

Definition bind {A B : Type} (m : M A) (k : A -> M B) : M B :=
  fun s =>
    match m s with
    | (inl e, s') => (inl e, s')
    | (inr a, s') => k a s'
    end.

(** An awaited call: the remote answers, the trace records call and
    answer, an error answer is thrown. *)
Definition call {A : Type} (op : W -> (Err + A) * W) (ev : Err + A -> Event Err) : M A :=
  fun s =>
    let (r, w') := op (world s) in
    (r, {| world := w'; trace := trace s ++ [ev r] |}).

Definition emit (ev : Event Err) : M unit :=
  fun s => (inr tt, {| world := world s; trace := trace s ++ [ev] |}).

(** [for (const x of l) { st = body(st, x) }] *)
Fixpoint forEach {S A : Type} (body : S -> A -> M S) (l : list A) (st : S) : M S :=
  match l with
  | [] => ret st
  | x :: r => bind (body st x) (forEach body r)
  end.

End Effects.

Arguments ret {W Err A} a.
Arguments bind {W Err A B} m k.
Arguments call {W Err A} op ev.
Arguments emit {W Err} ev.
Arguments forEach {W Err S A} body l st.
Arguments world {W Err} s.
Arguments getAuthToken {W Err} r.
Arguments getRef {W Err} r.
Arguments createBlob {W Err} r.
Arguments readTextFileFromRepo {W Err} r.
Arguments createTree {W Err} r.
Arguments createCommit {W Err} r.
Arguments updateRef {W Err} r.
Arguments trace {W Err} s.

Notation "x <- m ;; k" := (bind m (fun x => k))
  (at level 61, m at next level, right associativity).
Notation "m ;;; k" := (bind m (fun _ => k))
  (at level 61, right associativity).

(** ** [pushMusic] *)

(** The variables of the upload loop. *)
Record UploadState := {
  treeItems : list TreeItem;
  uploadedHashes : StrSet.t;
  updatedMusicList : list MusicItem
}.

(** [updatedMusicList.map(m => (m.url === key ? { ...m, url: publicPath } : m))] *)
Definition remap (key publicPath : string) (l : list MusicItem) : list MusicItem :=
  map (fun m => if String.eqb (url m) key
                then {| name := name m; url := publicPath |} else m) l.

(** The [for (const music of previousMusicList)] loop; [None] when an
    element makes [music.url.startsWith] throw. *)
Fixpoint collectPrevious (l : list JValue) (previousUrls : StrSet.t) : option StrSet.t :=
  match l with
  | [] => Some previousUrls
  | music :: r =>
      match Json.urlStartsWith music "/music/" with
      | None => None
      | Some (u, true) => collectPrevious r (StrSet.add u previousUrls)
      | Some (u, false) => collectPrevious r previousUrls
      end
  end.

(** The [for (const music of updatedMusicList)] loop. *)
Definition collectCurrent (l : list MusicItem) : StrSet.t :=
  fold_left (fun currentUrls music =>
               if Js.startsWith (url music) "/music/"
               then StrSet.add (url music) currentUrls else currentUrls)
            l StrSet.empty.

(** The owned urls of a list of urls, added to [acc] in order: what both
    loops above collect. *)
Definition collectOwned (urls : list string) (acc : StrSet.t) : StrSet.t :=
  fold_left (fun s u => if Js.startsWith u "/music/" then StrSet.add u s else s) urls acc.

(** The tree entry pushed for a previous url that is no longer used. *)
Definition deleteItem (u : string) : TreeItem :=
  let filename := Js.replace u "/music/" EmptyString in
  {| path := ("public/music/" ++ filename)%string;
     mode := "100644"; type := "blob"; sha := None |}.

(** The [for (const url of previousUrls)] loop. *)
Definition staleItems (previousUrls currentUrls : StrSet.t) : list TreeItem :=
  map deleteItem
      (filter (fun u => negb (StrSet.has currentUrls u)) (StrSet.elements previousUrls)).

(** [if (previousListJson)]: [null] and the empty string are falsy. *)
Definition truthy (previousListJson : option string) : option string :=
  match previousListJson with
  | Some EmptyString => None
  | other => other
  end.

(** The texts of the toasts, of the console message and of the commit. *)
Definition msgUploading : string := "正在上传音乐文件...".
Definition msgFetchingRef : string := "正在获取分支信息...".
Definition msgPreparing : string := "正在准备文件...".
Definition msgScanning : string := "正在检查需要删除的文件...".
Definition msgCreatingTree : string := "正在创建文件树...".
Definition msgCreatingCommit : string := "正在创建提交...".
Definition msgUpdatingRef : string := "正在更新分支...".
Definition msgPublished : string := "发布成功！".
Definition commitText : string := "更新音乐列表".
Definition msgParseFailed : string := "Failed to parse previous list.json:".

Section PushMusic.

Variables W Err : Type.
Variable GITHUB_CONFIG : GithubConfig.
Variable lib : Helpers.
Variable remote : Remote W Err.

(** Modelled from the spec: [hashFileSHA256] of [@/lib/file-utils] is not
    among the sources; the content hash is a hex digest over the file
    bytes, here [sha256Hex] applied to the bytes of the file. *)
Definition hashFileSHA256 (f : File.t) : string := sha256Hex lib (File.bytes f).

Definition toastInfo (message : string) : M W Err unit := emit (EvToast ToastInfo message).

(** [musicFileItem.hash || (await hashFileSHA256(musicFileItem.file))]: an
    absent or empty [hash] is falsy. *)
Definition hashOf (musicFileItem : MusicFileItem) (f : File.t) : string :=
  match hash musicFileItem with
  | None | Some EmptyString => hashFileSHA256 f
  | Some h => h
  end.

Definition awaitCreateBlob (token content encoding : string) : M W Err string :=
  call (createBlob remote token (OWNER GITHUB_CONFIG) (REPO GITHUB_CONFIG) content encoding)
       (EvCreateBlob token (OWNER GITHUB_CONFIG) (REPO GITHUB_CONFIG) content encoding).

(** The body of [for (const [url, musicFileItem] of musicFileItems.entries())]. *)
Definition uploadOne (token : string) (st : UploadState) (entry : string * MusicFileItem)
  : M W Err UploadState :=
  let (key, musicFileItem) := entry in
  match file musicFileItem with
  | None => ret st
  | Some f =>
      let h := hashOf musicFileItem f in
      let ext := getFileExt (File.name f) in
      let filename := (h ++ ext)%string in
      let publicPath := ("/music/" ++ filename)%string in
      st' <- (if negb (StrSet.has (uploadedHashes st) h) then
                let path := ("public/music/" ++ filename)%string in
                let contentBase64 := fileToBase64NoPrefix lib f in
                blobSha <- awaitCreateBlob token contentBase64 "base64" ;;
                ret {| treeItems :=
                         treeItems st ++
                         [{| path := path; mode := "100644"; type := "blob";
                             sha := Some blobSha |}];
                       uploadedHashes := StrSet.add h (uploadedHashes st);
                       updatedMusicList := updatedMusicList st |}
              else ret st) ;;
      ret {| treeItems := treeItems st';
             uploadedHashes := uploadedHashes st';
             updatedMusicList := remap key publicPath (updatedMusicList st') |}
  end.

(** [if (musicFileItems && musicFileItems.size > 0) { ... }] *)
Definition uploadAll (token : string) (items : option (list (string * MusicFileItem)))
    (st : UploadState) : M W Err UploadState :=
  match items with
  | None | Some [] => ret st
  | Some entries =>
      toastInfo msgUploading ;;;
      forEach (uploadOne token) entries st
  end.

(** The body of the [try] block; [None] when it throws ([JSON.parse] fails,
    the parsed value is not iterable, or an element has no string [url]).
    Entries are pushed only by the last loop, which cannot throw. *)
Definition tryStale (previousListJson : string) (updated : list MusicItem)
  : option (list TreeItem) :=
  match parse lib previousListJson with
  | None => None
  | Some previousMusicList =>
      match Json.iterate previousMusicList with
      | None => None
      | Some elements =>
          match collectPrevious elements StrSet.empty with
          | None => None
          | Some previousUrls => Some (staleItems previousUrls (collectCurrent updated))
          end
      end
  end.

(** [if (previousListJson) { try { ... } catch (error) { console.error(...) } }] *)
Definition scanStale (previousListJson : option string) (updated : list MusicItem)
    (items : list TreeItem) : M W Err (list TreeItem) :=
  match truthy previousListJson with
  | None => ret items
  | Some text =>
      match tryStale text updated with
      | Some deletes => ret (items ++ deletes)
      | None => emit (EvConsoleError msgParseFailed) ;;; ret items
      end
  end.

Definition manifestPath : string := "src/app/music/list.json".

Definition pushMusic (params : PushMusicParams) : M W Err unit :=
  let owner := OWNER GITHUB_CONFIG in
  let repo := REPO GITHUB_CONFIG in
  let branch := BRANCH GITHUB_CONFIG in
  token <- call (getAuthToken remote) EvGetAuthToken ;;
  toastInfo msgFetchingRef ;;;
  latestCommitSha <-
    call (getRef remote token owner repo ("heads/" ++ branch)%string)
         (EvGetRef token owner repo ("heads/" ++ branch)%string) ;;
  let commitMessage := commitText in
  toastInfo msgPreparing ;;;
  st <- uploadAll token (musicFileItems params)
          {| treeItems := []; uploadedHashes := StrSet.empty;
             updatedMusicList := musicList params |} ;;
  toastInfo msgScanning ;;;
  previousListJson <-
    call (readTextFileFromRepo remote token owner repo manifestPath branch)
         (EvReadTextFile token owner repo manifestPath branch) ;;
  items <- scanStale previousListJson (updatedMusicList st) (treeItems st) ;;
  let musicJson := Json.stringifyList Json.tab (updatedMusicList st) in
  musicBlobSha <- awaitCreateBlob token (toBase64Utf8 lib musicJson) "base64" ;;
  let items :=
    items ++ [{| path := manifestPath; mode := "100644"; type := "blob";
                 sha := Some musicBlobSha |}] in
  toastInfo msgCreatingTree ;;;
  treeSha <-
    call (createTree remote token owner repo items latestCommitSha)
         (EvCreateTree token owner repo items latestCommitSha) ;;
  toastInfo msgCreatingCommit ;;;
  commitSha <-
    call (createCommit remote token owner repo commitMessage treeSha [latestCommitSha])
         (EvCreateCommit token owner repo commitMessage treeSha [latestCommitSha]) ;;
  toastInfo msgUpdatingRef ;;;
  call (updateRef remote token owner repo ("heads/" ++ branch)%string commitSha)
       (EvUpdateRef token owner repo ("heads/" ++ branch)%string commitSha) ;;;
  emit (EvToast ToastSuccess msgPublished).

(** A publish started on the remote state [w], with an empty trace. *)
Definition publish (params : PushMusicParams) (w : W) : (Err + unit) * State W Err :=
  pushMusic params {| world := w; trace := [] |}.

End PushMusic.

Arguments toastInfo {W Err} message.
Arguments awaitCreateBlob {W Err} GITHUB_CONFIG remote token content encoding.
Arguments uploadOne {W Err} GITHUB_CONFIG lib remote token st entry.
Arguments uploadAll {W Err} GITHUB_CONFIG lib remote token items st.
Arguments scanStale {W Err} lib previousListJson updated items.
Arguments pushMusic {W Err} GITHUB_CONFIG lib remote params.
Arguments publish {W Err} GITHUB_CONFIG lib remote params w.

(** ** What a publish computes, apart from the remote's answers

    The upload loop interleaves remote calls with pure bookkeeping.  The
    functions below are that bookkeeping alone; [upload_loop] further down
    proves that the loop computes them. *)

Section Plan.

Variable GITHUB_CONFIG : GithubConfig.
Variable lib : Helpers.

(** [filename] and [publicPath] of the loop body. *)
Definition filenameOf (musicFileItem : MusicFileItem) (f : File.t) : string :=
  (hashOf lib musicFileItem f ++ getFileExt (File.name f))%string.

Definition publicPathOf (musicFileItem : MusicFileItem) (f : File.t) : string :=
  ("/music/" ++ filenameOf musicFileItem f)%string.

(** The entries whose hash is not in [uploadedHashes] when the loop reaches
    them: each one with its file and its hash. *)
Fixpoint freshUploads (entries : list (string * MusicFileItem)) (seen : StrSet.t)
  : list (File.t * string) :=
  match entries with
  | [] => []
  | (_, musicFileItem) :: rest =>
      match file musicFileItem with
      | None => freshUploads rest seen
      | Some f =>
          let h := hashOf lib musicFileItem f in
          if StrSet.has seen h then freshUploads rest seen
          else (f, h) :: freshUploads rest (StrSet.add h seen)
      end
  end.

(** [updatedMusicList] after the loop. *)
Fixpoint remapAll (entries : list (string * MusicFileItem)) (l : list MusicItem)
  : list MusicItem :=
  match entries with
  | [] => l
  | (key, musicFileItem) :: rest =>
      match file musicFileItem with
      | None => remapAll rest l
      | Some f => remapAll rest (remap key (publicPathOf musicFileItem f) l)
      end
  end.

(** The hashes of the entries that carry a file, in order, and
    [uploadedHashes] after the loop has gone through [entries]. *)
Fixpoint hashesOf (entries : list (string * MusicFileItem)) : list string :=
  match entries with
  | [] => []
  | (_, musicFileItem) :: rest =>
      match file musicFileItem with
      | None => hashesOf rest
      | Some f => hashOf lib musicFileItem f :: hashesOf rest
      end
  end.

Fixpoint seenAfter (entries : list (string * MusicFileItem)) (seen : StrSet.t) : StrSet.t :=
  match entries with
  | [] => seen
  | (_, musicFileItem) :: rest =>
      match file musicFileItem with
      | None => seenAfter rest seen
      | Some f => seenAfter rest (StrSet.add (hashOf lib musicFileItem f) seen)
      end
  end.

(** What the loop makes of one url: [remapAll] acts on each track alone. *)
Fixpoint finalUrl (entries : list (string * MusicFileItem)) (u : string) : string :=
  match entries with
  | [] => u
  | (key, musicFileItem) :: rest =>
      match file musicFileItem with
      | None => finalUrl rest u
      | Some f =>
          finalUrl rest (if String.eqb u key then publicPathOf musicFileItem f else u)
      end
  end.

Definition pendingEntries (params : PushMusicParams) : list (string * MusicFileItem) :=
  match musicFileItems params with
  | None => []
  | Some entries => entries
  end.

(** The post-remap desired list. *)
Definition postRemap (params : PushMusicParams) : list MusicItem :=
  remapAll (pendingEntries params) (musicList params).

Definition plan (params : PushMusicParams) : list (File.t * string) :=
  freshUploads (pendingEntries params) StrSet.empty.

Definition addItem (u : File.t * string) (blobSha : string) : TreeItem :=
  {| path := ("public/music/" ++ snd u ++ getFileExt (File.name (fst u)))%string;
     mode := "100644"; type := "blob"; sha := Some blobSha |}.

Definition addItems (uploads : list (File.t * string)) (shas : list string) : list TreeItem :=
  map (fun us => addItem (fst us) (snd us)) (combine uploads shas).

(** The delete entries the stale-file scan appends for the text (or absence)
    [previous] of the previous manifest. *)
Definition staleOf (previous : option string) (updated : list MusicItem) : list TreeItem :=
  match truthy previous with
  | None => []
  | Some text =>
      match tryStale lib text updated with
      | Some deletes => deletes
      | None => []
      end
  end.

Definition manifestItem (blobSha : string) : TreeItem :=
  {| path := manifestPath; mode := "100644"; type := "blob"; sha := Some blobSha |}.

Definition manifestContent (params : PushMusicParams) : string :=
  toBase64Utf8 lib (Json.stringifyList Json.tab (postRemap params)).

(** The entry list of the tree request, given the [sha]s the remote
    answered for the audio blobs and for the manifest blob. *)
Definition treeEntries (params : PushMusicParams) (shas : list string)
    (previous : option string) (manifestSha : string) : list TreeItem :=
  addItems (plan params) shas ++ staleOf previous (postRemap params)
  ++ [manifestItem manifestSha].

Section Traces.

Variable Err : Type.

Definition blobEvent (token : string) (us : (File.t * string) * string) : Event Err :=
  EvCreateBlob token (OWNER GITHUB_CONFIG) (REPO GITHUB_CONFIG)
               (fileToBase64NoPrefix lib (fst (fst us))) "base64" (inr (snd us)).

Definition blobEvents (token : string) (uploads : list (File.t * string))
    (shas : list string) : list (Event Err) :=
  map (blobEvent token) (combine uploads shas).

Definition uploadToast (params : PushMusicParams) : list (Event Err) :=
  match musicFileItems params with
  | None | Some [] => []
  | Some _ => [EvToast ToastInfo msgUploading]
  end.

Definition parseWarning (previous : option string) (updated : list MusicItem)
  : list (Event Err) :=
  match truthy previous with
  | None => []
  | Some text =>
      match tryStale lib text updated with
      | Some _ => []
      | None => [EvConsoleError msgParseFailed]
      end
  end.

(** The trace of a publish up to the end of the stale-file scan, the
    previous manifest having been read as [previous]. *)
Definition traceToScan (params : PushMusicParams) (token latest : string)
    (shas : list string) (previous : option string) : list (Event Err) :=
  let owner := OWNER GITHUB_CONFIG in
  let repo := REPO GITHUB_CONFIG in
  let branch := BRANCH GITHUB_CONFIG in
  [EvGetAuthToken (inr token);
   EvToast ToastInfo msgFetchingRef;
   EvGetRef token owner repo ("heads/" ++ branch)%string (inr latest);
   EvToast ToastInfo msgPreparing]
  ++ uploadToast params
  ++ blobEvents token (plan params) shas
  ++ [EvToast ToastInfo msgScanning;
      EvReadTextFile token owner repo manifestPath branch (inr previous)]
  ++ parseWarning previous (postRemap params).

(** The request that creates the manifest blob, with its answer. *)
Definition manifestBlobEvent (params : PushMusicParams) (token : string)
    (reply : Err + string) : Event Err :=
  EvCreateBlob token (OWNER GITHUB_CONFIG) (REPO GITHUB_CONFIG) (manifestContent params)
               "base64" reply.

(** The trace of a publish up to the answer [treeReply] of the tree
    request. *)
Definition traceToTree (params : PushMusicParams) (token latest : string)
    (shas : list string) (previous : option string) (manifestSha : string)
    (treeReply : Err + string) : list (Event Err) :=
  traceToScan params token latest shas previous
  ++ [manifestBlobEvent params token (inr manifestSha);
      EvToast ToastInfo msgCreatingTree;
      EvCreateTree token (OWNER GITHUB_CONFIG) (REPO GITHUB_CONFIG)
                   (treeEntries params shas previous manifestSha) latest treeReply].

(** What follows the tree request, and how the publish ends. *)
Inductive AfterTree (token latest : string)
  : Err + string -> list (Event Err) -> Err + unit -> Prop :=
| TreeFailed e : AfterTree token latest (inl e) [] (inl e)
| CommitFailed treeSha e :
    AfterTree token latest (inr treeSha)
      [EvToast ToastInfo msgCreatingCommit;
       EvCreateCommit token (OWNER GITHUB_CONFIG) (REPO GITHUB_CONFIG) commitText treeSha
                      [latest] (inl e)]
      (inl e)
| RefUpdateFailed treeSha commitSha e :
    AfterTree token latest (inr treeSha)
      [EvToast ToastInfo msgCreatingCommit;
       EvCreateCommit token (OWNER GITHUB_CONFIG) (REPO GITHUB_CONFIG) commitText treeSha
                      [latest] (inr commitSha);
       EvToast ToastInfo msgUpdatingRef;
       EvUpdateRef token (OWNER GITHUB_CONFIG) (REPO GITHUB_CONFIG)
                   ("heads/" ++ BRANCH GITHUB_CONFIG)%string commitSha (inl e)]
      (inl e)
| Published treeSha commitSha :
    AfterTree token latest (inr treeSha)
      [EvToast ToastInfo msgCreatingCommit;
       EvCreateCommit token (OWNER GITHUB_CONFIG) (REPO GITHUB_CONFIG) commitText treeSha
                      [latest] (inr commitSha);
       EvToast ToastInfo msgUpdatingRef;
       EvUpdateRef token (OWNER GITHUB_CONFIG) (REPO GITHUB_CONFIG)
                   ("heads/" ++ BRANCH GITHUB_CONFIG)%string commitSha (inr tt);
       EvToast ToastSuccess msgPublished]
      (inr tt).

End Traces.

End Plan.

Arguments blobEvent GITHUB_CONFIG lib {Err} token us.
Arguments blobEvents GITHUB_CONFIG lib {Err} token uploads shas.
Arguments uploadToast {Err} params.
Arguments parseWarning lib {Err} previous updated.
Arguments traceToScan GITHUB_CONFIG lib {Err} params token latest shas previous.
Arguments manifestBlobEvent GITHUB_CONFIG lib {Err} params token reply.
Arguments traceToTree GITHUB_CONFIG lib {Err} params token latest shas previous manifestSha
  treeReply.
Arguments AfterTree GITHUB_CONFIG {Err} token latest _ _ _.

(** ** Reading a trace *)

Section TraceQueries.

Variable Err : Type.

(** The error an event carries, if the call it records failed. *)
Definition failure (ev : Event Err) : option Err :=
  match ev with
  | EvGetAuthToken (inl e) => Some e
  | EvGetRef _ _ _ _ (inl e) => Some e
  | EvCreateBlob _ _ _ _ _ (inl e) => Some e
  | EvReadTextFile _ _ _ _ _ (inl e) => Some e
  | EvCreateTree _ _ _ _ _ (inl e) => Some e
  | EvCreateCommit _ _ _ _ _ _ (inl e) => Some e
  | EvUpdateRef _ _ _ _ _ (inl e) => Some e
  | _ => None
  end.

(** The entry lists of the tree requests in a trace. *)
Fixpoint treeRequests (tr : list (Event Err)) : list (list TreeItem) :=
  match tr with
  | [] => []
  | EvCreateTree _ _ _ items _ _ :: r => items :: treeRequests r
  | _ :: r => treeRequests r
  end.

(** The answers to the reads of the previous manifest in a trace. *)
Fixpoint manifestReads (tr : list (Event Err)) : list (Err + option string) :=
  match tr with
  | [] => []
  | EvReadTextFile _ _ _ _ _ reply :: r => reply :: manifestReads r
  | _ :: r => manifestReads r
  end.

(** The contents handed to [createBlob] in a trace. *)
Fixpoint blobRequests (tr : list (Event Err)) : list string :=
  match tr with
  | [] => []
  | EvCreateBlob _ _ _ content _ _ :: r => content :: blobRequests r
  | _ :: r => blobRequests r
  end.

End TraceQueries.

Arguments failure {Err} ev.
Arguments treeRequests {Err} tr.
Arguments blobRequests {Err} tr.
Arguments manifestReads {Err} tr.

(** No call recorded in [evs] failed. *)
Definition clean {Err : Type} (evs : list (Event Err)) : Prop :=
  forall ev, In ev evs -> failure ev = None.

(** A computation is disciplined when it only extends the trace, a normal
    return records no failed call, and a throw rethrows the error of the
    call recorded last, every earlier call having succeeded. *)
Definition Disciplined {W Err A : Type} (m : M W Err A) : Prop :=
  forall s,
    exists evs,
      trace (snd (m s)) = trace s ++ evs
      /\ match fst (m s) with
         | inr _ => clean evs
         | inl e => exists pre ev, evs = pre ++ [ev] /\ clean pre /\ failure ev = Some e
         end.

Definition isDelete (item : TreeItem) : bool :=
  match sha item with
  | None => true
  | Some _ => false
  end.

(** The text of a previous manifest parses when [JSON.parse] accepts it and
    the value can be iterated into elements that all carry a string [url]:
    the [try] block of the scan completes on such a text and on no
    other. *)
Definition readable (lib : Helpers) (text : string) : Prop :=
  exists v urls, parse lib text = Some v /\ Json.readUrls v = Some urls.

(** A url is owned when it lies under the public asset prefix. *)
Definition owned (u : string) : bool := Js.startsWith u "/music/".

(** The paths a tree request deletes. *)
Definition deletedPaths (items : list TreeItem) : list string :=
  map path (filter isDelete items).

(** ** A small remote to run the publisher on *)

Module Demo.

(** The error taxonomy of the publisher's documentation. *)
Inductive PublishError :=
| Unauthenticated
| RefNotFound
| RemoteWriteFailed (step : string)
| RefUpdateConflict.

Definition config : GithubConfig :=
  {| OWNER := "alan"; REPO := "blog"; BRANCH := "main" |}.

(** Helpers that keep the data readable: the digest of a file is its bytes
    read as text, the encoders copy their input, and [JSON.parse] knows the
    texts listed in [table]. *)
Definition helpers (table : list (string * JValue)) : Helpers :=
  {| sha256Hex := string_of_list_byte;
     fileToBase64NoPrefix := fun f => string_of_list_byte (File.bytes f);
     toBase64Utf8 := fun s => s;
     parse := fun text => Json.getProp text table |}.

Definition digit (n : nat) : string := String (ascii_of_nat (48 + n)) EmptyString.

(** The remote state counts the blobs created so far; the n-th blob gets the
    sha [blob<n>].  The branch holds the manifest text [previous];
    [authenticated] and [fastForward] say whether the token can be obtained
    and whether the final ref update is accepted. *)
Definition remote (authenticated : bool) (previous : option string) (fastForward : bool)
  : Remote nat PublishError :=
  {| getAuthToken := fun w => (if authenticated then inr "token" else inl Unauthenticated, w);
     getRef := fun _ _ _ _ w => (inr "tip", w);
     createBlob := fun _ _ _ _ _ w => (inr ("blob" ++ digit w)%string, S w);
     readTextFileFromRepo := fun _ _ _ _ _ w => (inr previous, w);
     createTree := fun _ _ _ _ _ w => (inr "tree", w);
     createCommit := fun _ _ _ _ _ _ w => (inr "commit", w);
     updateRef := fun _ _ _ _ _ w =>
                    (if fastForward then inr tt else inl RefUpdateConflict, w) |}.

Definition bytesOf (s : string) : list Byte.byte := list_byte_of_string s.

Definition oldList : list MusicItem :=
  [{| name := "A"; url := "/music/old.mp3" |}].

Definition oldText : string := Json.stringifyList Json.tab oldList.

(** A previous manifest with an owned track and an external one. *)
Definition mixedList : list MusicItem :=
  [{| name := "A"; url := "/music/old.mp3" |};
   {| name := "X"; url := "https://example.org/music/x.mp3" |}].

Definition mixedText : string := Json.stringifyList Json.tab mixedList.

Definition lib : Helpers :=
  helpers [(oldText, Json.ofList oldList); (mixedText, Json.ofList mixedList)].

Definition upload (fileName content : string) : MusicFileItem :=
  {| file := Some {| File.name := fileName; File.bytes := bytesOf content |};
     hash := None |}.

Definition fileOf (fileName content : string) : File.t :=
  {| File.name := fileName; File.bytes := bytesOf content |}.

(** The end-to-end scenario: one pending upload replaces the only track. *)
Definition replaceParams : PushMusicParams :=
  {| musicList := [{| name := "B"; url := "temp-1" |}];
     musicFileItems := Some [("temp-1", upload "b.mp3" "deadbeef")] |}.

(** Two pending uploads with the same bytes under names with different
    extensions, each referenced by one track. *)
Definition sameBytesParams : PushMusicParams :=
  {| musicList := [{| name := "A"; url := "temp-1" |}; {| name := "B"; url := "temp-2" |}];
     musicFileItems :=
       Some [("temp-1", upload "a.mp3" "cafe"); ("temp-2", upload "b.wav" "cafe")] |}.


(** A pending upload no track refers to, with a name without extension. *)
Definition orphanParams : PushMusicParams :=
  {| musicList := [{| name := "A"; url := "https://example.org/a.mp3" |}];
     musicFileItems := Some [("temp-9", upload "recording" "f00d")] |}.

Definition keepParams : PushMusicParams :=
  {| musicList := oldList; musicFileItems := None |}.

Definition run (previous : option string) (fastForward : bool) (params : PushMusicParams)
  : (PublishError + unit) * State nat PublishError :=
  publish config lib (remote true previous fastForward) params 0.

(** The entry list of the first tree request of a run. *)
Definition treeOf (r : (PublishError + unit) * State nat PublishError) : list TreeItem :=
  hd [] (treeRequests (trace (snd r))).

End Demo.

(** ** The phases of a publish *)

(** The events a publish records before it requests the tree: everything
    but the tree request, the commit, the ref update and the final
    toast. *)
Definition beforeTree {Err : Type} (ev : Event Err) : bool :=
  match ev with
  | EvCreateTree _ _ _ _ _ _ => false
  | EvCreateCommit _ _ _ _ _ _ _ => false
  | EvUpdateRef _ _ _ _ _ _ => false
  | EvToast ToastSuccess _ => false
  | _ => true
  end.

(** ** [src/lib/local-music-storage.ts]: local tracks and their files *)

(** [LocalMusicItem]: a [MusicItem] with a local id and, for a local file,
    its data url and MIME type ([isLocal] is the constant [true]). *)
Module LocalMusicItem.
Record t := {
  name : string;
  url : string;
  id : string;
  fileData : option string;
  fileType : option string
}.
End LocalMusicItem.

Module JsText.

(** [s.split(sep)] for a one-character separator: the pieces between the
    separators, at least one piece. *)
Fixpoint split (sep : ascii) (s : string) : list string :=
  match s with
  | EmptyString => [EmptyString]
  | String c r =>
      if Ascii.eqb c sep then EmptyString :: split sep r
      else match split sep r with
           | p :: ps => String c p :: ps
           | [] => [String c EmptyString]
           end
  end.

(** [x || y] on strings: [undefined] and the empty string are falsy. *)
Definition orElse (x : option string) (y : string) : string :=
  match x with
  | Some (String c r) => String c r
  | _ => y
  end.

(** [m.set(key, value)] on the entries of a [Map]: an existing key keeps its
    place and gets the new value, a new key goes to the end. *)
Fixpoint mapSet {V : Type} (key : string) (value : V) (m : list (string * V))
  : list (string * V) :=
  match m with
  | [] => [(key, value)]
  | (k, v) :: r =>
      if String.eqb k key then (k, value) :: r else (k, v) :: mapSet key value r
  end.

End JsText.

(** The events a publish records before it reads the previous manifest:
    those of [beforeTree] but for the console message of the scan. *)
Definition beforeScan {Err : Type} (ev : Event Err) : bool :=
  match ev with
  | EvConsoleError _ => false
  | _ => beforeTree ev
  end.

(** ** [src/lib/utils.ts]: [thousandsSeparator] *)

Module Regex.

Definition isDigit (c : ascii) : bool :=
  let n := nat_of_ascii c in (48 <=? n) && (n <=? 57).

(** The word characters of [\b] and [\B]: letters, digits and [_]. *)
Definition isWord (c : ascii) : bool :=
  let n := nat_of_ascii c in
  isDigit c || ((65 <=? n) && (n <=? 90)) || ((97 <=? n) && (n <=? 122)) || (n =? 95).

Definition isWordAt (c : option ascii) : bool :=
  match c with
  | Some c => isWord c
  | None => false
  end.

(** [\B] between the character before a position and the one after it
    (none at the ends of the text). *)
Definition nonBoundary (prev next : option ascii) : bool :=
  Bool.eqb (isWordAt prev) (isWordAt next).

Definition headOf (s : string) : option ascii :=
  match s with
  | EmptyString => None
  | String c _ => Some c
  end.

(** [(\d{3})+($|\.)] at the head of [s], as the lookahead tries it: three
    digits, then as many more groups as possible, then the end of the text
    or a dot.  The result holds the two captures: the last group of three
    digits, and what the second group matched. *)
Fixpoint lookahead (s : string) : option (string * string) :=
  match s with
  | String a (String b (String c r)) =>
      if isDigit a && isDigit b && isDigit c then
        match lookahead r with
        | Some captures => Some captures
        | None =>
            let group := String a (String b (String c EmptyString)) in
            match r with
            | EmptyString => Some (group, EmptyString)
            | String d _ => if Ascii.eqb d "."%char then Some (group, ".") else None
            end
        end
      else None
  | _ => None
  end.

(** The texts made of decimal digits only. *)
Fixpoint digits (s : string) : bool :=
  match s with
  | EmptyString => true
  | String c r => isDigit c && digits r
  end.

Definition digitValue (c : ascii) : option nat :=
  if isDigit c then Some (nat_of_ascii c - 48) else None.

(** The capture number [index], counted from 1. *)
Definition captureAt (captures : list string) (index : nat) : option string :=
  match index with
  | O => None
  | S i => nth_error captures i
  end.

(** The expansion of a replacement text ([GetSubstitution]): [$$], [$&],
    the text before the match, the text after it, and [$n] or [$nn] for the
    captures the expression has; any other [$] stands for itself. *)
Fixpoint getSubstitution (matched before after : string) (captures : list string)
    (template : string) : string :=
  match template with
  | EmptyString => EmptyString
  | String c rest =>
      if Ascii.eqb c "$"%char then
        match rest with
        | EmptyString => String c EmptyString
        | String d rest' =>
            if Ascii.eqb d "$"%char then
              String "$"%char (getSubstitution matched before after captures rest')
            else if Ascii.eqb d "&"%char then
              (matched ++ getSubstitution matched before after captures rest')%string
            else if Ascii.eqb d "`"%char then
              (before ++ getSubstitution matched before after captures rest')%string
            else if Ascii.eqb d "'"%char then
              (after ++ getSubstitution matched before after captures rest')%string
            else
              match digitValue d with
              | None => String c (getSubstitution matched before after captures rest)
              | Some n1 =>
                  let oneDigit :=
                    match captureAt captures n1 with
                    | Some capture =>
                        (capture ++ getSubstitution matched before after captures rest')%string
                    | None =>
                        String c (String d (getSubstitution matched before after captures rest'))
                    end in
                  match rest' with
                  | EmptyString => oneDigit
                  | String d2 rest'' =>
                      match digitValue d2 with
                      | None => oneDigit
                      | Some n2 =>
                          match captureAt captures (10 * n1 + n2) with
                          | Some capture =>
                              (capture
                               ++ getSubstitution matched before after captures rest'')%string
                          | None => oneDigit
                          end
                      end
                  end
              end
        end
      else String c (getSubstitution matched before after captures rest)
  end.

End Regex.

(** [s.replace(reg, replacement)] for [reg = /\B(?=(\d{3})+($|\.))/g]: every
    match is empty, so each position of the text is tried once, from left
    to right, and the expansion of the replacement is inserted at the
    positions that match.  [before] is the text up to the position, [prev]
    its last character, [s] the text from the position on. *)
Fixpoint replaceReg (replacement : string) (before : string) (prev : option ascii)
    (s : string) : string :=
  let here :=
    if Regex.nonBoundary prev (Regex.headOf s) then
      match Regex.lookahead s with
      | Some (group, tail) =>
          Regex.getSubstitution EmptyString before s [group; tail] replacement
      | None => EmptyString
      end
    else EmptyString in
  match s with
  | EmptyString => here
  | String c r =>
      (here ++ String c (replaceReg replacement (before ++ String c EmptyString) (Some c) r))%string
  end.

(** [pieces.join(sep)] *)
Fixpoint join (sep : string) (pieces : list string) : string :=
  match pieces with
  | [] => EmptyString
  | [piece] => piece
  | piece :: rest => (piece ++ sep ++ join sep rest)%string
  end.

(** [s.includes(c)] for a one-character text. *)
Fixpoint includes (c : ascii) (s : string) : bool :=
  match s with
  | EmptyString => false
  | String d r => Ascii.eqb d c || includes c r
  end.

(** The argument [n] of [thousandsSeparator]: a string, a number (with the
    text [String(n)] gives for it), or a value of another type. *)
Inductive Amount :=
| AmountString (s : string)
| AmountNumber (text : string)
| AmountOther.

(** Its result: a string, or the number [0]. *)
Inductive Separated :=
| Text (s : string)
| Zero.

(** [thousandsSeparator(n, sign = ',')]; an absent [sign] is [None]. *)
Definition thousandsSeparator (n : Amount) (sign : option string) : Separated :=
  let sign := match sign with
              | Some sign => sign
              | None => ","
              end in
  let replacement := ("$&" ++ sign)%string in
  match n with
  | AmountOther => Zero
  | AmountString n | AmountNumber n =>
      if includes "."%char n then
        match JsText.split "."%char n with
        | [] => Text EmptyString
        | first :: others =>
            Text (join "." (replaceReg replacement EmptyString None first :: others))
        end
      else Text (replaceReg replacement EmptyString None n)
  end.

(** What the dialog shows and does besides the publisher's own events. *)
Inductive UiEvent (Err : Type) : Type :=
| UiPublisher (ev : Event Err)
| UiClickKeyInput
| UiSetIsSyncing (syncing : bool)
| UiSetLocalMusicList (l : list LocalMusicItem.t)
| UiRemoveItem (key : string)
| UiFetch (resource : string)
| UiToastInfo (message : string)
| UiToastSuccess (message : string)
| UiToastError (message : string)
| UiConsoleError (message : string).

Arguments UiPublisher {Err} ev.
Arguments UiClickKeyInput {Err}.
Arguments UiSetIsSyncing {Err} syncing.
Arguments UiSetLocalMusicList {Err} l.
Arguments UiRemoveItem {Err} key.
Arguments UiFetch {Err} resource.
Arguments UiToastInfo {Err} message.
Arguments UiToastSuccess {Err} message.
Arguments UiToastError {Err} message.
Arguments UiConsoleError {Err} message.

(** What the browser provides to the dialog: [atob] ([None] when it throws
    on text that is not base64), the text of the successive [Date.now()]
    readings, and [error?.message] of a thrown error. *)
Record Browser (Err : Type) := {
  atob : string -> option (list Byte.byte);
  dateNow : nat -> string;
  messageOf : Err -> option string
}.

Arguments atob {Err} b.
Arguments dateNow {Err} b.
Arguments messageOf {Err} b.

Definition STORAGE_KEY : string := "local-music-list".
Definition msgConvertFailed : string := "Failed to convert local music to file:".
Definition msgSyncFailed : string := "Failed to sync music to GitHub:".
Definition msgNothingToSync : string := "没有需要同步的本地音乐".
Definition msgSynced : string := "本地音乐已同步到 GitHub".
Definition msgSyncError : string := "同步失败: ".
Definition msgUnknownError : string := "未知错误".

Section LocalSync.

Variables W Err : Type.
Variable GITHUB_CONFIG : GithubConfig.
Variable lib : Helpers.
Variable browser : Browser Err.
Variable remote : Remote W Err.

(** [fileData.split(',')[1] || fileData] *)
Definition base64DataOf (fileData : string) : string :=
  JsText.orElse (nth_error (JsText.split ","%char fileData) 1) fileData.

(** [localMusic.fileType?.split('/')[1] || 'mp3'] *)
Definition extOf (fileType : option string) : string :=
  JsText.orElse
    (match fileType with
     | Some t => nth_error (JsText.split "/"%char t) 1
     | None => None
     end)
    "mp3".

(** [convertLocalMusicToFile]: the file, or [null], and what it wrote to the
    console.  The bytes of the file are the character codes of the text
    [atob] returns; the [catch] covers [atob] throwing. *)
Definition convertLocalMusicToFile (localMusic : LocalMusicItem.t)
  : option File.t * list (UiEvent Err) :=
  match truthy (LocalMusicItem.fileData localMusic) with
  | None => (None, [])
  | Some fileData =>
      match atob browser (base64DataOf fileData) with
      | None => (None, [UiConsoleError msgConvertFailed])
      | Some bytes =>
          let ext := extOf (LocalMusicItem.fileType localMusic) in
          let filename := (LocalMusicItem.name localMusic ++ "." ++ ext)%string in
          (Some {| File.name := filename; File.bytes := bytes |}, [])
      end
  end.

(** The variables of the loop of [handleSyncToGitHub], with the number of
    [Date.now()] readings taken and the console output so far. *)
Record SyncState := {
  syncFileItems : list (string * MusicFileItem);
  musicItemsToSync : list MusicItem;
  readings : nat;
  consoleOutput : list (UiEvent Err)
}.

(** The body of [for (const localMusic of localMusicList)].  The [ext] and
    [filename] the source computes there are never used. *)
Definition syncOne (st : SyncState) (localMusic : LocalMusicItem.t) : SyncState :=
  match truthy (LocalMusicItem.fileData localMusic) with
  | None => st
  | Some _ =>
      let (file, output) := convertLocalMusicToFile localMusic in
      match file with
      | None =>
          {| syncFileItems := syncFileItems st;
             musicItemsToSync := musicItemsToSync st;
             readings := readings st;
             consoleOutput := consoleOutput st ++ output |}
      | Some f =>
          let h := hashFileSHA256 lib f in
          let tempUrl := ("temp-" ++ dateNow browser (readings st) ++ "-" ++ h)%string in
          {| syncFileItems :=
               JsText.mapSet tempUrl {| file := Some f; hash := Some h |} (syncFileItems st);
             musicItemsToSync :=
               musicItemsToSync st
               ++ [{| name := LocalMusicItem.name localMusic; url := tempUrl |}];
             readings := S (readings st);
             consoleOutput := consoleOutput st ++ output |}
      end
  end.

Definition syncStart : SyncState :=
  {| syncFileItems := []; musicItemsToSync := []; readings := 0; consoleOutput := [] |}.

Definition syncLoop (localMusicList : list LocalMusicItem.t) : SyncState :=
  fold_left syncOne localMusicList syncStart.

(** The argument of the call to [pushMusic]:
    [{ musicList: [...savedMusicList, ...musicItemsToSync],
       musicFileItems: musicFileItems.size > 0 ? musicFileItems : undefined }] *)
Definition syncParams (savedMusicList : list MusicItem) (st : SyncState) : PushMusicParams :=
  {| musicList := savedMusicList ++ musicItemsToSync st;
     musicFileItems :=
       match syncFileItems st with
       | [] => None
       | entries => Some entries
       end |}.

(** [handleSyncToGitHub] on the dialog's state ([isAuth], [localMusicList],
    [savedMusicList]; [keyInput] says whether [keyInputRef.current] holds
    the file input) and the remote's state: what the dialog does, in order,
    and the remote's state afterwards.  The callbacks of the final [fetch]
    run after the handler and only reload the saved list; they are not part
    of it. *)
Definition handleSyncToGitHub (isAuth keyInput : bool)
    (localMusicList : list LocalMusicItem.t) (savedMusicList : list MusicItem) (w : W)
  : list (UiEvent Err) * W :=
  if negb isAuth then (if keyInput then [UiClickKeyInput] else [], w)
  else
    match localMusicList with
    | [] => ([UiToastInfo msgNothingToSync], w)
    | _ =>
        let st := syncLoop localMusicList in
        let (result, s) := publish GITHUB_CONFIG lib remote (syncParams savedMusicList st) w in
        ([UiSetIsSyncing true]
         ++ consoleOutput st
         ++ map UiPublisher (trace s)
         ++ match result with
            | inr _ =>
                [UiSetLocalMusicList []; UiRemoveItem STORAGE_KEY;
                 UiFetch "/api/music/list"; UiToastSuccess msgSynced]
            | inl e =>
                [UiConsoleError msgSyncFailed;
                 UiToastError
                   (msgSyncError ++ JsText.orElse (messageOf browser e) msgUnknownError)]
            end
         ++ [UiSetIsSyncing false],
         world s)
    end.

(** The publisher's events among what the dialog did. *)
Fixpoint publisherEvents (evs : list (UiEvent Err)) : list (Event Err) :=
  match evs with
  | [] => []
  | UiPublisher ev :: r => ev :: publisherEvents r
  | _ :: r => publisherEvents r
  end.

(** The bookkeeping of the loop of [handleSyncToGitHub] alone: the local
    tracks it turns into files, the transient url of the file converted at
    the [n]-th reading of the clock, and the tracks and [Map] entries it
    builds from them. *)
Fixpoint convertedTracks (l : list LocalMusicItem.t) : list (LocalMusicItem.t * File.t) :=
  match l with
  | [] => []
  | localMusic :: rest =>
      match fst (convertLocalMusicToFile localMusic) with
      | Some f => (localMusic, f) :: convertedTracks rest
      | None => convertedTracks rest
      end
  end.

Definition tempUrlOf (n : nat) (f : File.t) : string :=
  ("temp-" ++ dateNow browser n ++ "-" ++ hashFileSHA256 lib f)%string.

Definition syncItemOf (f : File.t) : MusicFileItem :=
  {| file := Some f; hash := Some (hashFileSHA256 lib f) |}.

Fixpoint syncedItems (n : nat) (tracks : list (LocalMusicItem.t * File.t)) : list MusicItem :=
  match tracks with
  | [] => []
  | (localMusic, f) :: rest =>
      {| name := LocalMusicItem.name localMusic; url := tempUrlOf n f |}
      :: syncedItems (S n) rest
  end.

Fixpoint syncedEntries (n : nat) (tracks : list (LocalMusicItem.t * File.t))
    (acc : list (string * MusicFileItem)) : list (string * MusicFileItem) :=
  match tracks with
  | [] => acc
  | (_, f) :: rest =>
      syncedEntries (S n) rest (JsText.mapSet (tempUrlOf n f) (syncItemOf f) acc)
  end.

End LocalSync.

Arguments base64DataOf fileData : assert.
Arguments convertLocalMusicToFile {Err} browser localMusic.
Arguments syncFileItems {Err} s.
Arguments musicItemsToSync {Err} s.
Arguments readings {Err} s.
Arguments consoleOutput {Err} s.
Arguments syncOne {Err} lib browser st localMusic.
Arguments syncStart {Err}.
Arguments syncLoop {Err} lib browser localMusicList.
Arguments syncParams {Err} savedMusicList st.
Arguments handleSyncToGitHub {W Err} GITHUB_CONFIG lib browser remote isAuth keyInput
  localMusicList savedMusicList w.
Arguments publisherEvents {Err} evs.
Arguments convertedTracks {Err} browser l.
Arguments tempUrlOf {Err} lib browser n f.
Arguments syncedItems {Err} lib browser n tracks.
Arguments syncedEntries {Err} lib browser n tracks acc.

(** ** Local tracks to run the dialog on *)

Module Scenario.

(** A browser whose [atob] knows two payloads, whose clock reads [1000],
    [1001], ... and whose errors carry no message. *)
Definition browser : Browser Demo.PublishError :=
  {| atob := fun s =>
       if String.eqb s "c29uZw==" then Some (Demo.bytesOf "song")
       else if String.eqb s "dHVuZQ==" then Some (Demo.bytesOf "tune")
       else None;
     dateNow := fun n => ("100" ++ Demo.digit n)%string;
     messageOf := fun _ => None |}.

(** A local MP3 as [saveMusicToLocal] stores it. *)
Definition localSong : LocalMusicItem.t :=
  {| LocalMusicItem.name := "Song";
     LocalMusicItem.url := "blob:1";
     LocalMusicItem.id := "local-1";
     LocalMusicItem.fileData := Some "data:audio/mpeg;base64,c29uZw==";
     LocalMusicItem.fileType := Some "audio/mpeg" |}.

(** The same data under the MIME type [audio/mp3]. *)
Definition localSongMp3 : LocalMusicItem.t :=
  {| LocalMusicItem.name := "Song again";
     LocalMusicItem.url := "blob:4";
     LocalMusicItem.id := "local-4";
     LocalMusicItem.fileData := Some "data:audio/mp3;base64,c29uZw==";
     LocalMusicItem.fileType := Some "audio/mp3" |}.

(** A local track whose data cannot be decoded. *)
Definition localBroken : LocalMusicItem.t :=
  {| LocalMusicItem.name := "Broken";
     LocalMusicItem.url := "blob:2";
     LocalMusicItem.id := "local-2";
     LocalMusicItem.fileData := Some "data:audio/wav;base64,";
     LocalMusicItem.fileType := Some "audio/wav" |}.

(** A local track without a MIME type. *)
Definition localTune : LocalMusicItem.t :=
  {| LocalMusicItem.name := "Tune";
     LocalMusicItem.url := "blob:3";
     LocalMusicItem.id := "local-3";
     LocalMusicItem.fileData := Some "dHVuZQ==";
     LocalMusicItem.fileType := None |}.

Definition localList : list LocalMusicItem.t := [localSong; localBroken; localTune].

(** A pending upload no track refers to, with the bytes and the extension
    of the track of [Demo.oldList]. *)
Definition reuploadParams : PushMusicParams :=
  {| musicList := [{| name := "X"; url := "https://example.org/x.mp3" |}];
     musicFileItems := Some [("temp-3", Demo.upload "again.mp3" "old")] |}.

(** Two pending uploads with different bytes for which the caller supplies
    one hash. *)
Definition sameHashParams : PushMusicParams :=
  {| musicList := [{| name := "A"; url := "temp-1" |}; {| name := "B"; url := "temp-2" |}];
     musicFileItems :=
       Some [("temp-1", {| file := Some (Demo.fileOf "a.mp3" "aaaa"); hash := Some "h1" |});
             ("temp-2", {| file := Some (Demo.fileOf "b.mp3" "bbbb"); hash := Some "h1" |})] |}.

(** The entry list of the first tree request of a sync. *)
Definition treeOfSync (r : list (UiEvent Demo.PublishError) * nat) : list TreeItem :=
  hd [] (treeRequests (publisherEvents (fst r))).

End Scenario.

(** * Properties *)

(** ** Strings and sets *)

Lemma prefix_slice (p s : string) :
  String.prefix p s = true -> s = (p ++ Js.slice (String.length p) s)%string.
Proof.
  revert s; induction p as [|c p IH]; intros [|d s] H; simpl in *;
    try reflexivity; try discriminate.
  destruct (Ascii.ascii_dec c d) as [->|]; [|discriminate].
  f_equal. now apply IH.
Qed.

Lemma replace_prefix (p s rep : string) :
  Js.startsWith s p = true ->
  Js.replace s p rep = (rep ++ Js.slice (String.length p) s)%string.
Proof.
  unfold Js.startsWith. intros H. destruct s; cbn [Js.replace]; now rewrite H.
Qed.

(** A url under the owned prefix is deleted at [public] followed by the
    url itself. *)
Lemma deleteItem_owned (u : string) :
  Js.startsWith u "/music/" = true ->
  path (deleteItem u) = ("public" ++ u)%string
  /\ u = ("/music/" ++ Js.slice 7 u)%string
  /\ path (deleteItem u) = ("public/music/" ++ Js.slice 7 u)%string.
Proof.
  intros H. unfold deleteItem. simpl path.
  rewrite (replace_prefix _ _ _ H). simpl String.length.
  pose proof (prefix_slice _ _ H) as E. simpl String.length in E.
  repeat split; try assumption.
  rewrite E at 2. reflexivity.
Qed.

Lemma has_In (s : StrSet.t) (x : string) : StrSet.has s x = true <-> In x s.
Proof.
  unfold StrSet.has. rewrite existsb_exists. split.
  - intros (y & Hy & E). apply String.eqb_eq in E. now subst.
  - intros H. exists x. split; [assumption | apply String.eqb_refl].
Qed.

Lemma has_false (s : StrSet.t) (x : string) : StrSet.has s x = false <-> ~ In x s.
Proof.
  rewrite <- has_In. destruct (StrSet.has s x); intuition congruence.
Qed.

Lemma add_In (s : StrSet.t) (x y : string) : In y (StrSet.add x s) <-> y = x \/ In y s.
Proof.
  unfold StrSet.add. destruct (StrSet.has s x) eqn:H.
  - apply has_In in H. split; [now right | intros [->|]; assumption].
  - rewrite in_app_iff. simpl. intuition.
Qed.

Lemma add_NoDup (s : StrSet.t) (x : string) : NoDup s -> NoDup (StrSet.add x s).
Proof.
  intros H. unfold StrSet.add. destruct (StrSet.has s x) eqn:Hx; [assumption|].
  apply has_false in Hx.
  apply NoDup_app; [assumption | repeat constructor; simpl; tauto |].
  intros a Ha [<-|[]]. contradiction.
Qed.

(** ** The stale-file scan *)

Lemma collectPrevious_urls (elements : list JValue) :
  forall (urls : list string) (acc : StrSet.t),
    Json.urlsOf elements = Some urls ->
    collectPrevious elements acc = Some (collectOwned urls acc).
Proof.
  induction elements as [|music rest IH]; intros urls acc H; cbn in H.
  - injection H as <-. reflexivity.
  - cbn [collectPrevious]. unfold Json.urlStartsWith.
    destruct (Json.urlOf music) as [u|]; [|discriminate].
    destruct (Json.urlsOf rest) as [us|]; [|discriminate].
    injection H as <-. cbn [collectOwned fold_left].
    destruct (Js.startsWith u "/music/"); now apply IH.
Qed.

(** The loop over the parsed value completes only on elements that all have
    a string [url]. *)
Lemma collectPrevious_readable (elements : list JValue) :
  forall acc previousUrls : StrSet.t,
    collectPrevious elements acc = Some previousUrls ->
    exists urls, Json.urlsOf elements = Some urls.
Proof.
  induction elements as [|music rest IH]; intros acc previousUrls H; cbn in H.
  - exists []. reflexivity.
  - unfold Json.urlStartsWith in H. cbn [Json.urlsOf].
    destruct (Json.urlOf music) as [u|]; [|discriminate].
    destruct (Js.startsWith u "/music/"); destruct (IH _ _ H) as (us & ->); eauto.
Qed.

Lemma readUrls_ofList (prev : list MusicItem) :
  Json.readUrls (Json.ofList prev) = Some (map url prev).
Proof.
  unfold Json.readUrls, Json.ofList. cbn [Json.iterate].
  induction prev as [|m prev IH]; [reflexivity|].
  cbn [map Json.urlsOf]. rewrite IH. reflexivity.
Qed.

Lemma collectCurrent_urls (l : list MusicItem) :
  collectCurrent l = collectOwned (map url l) StrSet.empty.
Proof.
  unfold collectCurrent, collectOwned. generalize StrSet.empty.
  induction l as [|m l IH]; intros acc; [reflexivity|]. cbn [map fold_left]. apply IH.
Qed.

Lemma collectOwned_In (urls : list string) (acc : StrSet.t) (u : string) :
  In u (collectOwned urls acc) <-> In u acc \/ (owned u = true /\ In u urls).
Proof.
  unfold collectOwned. revert acc.
  induction urls as [|x urls IH]; intros acc; cbn [fold_left In].
  - tauto.
  - rewrite IH. unfold owned.
    destruct (Js.startsWith x "/music/") eqn:Hx.
    + rewrite add_In. split.
      * intros [[->|H]|[H1 H2]]; auto.
      * intros [H|[H1 [<-|H2]]]; auto.
    + split.
      * intros [H|[H1 H2]]; auto.
      * intros [H|[H1 [<-|H2]]]; auto. congruence.
Qed.

Lemma collectOwned_NoDup (urls : list string) (acc : StrSet.t) :
  NoDup acc -> NoDup (collectOwned urls acc).
Proof.
  unfold collectOwned. revert acc.
  induction urls as [|x urls IH]; intros acc H; cbn [fold_left]; [assumption|].
  apply IH. destruct (Js.startsWith x "/music/"); [now apply add_NoDup | assumption].
Qed.

(** Urls outside the owned prefix play no part in what is collected. *)
Lemma collectOwned_filter (urls : list string) (acc : StrSet.t) :
  collectOwned (filter owned urls) acc = collectOwned urls acc.
Proof.
  unfold collectOwned. revert acc.
  induction urls as [|x urls IH]; intros acc; [reflexivity|].
  cbn [filter fold_left]. unfold owned at 1.
  destruct (Js.startsWith x "/music/") eqn:Hx; cbn [fold_left]; rewrite ?Hx; apply IH.
Qed.

Lemma collectCurrent_In (l : list MusicItem) (u : string) :
  In u (collectCurrent l) <-> owned u = true /\ In u (map url l).
Proof.
  rewrite collectCurrent_urls, collectOwned_In. unfold StrSet.empty. simpl. tauto.
Qed.

(** Every url the scan keeps for deletion is owned, was in the previous
    set and is not in the current one. *)
Lemma staleItems_In (previousUrls currentUrls : StrSet.t) (item : TreeItem) :
  In item (staleItems previousUrls currentUrls) <->
  exists u, item = deleteItem u /\ In u previousUrls /\ ~ In u currentUrls.
Proof.
  unfold staleItems, StrSet.elements. rewrite in_map_iff. split.
  - intros (u & <- & H). apply filter_In in H as [H1 H2].
    apply negb_true_iff, has_false in H2. eauto.
  - intros (u & -> & H1 & H2). exists u. split; [reflexivity|].
    apply filter_In. split; [assumption|]. now apply negb_true_iff, has_false.
Qed.

Lemma staleItems_isDelete (previousUrls currentUrls : StrSet.t) :
  filter isDelete (staleItems previousUrls currentUrls) = staleItems previousUrls currentUrls.
Proof.
  unfold staleItems.
  induction (filter (fun u => negb (StrSet.has currentUrls u)) (StrSet.elements previousUrls))
    as [|u l IH]; [reflexivity|].
  cbn [map filter]. unfold isDelete at 1. cbn [deleteItem sha]. now rewrite IH.
Qed.

Section ScanFacts.

Variable lib : Helpers.

(** The scan on a previous manifest that parses to a value whose elements
    carry the urls [urls]. *)
Lemma tryStale_parsed (text : string) (v : JValue) (urls : list string)
    (updated : list MusicItem) :
  parse lib text = Some v ->
  Json.readUrls v = Some urls ->
  tryStale lib text updated
  = Some (staleItems (collectOwned urls StrSet.empty) (collectCurrent updated)).
Proof.
  intros H Hurls. unfold tryStale. rewrite H. unfold Json.readUrls in Hurls.
  destruct (Json.iterate v) as [elements|]; [|discriminate].
  now rewrite (collectPrevious_urls elements urls StrSet.empty Hurls).
Qed.

(** The [try] block completes exactly on such manifests. *)
Lemma tryStale_completes (text : string) (updated : list MusicItem)
    (deletes : list TreeItem) :
  tryStale lib text updated = Some deletes -> readable lib text.
Proof.
  unfold tryStale, readable. destruct (parse lib text) as [v|]; [|discriminate].
  destruct (Json.iterate v) as [elements|] eqn:Hi; [|discriminate].
  destruct (collectPrevious elements StrSet.empty) as [previousUrls|] eqn:Hc; [|discriminate].
  intros _. destruct (collectPrevious_readable elements _ _ Hc) as (urls & Hu).
  exists v, urls. split; [reflexivity|]. unfold Json.readUrls. now rewrite Hi.
Qed.

Lemma tryStale_unreadable (text : string) (updated : list MusicItem) :
  ~ readable lib text -> tryStale lib text updated = None.
Proof.
  intros H. destruct (tryStale lib text updated) as [deletes|] eqn:E; [|reflexivity].
  destruct H. exact (tryStale_completes text updated deletes E).
Qed.

Lemma syntax_error_unreadable (text : string) :
  parse lib text = None -> ~ readable lib text.
Proof. intros H (v & urls & Hv & _). rewrite H in Hv. discriminate. Qed.

Lemma staleOf_isDelete (previous : option string) (updated : list MusicItem) :
  filter isDelete (staleOf lib previous updated) = staleOf lib previous updated.
Proof.
  unfold staleOf. destruct (truthy previous) as [text|]; [|reflexivity].
  unfold tryStale.
  destruct (parse lib text) as [v|]; [|reflexivity].
  destruct (Json.iterate v) as [els|]; [|reflexivity].
  destruct (collectPrevious els StrSet.empty); [|reflexivity].
  apply staleItems_isDelete.
Qed.

Lemma addItems_isDelete (uploads : list (File.t * string)) (shas : list string) :
  filter isDelete (addItems uploads shas) = [].
Proof.
  unfold addItems. induction (combine uploads shas) as [|x l IH]; [reflexivity|].
  cbn [map filter]. exact IH.
Qed.

(** The delete entries of a tree request are those of the scan. *)
Lemma treeEntries_deletes (params : PushMusicParams) (shas : list string)
    (previous : option string) (manifestSha : string) :
  filter isDelete (treeEntries lib params shas previous manifestSha)
  = staleOf lib previous (postRemap lib params).
Proof.
  unfold treeEntries. rewrite !filter_app, addItems_isDelete, staleOf_isDelete.
  cbn. now rewrite app_nil_r.
Qed.

End ScanFacts.

(** ** The manifest text determines the track list *)

Lemma unquote_quoteChar (c : ascii) (x : string) :
  Json.unquoteChar (Json.quoteChar c ++ x) = Some (c, x).
Proof.
  destruct c as [b0 b1 b2 b3 b4 b5 b6 b7].
  destruct b0, b1, b2, b3, b4, b5, b6, b7; reflexivity.
Qed.

Lemma append_assoc (a b c : string) : ((a ++ b) ++ c = a ++ (b ++ c))%string.
Proof. induction a as [|x a IH]; cbn; [reflexivity | now rewrite IH]. Qed.

(** A quoted body is read back up to the closing quote. *)
Lemma quoteBody_inj (s1 : string) :
  forall (s2 x y : string),
    (Json.quoteBody s1 ++ String Json.dquote x = Json.quoteBody s2 ++ String Json.dquote y)%string ->
    s1 = s2 /\ x = y.
Proof.
  induction s1 as [|c1 r1 IH]; intros [|c2 r2] x y H; cbn [Json.quoteBody] in H.
  - cbn in H. injection H as ->. auto.
  - rewrite append_assoc in H. apply (f_equal Json.unquoteChar) in H.
    rewrite unquote_quoteChar in H. discriminate.
  - rewrite append_assoc in H. apply (f_equal Json.unquoteChar) in H.
    rewrite unquote_quoteChar in H. discriminate.
  - rewrite !append_assoc in H. apply (f_equal Json.unquoteChar) in H.
    rewrite !unquote_quoteChar in H. injection H as -> H.
    destruct (IH _ _ _ H) as [-> ->]. auto.
Qed.

Lemma quote_inj (s1 s2 x y : string) :
  (Json.quote s1 ++ x = Json.quote s2 ++ y)%string -> s1 = s2 /\ x = y.
Proof.
  unfold Json.quote. rewrite !append_assoc. cbn [String.append]. intros H.
  injection H as H. now apply quoteBody_inj.
Qed.

Lemma stringifyItem_inj (m1 m2 : MusicItem) (x y : string) :
  (Json.stringifyItem Json.tab m1 ++ x = Json.stringifyItem Json.tab m2 ++ y)%string ->
  m1 = m2 /\ x = y.
Proof.
  unfold Json.stringifyItem, Json.quote. rewrite !append_assoc.
  cbn [String.append Json.tab Json.nl Json.quoteBody Json.quoteChar]. intros H.
  injection H as H.
  apply quoteBody_inj in H as [Hn H]. injection H as H.
  apply quoteBody_inj in H as [Hu H]. injection H as ->.
  destruct m1, m2; cbn in *; subst; auto.
Qed.

Lemma joinLines_inj (l1 : list MusicItem) :
  forall l2 : list MusicItem,
    l1 <> [] -> l2 <> [] ->
    (Json.joinLines (map (Json.stringifyItem Json.tab) l1) ++ Json.nl
     = Json.joinLines (map (Json.stringifyItem Json.tab) l2) ++ Json.nl)%string ->
    l1 = l2.
Proof.
  induction l1 as [|a [|a' r] IH]; intros [|b [|b' r']] H1 H2 H; try contradiction;
    cbn [map Json.joinLines] in H.
  - apply stringifyItem_inj in H as [-> _]. reflexivity.
  - rewrite !append_assoc in H. apply stringifyItem_inj in H as [_ H]. discriminate.
  - rewrite !append_assoc in H. apply stringifyItem_inj in H as [_ H]. discriminate.
  - rewrite !append_assoc in H. apply stringifyItem_inj in H as [-> H].
    cbn [String.append Json.nl] in H. injection H as H.
    f_equal. apply IH; try discriminate. exact H.
Qed.

Lemma append_cancel_l (p s t : string) : (p ++ s = p ++ t)%string -> s = t.
Proof. induction p as [|c p IH]; cbn; intros H; [exact H|]. injection H as H. auto. Qed.

(** The closing line of the array can be cut off. *)
Lemma closing_cut (s : string) :
  forall t : string, (s ++ Json.nl ++ "]" = t ++ Json.nl ++ "]")%string -> s = t.
Proof.
  induction s as [|c s IH]; intros [|d t] E; cbn in E.
  - reflexivity.
  - injection E as <- E. destruct t as [|? [|? ?]]; cbn in E; discriminate.
  - injection E as -> E. destruct s as [|? [|? ?]]; cbn in E; discriminate.
  - injection E as -> E. f_equal. now apply IH.
Qed.

(** [JSON.stringify] loses nothing of a track list: names, urls and order
    can be read off the text. *)
Lemma stringifyList_inj (l1 l2 : list MusicItem) :
  Json.stringifyList Json.tab l1 = Json.stringifyList Json.tab l2 -> l1 = l2.
Proof.
  unfold Json.stringifyList. destruct l1 as [|a r], l2 as [|b r']; intros H.
  - reflexivity.
  - cbn in H. discriminate.
  - cbn in H. discriminate.
  - apply append_cancel_l, append_cancel_l, closing_cut in H.
    apply joinLines_inj; try discriminate. now rewrite H.
Qed.

(** ** The upload loop *)

Section RunFacts.

Variables W Err : Type.
Variable GITHUB_CONFIG : GithubConfig.
Variable lib : Helpers.
Variable remote : Remote W Err.

(** One turn of the loop, run on a state. *)
Lemma uploadOne_run (token key : string) (item : MusicFileItem) (st : UploadState)
    (s : State W Err) :
  uploadOne GITHUB_CONFIG lib remote token st (key, item) s =
  match file item with
  | None => (inr st, s)
  | Some f =>
      if StrSet.has (uploadedHashes st) (hashOf lib item f) then
        (inr {| treeItems := treeItems st;
                uploadedHashes := uploadedHashes st;
                updatedMusicList :=
                  remap key (publicPathOf lib item f) (updatedMusicList st) |}, s)
      else
        match createBlob remote token (OWNER GITHUB_CONFIG) (REPO GITHUB_CONFIG)
                         (fileToBase64NoPrefix lib f) "base64" (world s) with
        | (inl e, w') =>
            (inl e,
             {| world := w';
                trace := trace s ++
                         [EvCreateBlob token (OWNER GITHUB_CONFIG) (REPO GITHUB_CONFIG)
                                       (fileToBase64NoPrefix lib f) "base64" (inl e)] |})
        | (inr blobSha, w') =>
            (inr {| treeItems :=
                      treeItems st ++ [addItem (f, hashOf lib item f) blobSha];
                    uploadedHashes := StrSet.add (hashOf lib item f) (uploadedHashes st);
                    updatedMusicList :=
                      remap key (publicPathOf lib item f) (updatedMusicList st) |},
             {| world := w';
                trace := trace s ++
                         [EvCreateBlob token (OWNER GITHUB_CONFIG) (REPO GITHUB_CONFIG)
                                       (fileToBase64NoPrefix lib f) "base64"
                                       (inr blobSha)] |})
        end
  end.
Proof.
  unfold uploadOne. destruct (file item) as [f|]; [|reflexivity].
  destruct (StrSet.has (uploadedHashes st) (hashOf lib item f)); [reflexivity|].
  cbn [negb]. unfold bind, awaitCreateBlob, call, ret.
  destruct (createBlob remote token (OWNER GITHUB_CONFIG) (REPO GITHUB_CONFIG)
                       (fileToBase64NoPrefix lib f) "base64" (world s))
    as [[e|blobSha] w']; reflexivity.
Qed.

(** The loop calls [createBlob] once per fresh upload, in order, and stops
    at the first failure; its bookkeeping is [freshUploads] and
    [remapAll]. *)
Lemma upload_loop (token : string) (entries : list (string * MusicFileItem)) :
  forall (st : UploadState) (s : State W Err),
    match forEach (uploadOne GITHUB_CONFIG lib remote token) entries st s with
    | (inr st', s') =>
        exists shas,
          length shas = length (freshUploads lib entries (uploadedHashes st))
          /\ trace s' =
             trace s ++ blobEvents GITHUB_CONFIG lib token
                          (freshUploads lib entries (uploadedHashes st)) shas
          /\ treeItems st' =
             treeItems st ++ addItems (freshUploads lib entries (uploadedHashes st)) shas
          /\ updatedMusicList st' = remapAll lib entries (updatedMusicList st)
    | (inl e, s') =>
        exists shas u,
          nth_error (freshUploads lib entries (uploadedHashes st)) (length shas) = Some u
          /\ trace s' =
             trace s ++ blobEvents GITHUB_CONFIG lib token
                          (freshUploads lib entries (uploadedHashes st)) shas
             ++ [EvCreateBlob token (OWNER GITHUB_CONFIG) (REPO GITHUB_CONFIG)
                              (fileToBase64NoPrefix lib (fst u)) "base64" (inl e)]
    end.
Proof.
  induction entries as [|[key item] rest IH]; intros st s.
  - cbn. exists []. cbn. rewrite !app_nil_r. auto.
  - cbn [forEach freshUploads remapAll]. unfold bind at 1. rewrite uploadOne_run.
    destruct (file item) as [f|] eqn:Hf; [|apply IH].
    destruct (StrSet.has (uploadedHashes st) (hashOf lib item f)) eqn:Hseen.
    + match goal with
      | |- context [forEach _ rest ?st1 s] => exact (IH st1 s)
      end.
    + destruct (createBlob remote token (OWNER GITHUB_CONFIG) (REPO GITHUB_CONFIG)
                           (fileToBase64NoPrefix lib f) "base64" (world s))
        as [[e|blobSha] w'].
      * exists [], (f, hashOf lib item f). cbn. auto.
      * match goal with
        | |- context [forEach _ rest ?st1 ?s1] =>
            specialize (IH st1 s1); destruct (forEach _ rest st1 s1) as [[e|st2] s2]
        end; cbn [uploadedHashes treeItems updatedMusicList trace] in IH.
        -- destruct IH as (shas & u & Hn & Ht).
           exists (blobSha :: shas), u. split; [exact Hn|].
           rewrite Ht. cbn. rewrite <- !app_assoc. reflexivity.
        -- destruct IH as (shas & Hl & Ht & Hi & Hm).
           exists (blobSha :: shas). cbn [length]. rewrite Hl, Ht, Hi, Hm.
           cbn. rewrite <- !app_assoc. auto.
Qed.

(** ** The shape of a publish *)

Lemma treeRequests_app (a b : list (Event Err)) :
  treeRequests (a ++ b) = treeRequests a ++ treeRequests b.
Proof.
  induction a as [|ev a IH]; [reflexivity|].
  destruct ev; cbn [app treeRequests]; rewrite IH; reflexivity.
Qed.

Lemma blobRequests_app (a b : list (Event Err)) :
  blobRequests (a ++ b) = blobRequests a ++ blobRequests b.
Proof.
  induction a as [|ev a IH]; [reflexivity|].
  destruct ev; cbn [app blobRequests]; rewrite IH; reflexivity.
Qed.

Lemma manifestReads_app (a b : list (Event Err)) :
  manifestReads (a ++ b) = manifestReads a ++ manifestReads b.
Proof.
  induction a as [|ev a IH]; [reflexivity|].
  destruct ev; cbn [app manifestReads]; rewrite IH; reflexivity.
Qed.

Lemma blobEvents_quiet (token : string) (uploads : list (File.t * string))
    (shas : list string) :
  treeRequests (blobEvents GITHUB_CONFIG lib (Err := Err) token uploads shas) = []
  /\ manifestReads (blobEvents GITHUB_CONFIG lib (Err := Err) token uploads shas) = [].
Proof.
  unfold blobEvents. induction (combine uploads shas) as [|x l IH]; [split; reflexivity|exact IH].
Qed.

Lemma uploadToast_quiet (params : PushMusicParams) :
  treeRequests (uploadToast (Err := Err) params) = []
  /\ blobRequests (uploadToast (Err := Err) params) = []
  /\ manifestReads (uploadToast (Err := Err) params) = [].
Proof. unfold uploadToast. now destruct (musicFileItems params) as [[|? ?]|]. Qed.

Lemma parseWarning_quiet (previous : option string) (updated : list MusicItem) :
  treeRequests (parseWarning lib (Err := Err) previous updated) = []
  /\ blobRequests (parseWarning lib (Err := Err) previous updated) = []
  /\ manifestReads (parseWarning lib (Err := Err) previous updated) = [].
Proof.
  unfold parseWarning. destruct (truthy previous) as [text|]; [|now repeat split].
  now destruct (tryStale lib text updated).
Qed.

Lemma blobRequests_blobEvents (token : string) (uploads : list (File.t * string)) :
  forall shas : list string,
    length shas = length uploads ->
    blobRequests (blobEvents GITHUB_CONFIG lib (Err := Err) token uploads shas)
    = map (fun u => fileToBase64NoPrefix lib (fst u)) uploads.
Proof.
  unfold blobEvents. induction uploads as [|u uploads IH]; intros [|x shas] H;
    try discriminate; [reflexivity|].
  cbn. f_equal. apply IH. now injection H.
Qed.

(** Pushes the trace queries through a trace written as an append of the
    pieces above. *)
Ltac query_trace :=
  cbn [trace];
  repeat progress
    (cbn [treeRequests blobRequests manifestReads app];
     rewrite ?treeRequests_app, ?blobRequests_app, ?manifestReads_app,
       ?(proj1 (blobEvents_quiet _ _ _)), ?(proj2 (blobEvents_quiet _ _ _)),
       ?(proj1 (uploadToast_quiet _)), ?(proj1 (proj2 (uploadToast_quiet _))),
       ?(proj2 (proj2 (uploadToast_quiet _))),
       ?(proj1 (parseWarning_quiet _ _)), ?(proj1 (proj2 (parseWarning_quiet _ _))),
       ?(proj2 (proj2 (parseWarning_quiet _ _)))).

(** The upload phase, from the initial loop state. *)
Lemma uploadAll_run (token : string) (params : PushMusicParams) (s : State W Err) :
  match uploadAll GITHUB_CONFIG lib remote token (musicFileItems params)
                  {| treeItems := []; uploadedHashes := StrSet.empty;
                     updatedMusicList := musicList params |} s with
  | (inr st', s') =>
      exists shas,
        length shas = length (plan lib params)
        /\ trace s' = trace s ++ uploadToast params
                      ++ blobEvents GITHUB_CONFIG lib token (plan lib params) shas
        /\ treeItems st' = addItems (plan lib params) shas
        /\ updatedMusicList st' = postRemap lib params
  | (inl e, s') =>
      exists evs,
        trace s' = trace s ++ evs /\ treeRequests evs = [] /\ manifestReads evs = []
  end.
Proof.
  unfold uploadAll, plan, postRemap, pendingEntries, uploadToast.
  destruct (musicFileItems params) as [[|entry entries]|].
  - exists []. cbn. rewrite app_nil_r. auto.
  - unfold bind at 1, toastInfo, emit.
    match goal with
    | |- context [forEach _ ?l ?st1 ?s1] =>
        pose proof (upload_loop token l st1 s1) as H;
          destruct (forEach _ l st1 s1) as [[e|st2] s2]
    end; cbn [uploadedHashes treeItems updatedMusicList trace world] in H.
    + destruct H as (shas & u & _ & Ht). rewrite Ht.
      eexists. rewrite <- !app_assoc. split; [reflexivity|].
      split; query_trace; reflexivity.
    + destruct H as (shas & Hl & Ht & Hi & Hm). exists shas.
      rewrite Hl, Ht, Hi, Hm. rewrite <- !app_assoc. auto.
  - exists []. cbn. rewrite app_nil_r. auto.
Qed.

Lemma scanStale_run (previous : option string) (updated : list MusicItem)
    (items : list TreeItem) (w : W) (tr : list (Event Err)) :
  scanStale lib previous updated items {| world := w; trace := tr |}
  = (inr (items ++ staleOf lib previous updated),
     {| world := w; trace := tr ++ parseWarning lib previous updated |}).
Proof.
  unfold scanStale, staleOf, parseWarning.
  destruct (truthy previous) as [text|].
  - destruct (tryStale lib text updated); cbn; rewrite ?app_nil_r; reflexivity.
  - cbn. rewrite !app_nil_r. reflexivity.
Qed.

(** Every publish ends in one of three ways: it stops before the previous
    manifest is read; it reads it, scans, and fails to create the manifest
    blob; or it runs [traceToTree] and ends as [AfterTree] says. *)
Lemma publish_cases (params : PushMusicParams) (w : W) :
  (treeRequests (trace (snd (publish GITHUB_CONFIG lib remote params w))) = []
   /\ (forall previous,
         ~ In (inr previous)
              (manifestReads (trace (snd (publish GITHUB_CONFIG lib remote params w)))))
   /\ exists e, fst (publish GITHUB_CONFIG lib remote params w) = inl e)
  \/ (exists token latest shas previous e,
        length shas = length (plan lib params)
        /\ trace (snd (publish GITHUB_CONFIG lib remote params w))
           = traceToScan GITHUB_CONFIG lib params token latest shas previous
             ++ [manifestBlobEvent GITHUB_CONFIG lib params token (inl e)]
        /\ fst (publish GITHUB_CONFIG lib remote params w) = inl e)
  \/ (exists token latest shas previous manifestSha treeReply rest,
        length shas = length (plan lib params)
        /\ trace (snd (publish GITHUB_CONFIG lib remote params w))
           = traceToTree GITHUB_CONFIG lib params token latest shas previous manifestSha
                         treeReply ++ rest
        /\ AfterTree GITHUB_CONFIG token latest treeReply rest
                     (fst (publish GITHUB_CONFIG lib remote params w))).
Proof.
  destruct (publish GITHUB_CONFIG lib remote params w) as [r s] eqn:Hrun.
  cbn [fst snd]. unfold publish, pushMusic in Hrun.
  unfold bind at 1, call at 1 in Hrun. cbn [world trace] in Hrun.
  destruct (getAuthToken remote w) as [[e|token] w1].
  { injection Hrun as <- <-. left. query_trace. repeat split; eauto. }
  unfold bind at 1, toastInfo at 1, emit at 1 in Hrun.
  unfold bind at 1, call at 1 in Hrun. cbn [world trace] in Hrun.
  destruct (getRef remote token (OWNER GITHUB_CONFIG) (REPO GITHUB_CONFIG)
                   ("heads/" ++ BRANCH GITHUB_CONFIG)%string w1) as [[e|latest] w2].
  { injection Hrun as <- <-. left. query_trace. repeat split; eauto. }
  unfold bind at 1, toastInfo at 1, emit at 1 in Hrun.
  unfold bind at 1 in Hrun. cbn [world trace] in Hrun.
  match type of Hrun with
  | context [uploadAll _ _ _ _ _ ?st0 ?s0] =>
      pose proof (uploadAll_run token params s0) as Hup;
        destruct (uploadAll GITHUB_CONFIG lib remote token (musicFileItems params) st0 s0)
        as [[e|st] s3]
  end; cbn [trace] in Hup.
  { injection Hrun as <- <-. left. destruct Hup as (evs & -> & Hevs & Hreads).
    query_trace. rewrite Hevs, Hreads. repeat split; eauto. }
  destruct Hup as (shas & Hlen & Htr & Hitems & Hlist).
  unfold bind at 1, toastInfo at 1, emit at 1 in Hrun.
  unfold bind at 1, call at 1 in Hrun. cbn [world trace] in Hrun.
  destruct (readTextFileFromRepo remote token (OWNER GITHUB_CONFIG) (REPO GITHUB_CONFIG)
                                 manifestPath (BRANCH GITHUB_CONFIG) (world s3))
    as [[e|previous] w4].
  { injection Hrun as <- <-. left. cbn [trace]. rewrite Htr. query_trace.
    repeat split; eauto.
    intros p [H|[]]. discriminate. }
  unfold bind at 1 in Hrun. rewrite scanStale_run in Hrun.
  unfold bind at 1, awaitCreateBlob at 1, call at 1 in Hrun. cbn [world trace] in Hrun.
  rewrite Hlist, Hitems, Htr in Hrun.
  destruct (createBlob remote token (OWNER GITHUB_CONFIG) (REPO GITHUB_CONFIG)
                       (toBase64Utf8 lib (Json.stringifyList Json.tab (postRemap lib params)))
                       "base64" w4) as [[e|manifestSha] w5].
  { injection Hrun as <- <-. right. left. exists token, latest, shas, previous, e.
    repeat split; try assumption.
    cbn [trace]. unfold traceToScan, manifestBlobEvent, manifestContent.
    rewrite <- !app_assoc. reflexivity. }
  unfold bind at 1, toastInfo at 1, emit at 1 in Hrun.
  unfold bind at 1, call at 1 in Hrun. cbn [world trace] in Hrun.
  right. right. exists token, latest, shas, previous, manifestSha.
  match type of Hrun with
  | context [createTree remote ?a ?b ?c ?d ?e ?f] =>
      destruct (createTree remote a b c d e f) as [[e1|treeSha] w6]
  end.
  { injection Hrun as <- <-. exists (inl e1), []. split; [assumption|]. split; [|constructor].
    cbn [trace].
    unfold traceToTree, traceToScan, manifestBlobEvent, treeEntries, manifestContent,
      manifestItem.
    rewrite <- !app_assoc. reflexivity. }
  unfold bind at 1, toastInfo at 1, emit at 1 in Hrun.
  unfold bind at 1, call at 1 in Hrun. cbn [world trace] in Hrun.
  exists (inr treeSha).
  match type of Hrun with
  | context [createCommit remote ?a ?b ?c ?d ?e ?f ?g] =>
      destruct (createCommit remote a b c d e f g) as [[e1|commitSha] w7]
  end.
  { injection Hrun as <- <-. eexists. split; [assumption|]. split; [|apply CommitFailed].
    cbn [trace].
    unfold traceToTree, traceToScan, manifestBlobEvent, treeEntries, manifestContent,
      manifestItem.
    rewrite <- !app_assoc. reflexivity. }
  unfold bind at 1, toastInfo at 1, emit at 1 in Hrun.
  unfold bind at 1, call at 1 in Hrun. cbn [world trace] in Hrun.
  match type of Hrun with
  | context [updateRef remote ?a ?b ?c ?d ?e ?f] =>
      destruct (updateRef remote a b c d e f) as [[e1|[]] w8]
  end.
  { injection Hrun as <- <-. eexists. split; [assumption|]. split; [|apply RefUpdateFailed].
    cbn [trace].
    unfold traceToTree, traceToScan, manifestBlobEvent, treeEntries, manifestContent,
      manifestItem.
    rewrite <- !app_assoc. reflexivity. }
  unfold emit in Hrun. cbn [world trace] in Hrun.
  injection Hrun as <- <-. eexists. split; [assumption|]. split; [|apply Published].
  cbn [trace].
  unfold traceToTree, traceToScan, manifestBlobEvent, treeEntries, manifestContent,
    manifestItem.
  rewrite <- !app_assoc. reflexivity.
Qed.

(** ** What a trace that reaches the scan or the tree request contains *)

Lemma traceToScan_queries (params : PushMusicParams) (token latest : string)
    (shas : list string) (previous : option string) :
  length shas = length (plan lib params) ->
  treeRequests (traceToScan GITHUB_CONFIG lib (Err := Err) params token latest shas previous)
  = []
  /\ manifestReads (traceToScan GITHUB_CONFIG lib (Err := Err) params token latest shas
                                previous)
     = [inr previous]
  /\ blobRequests (traceToScan GITHUB_CONFIG lib (Err := Err) params token latest shas
                               previous)
     = map (fun u => fileToBase64NoPrefix lib (fst u)) (plan lib params).
Proof.
  intros H. unfold traceToScan. query_trace. rewrite (blobRequests_blobEvents _ _ _ H).
  rewrite app_nil_r. auto.
Qed.

Lemma traceToTree_queries (params : PushMusicParams) (token latest : string)
    (shas : list string) (previous : option string) (manifestSha : string)
    (treeReply : Err + string) :
  length shas = length (plan lib params) ->
  treeRequests (traceToTree GITHUB_CONFIG lib params token latest shas previous manifestSha
                            treeReply)
  = [treeEntries lib params shas previous manifestSha]
  /\ manifestReads (traceToTree GITHUB_CONFIG lib params token latest shas previous
                                manifestSha treeReply)
     = [inr previous]
  /\ blobRequests (traceToTree GITHUB_CONFIG lib params token latest shas previous
                               manifestSha treeReply)
     = map (fun u => fileToBase64NoPrefix lib (fst u)) (plan lib params)
       ++ [manifestContent lib params].
Proof.
  intros H. destruct (traceToScan_queries params token latest shas previous H) as (Ht & Hr & Hb).
  unfold traceToTree, manifestBlobEvent.
  rewrite treeRequests_app, manifestReads_app, blobRequests_app, Ht, Hr, Hb.
  cbn. auto.
Qed.

Lemma AfterTree_quiet (token latest : string) (treeReply : Err + string)
    (rest : list (Event Err)) (r : Err + unit) :
  AfterTree GITHUB_CONFIG token latest treeReply rest r ->
  treeRequests rest = [] /\ blobRequests rest = [] /\ manifestReads rest = [].
Proof. intros H. destruct H; cbn; auto. Qed.

(** The full account of a publish whose trace holds a tree request. *)
Lemma tree_request_inv (params : PushMusicParams) (w : W) (items : list TreeItem) :
  In items (treeRequests (trace (snd (publish GITHUB_CONFIG lib remote params w)))) ->
  exists token latest shas previous manifestSha treeReply rest,
    length shas = length (plan lib params)
    /\ trace (snd (publish GITHUB_CONFIG lib remote params w))
       = traceToTree GITHUB_CONFIG lib params token latest shas previous manifestSha
                     treeReply ++ rest
    /\ AfterTree GITHUB_CONFIG token latest treeReply rest
                 (fst (publish GITHUB_CONFIG lib remote params w))
    /\ items = treeEntries lib params shas previous manifestSha.
Proof.
  intros Hin. destruct (publish_cases params w) as [(Hnone & _)|[H|H]].
  - rewrite Hnone in Hin. destruct Hin.
  - destruct H as (token & latest & shas & previous & e & Hlen & Htr & _).
    rewrite Htr, treeRequests_app in Hin.
    destruct (traceToScan_queries params token latest shas previous Hlen) as (Hq & _).
    rewrite Hq in Hin. destruct Hin.
  - destruct H as (token & latest & shas & previous & manifestSha & treeReply & rest
                   & Hlen & Htr & Hafter).
    exists token, latest, shas, previous, manifestSha, treeReply, rest.
    repeat split; try assumption.
    rewrite Htr, treeRequests_app in Hin.
    destruct (traceToTree_queries params token latest shas previous manifestSha treeReply Hlen)
      as (Hq & _).
    destruct (AfterTree_quiet _ _ _ _ _ Hafter) as (Hq' & _).
    rewrite Hq, Hq' in Hin. destruct Hin as [<-|[]]. reflexivity.
Qed.

(** A publish that returns normally ran to the end. *)
Lemma publish_ok_inv (params : PushMusicParams) (w : W) :
  fst (publish GITHUB_CONFIG lib remote params w) = inr tt ->
  exists token latest shas previous manifestSha treeSha commitSha,
    length shas = length (plan lib params)
    /\ trace (snd (publish GITHUB_CONFIG lib remote params w))
       = traceToTree GITHUB_CONFIG lib params token latest shas previous manifestSha
                     (inr treeSha)
         ++ [EvToast ToastInfo msgCreatingCommit;
             EvCreateCommit token (OWNER GITHUB_CONFIG) (REPO GITHUB_CONFIG) commitText
                            treeSha [latest] (inr commitSha);
             EvToast ToastInfo msgUpdatingRef;
             EvUpdateRef token (OWNER GITHUB_CONFIG) (REPO GITHUB_CONFIG)
                         ("heads/" ++ BRANCH GITHUB_CONFIG)%string commitSha (inr tt);
             EvToast ToastSuccess msgPublished].
Proof.
  intros Hok. destruct (publish_cases params w) as [(_ & _ & e & He)|[H|H]].
  - rewrite Hok in He. discriminate.
  - destruct H as (token & latest & shas & previous & e & _ & _ & He).
    rewrite Hok in He. discriminate.
  - destruct H as (token & latest & shas & previous & manifestSha & treeReply & rest
                   & Hlen & Htr & Hafter).
    rewrite Hok in Hafter. inversion Hafter; subst.
    exists token, latest, shas, previous, manifestSha, treeSha, commitSha. auto.
Qed.

(** A publish that read the previous manifest went on to request the
    manifest blob. *)
Lemma manifest_read_inv (params : PushMusicParams) (w : W) (previous : option string) :
  In (inr previous)
     (manifestReads (trace (snd (publish GITHUB_CONFIG lib remote params w)))) ->
  exists token latest shas reply rest,
    length shas = length (plan lib params)
    /\ trace (snd (publish GITHUB_CONFIG lib remote params w))
       = traceToScan GITHUB_CONFIG lib params token latest shas previous
         ++ manifestBlobEvent GITHUB_CONFIG lib params token reply :: rest.
Proof.
  intros Hin. destruct (publish_cases params w) as [(_ & Hnone & _)|[H|H]].
  - destruct (Hnone _ Hin).
  - destruct H as (token & latest & shas & previous' & e & Hlen & Htr & _).
    rewrite Htr, manifestReads_app in Hin.
    destruct (traceToScan_queries params token latest shas previous' Hlen) as (_ & Hq & _).
    rewrite Hq in Hin. cbn in Hin. destruct Hin as [Heq|[]]. injection Heq as ->.
    exists token, latest, shas, (inl e), []. auto.
  - destruct H as (token & latest & shas & previous' & manifestSha & treeReply & rest
                   & Hlen & Htr & Hafter).
    rewrite Htr, manifestReads_app in Hin.
    destruct (traceToTree_queries params token latest shas previous' manifestSha treeReply Hlen)
      as (_ & Hq & _).
    destruct (AfterTree_quiet _ _ _ _ _ Hafter) as (_ & _ & Hq').
    rewrite Hq, Hq' in Hin. cbn in Hin. destruct Hin as [Heq|[]]. injection Heq as ->.
    exists token, latest, shas, (inr manifestSha). eexists. split; [assumption|].
    rewrite Htr. unfold traceToTree. rewrite <- app_assoc. reflexivity.
Qed.

(** ** Errors abort the publish *)

Lemma clean_nil : clean (Err := Err) [].
Proof. intros ev []. Qed.

Lemma clean_app (a b : list (Event Err)) : clean a -> clean b -> clean (a ++ b).
Proof. intros Ha Hb ev H. apply in_app_iff in H as [H|H]; auto. Qed.

Lemma clean_one (ev : Event Err) : failure ev = None -> clean [ev].
Proof. intros H x [<-|[]]. exact H. Qed.

Lemma disciplined_ret (A : Type) (a : A) : Disciplined (ret (W := W) (Err := Err) a).
Proof. intros s. exists []. cbn. rewrite app_nil_r. split; [reflexivity | apply clean_nil]. Qed.

Lemma disciplined_bind (A B : Type) (m : M W Err A) (k : A -> M W Err B) :
  Disciplined m -> (forall a, Disciplined (k a)) -> Disciplined (bind m k).
Proof.
  intros Hm Hk s. unfold bind. destruct (Hm s) as (evs & Ht & Hr).
  destruct (m s) as [[e|a] s1]; cbn [fst snd] in *.
  - exists evs. auto.
  - destruct (Hk a s1) as (evs2 & Ht2 & Hr2). exists (evs ++ evs2).
    rewrite Ht2, Ht, app_assoc. split; [reflexivity|].
    destruct (fst (k a s1)).
    + destruct Hr2 as (pre & ev & -> & Hpre & Hev). exists (evs ++ pre), ev.
      rewrite app_assoc. auto using clean_app.
    + now apply clean_app.
Qed.

Lemma disciplined_call (A : Type) (op : W -> (Err + A) * W) (ev : Err + A -> Event Err) :
  (forall e, failure (ev (inl e)) = Some e) ->
  (forall a, failure (ev (inr a)) = None) ->
  Disciplined (call op ev).
Proof.
  intros Hl Hr s. unfold call. destruct (op (world s)) as [[e|a] w']; cbn [fst snd trace].
  - exists [ev (inl e)]. split; [reflexivity|]. exists [], (ev (inl e)). auto using clean_nil.
  - exists [ev (inr a)]. auto using clean_one.
Qed.

Lemma disciplined_emit (ev : Event Err) :
  failure ev = None -> Disciplined (emit (W := W) ev).
Proof. intros H s. exists [ev]. cbn. auto using clean_one. Qed.

Lemma disciplined_forEach (S A : Type) (body : S -> A -> M W Err S) (l : list A) :
  (forall st x, Disciplined (body st x)) -> forall st, Disciplined (forEach body l st).
Proof.
  intros Hb. induction l as [|x l IH]; intros st; cbn [forEach].
  - apply disciplined_ret.
  - apply disciplined_bind; auto.
Qed.

Lemma disciplined_createBlob (token content encoding : string) :
  Disciplined (awaitCreateBlob GITHUB_CONFIG remote token content encoding).
Proof. apply disciplined_call; reflexivity. Qed.

Lemma disciplined_uploadOne (token : string) (st : UploadState)
    (entry : string * MusicFileItem) :
  Disciplined (uploadOne GITHUB_CONFIG lib remote token st entry).
Proof.
  destruct entry as [key item]. unfold uploadOne.
  destruct (file item) as [f|]; [|apply disciplined_ret].
  apply disciplined_bind; [|intros; apply disciplined_ret].
  destruct (negb _); [|apply disciplined_ret].
  apply disciplined_bind; [apply disciplined_createBlob | intros; apply disciplined_ret].
Qed.

Lemma disciplined_uploadAll (token : string) (items : option (list (string * MusicFileItem)))
    (st : UploadState) :
  Disciplined (uploadAll GITHUB_CONFIG lib remote token items st).
Proof.
  unfold uploadAll. destruct items as [[|entry entries]|]; try apply disciplined_ret.
  apply disciplined_bind; [now apply disciplined_emit|].
  intros _. apply disciplined_forEach. apply disciplined_uploadOne.
Qed.

Lemma disciplined_scanStale (previous : option string) (updated : list MusicItem)
    (items : list TreeItem) :
  Disciplined (scanStale (W := W) (Err := Err) lib previous updated items).
Proof.
  unfold scanStale. destruct (truthy previous) as [text|]; [|apply disciplined_ret].
  destruct (tryStale lib text updated); [apply disciplined_ret|].
  apply disciplined_bind; [now apply disciplined_emit | intros; apply disciplined_ret].
Qed.

Lemma disciplined_pushMusic (params : PushMusicParams) :
  Disciplined (pushMusic GITHUB_CONFIG lib remote params).
Proof.
  unfold pushMusic, toastInfo.
  repeat first
    [ apply disciplined_bind; [|intros ?]
    | apply disciplined_call; reflexivity
    | apply disciplined_emit; reflexivity
    | apply disciplined_uploadAll
    | apply disciplined_scanStale
    | apply disciplined_createBlob ].
Qed.

Lemma failed_is_last (pre pre' post : list (Event Err)) (ev ev' : Event Err) :
  pre ++ ev :: post = pre' ++ [ev'] -> In ev pre' \/ (post = [] /\ ev = ev').
Proof.
  revert pre'. induction pre as [|x pre IH]; intros [|y pre'] H; cbn in H.
  - injection H as -> <-. now right.
  - injection H as -> _. left. now left.
  - injection H as _ H. now destruct pre.
  - injection H as _ H. destruct (IH _ H) as [Hin|Hlast]; [left; now right | now right].
Qed.

(** ** Entries of the tree request *)

Lemma collectPrevious_owned (elements : list JValue) :
  forall (acc previousUrls : StrSet.t),
    collectPrevious elements acc = Some previousUrls ->
    forall u, In u previousUrls -> In u acc \/ owned u = true.
Proof.
  induction elements as [|music rest IH]; intros acc previousUrls H u Hu; cbn in H.
  - injection H as <-. now left.
  - unfold Json.urlStartsWith in H. destruct (Json.urlOf music) as [v|]; [|discriminate].
    destruct (Js.startsWith v "/music/") eqn:Hv.
    + destruct (IH _ _ H u Hu) as [Hin|Ho]; [|now right].
      apply add_In in Hin as [->|Hin]; [right; exact Hv | now left].
    + exact (IH _ _ H u Hu).
Qed.

(** Every entry the scan appends deletes the path of an owned url. *)
Lemma staleOf_In (previous : option string) (updated : list MusicItem) (it : TreeItem) :
  In it (staleOf lib previous updated) ->
  exists u, it = deleteItem u /\ owned u = true /\ ~ In u (map url updated).
Proof.
  unfold staleOf. destruct (truthy previous) as [text|]; [|intros []].
  unfold tryStale. destruct (parse lib text) as [v|]; [|intros []].
  destruct (Json.iterate v) as [els|]; [|intros []].
  destruct (collectPrevious els StrSet.empty) as [previousUrls|] eqn:Hc; [|intros []].
  intros H. apply staleItems_In in H as (u & -> & Hu & Hnot).
  destruct (collectPrevious_owned els _ _ Hc u Hu) as [[]|Ho].
  exists u. repeat split; try assumption.
  intros Hin. apply Hnot. apply collectCurrent_In. auto.
Qed.

Lemma addItems_In (uploads : list (File.t * string)) (shas : list string) (it : TreeItem) :
  In it (addItems uploads shas) <->
  exists u blobSha, In (u, blobSha) (combine uploads shas) /\ it = addItem u blobSha.
Proof.
  unfold addItems. rewrite in_map_iff. split.
  - intros ([u blobSha] & <- & H). eauto.
  - intros (u & blobSha & H & ->). exists (u, blobSha). auto.
Qed.

(** The manifest entry is the only entry of a tree request at the manifest
    path, and the delete entries are those of the scan. *)
Lemma treeEntries_In (params : PushMusicParams) (shas : list string)
    (previous : option string) (manifestSha : string) (it : TreeItem) :
  In it (treeEntries lib params shas previous manifestSha) ->
  (path it = manifestPath -> it = manifestItem manifestSha)
  /\ (sha it = None -> In it (staleOf lib previous (postRemap lib params))).
Proof.
  unfold treeEntries. rewrite !in_app_iff. intros [H|[H|[<-|[]]]].
  - apply addItems_In in H as (u & blobSha & _ & ->). split; discriminate.
  - split; [|auto]. apply staleOf_In in H as (u & -> & _). discriminate.
  - split; [reflexivity | discriminate].
Qed.

Lemma combine_In_fst (A B : Type) (l : list A) :
  forall (l' : list B) (a : A),
    length l' = length l -> In a l -> exists b, In (a, b) (combine l l').
Proof.
  induction l as [|x l IH]; intros [|y l'] a Hlen Hin; try discriminate; [destruct Hin|].
  destruct Hin as [->|Hin].
  - exists y. now left.
  - destruct (IH l' a) as (b & Hb); [now injection Hlen | assumption|].
    exists b. now right.
Qed.

Local Abbreviation run params w := (publish GITHUB_CONFIG lib remote params w).

(** C8.  Whenever a call recorded in the trace of a publish failed -- the
    auth token, the ref lookup, a blob creation, the read of the previous
    manifest, the tree, the commit or the ref update -- that call is the
    last event of the trace, so nothing ran after it and nothing was
    retried, and the publish throws that very error. *)
Theorem publish_error_aborts (params : PushMusicParams) (w : W)
    (pre post : list (Event Err)) (ev : Event Err) (e : Err) :
  trace (snd (run params w)) = pre ++ ev :: post ->
  failure ev = Some e ->
  post = [] /\ fst (run params w) = inl e.
Proof.
  intros Htr Hev.
  destruct (disciplined_pushMusic params {| world := w; trace := [] |}) as (evs & Ht & Hr).
  change (pushMusic GITHUB_CONFIG lib remote params {| world := w; trace := [] |})
    with (run params w) in *.
  cbn [trace app] in Ht. rewrite Ht in Htr.
  destruct (fst (run params w)) as [e'|[]].
  - destruct Hr as (pre' & ev' & -> & Hclean & Hfail).
    symmetry in Htr. destruct (failed_is_last _ _ _ _ _ Htr) as [Hin|[-> ->]].
    + rewrite (Hclean _ Hin) in Hev. discriminate.
    + split; [reflexivity|]. congruence.
  - assert (In ev evs) as Hin by (rewrite Htr; apply in_elt).
    rewrite (Hr _ Hin) in Hev. discriminate.
Qed.

(** C6.  A publish makes exactly one tree request, unless an earlier step
    threw, in which case it makes none; a publish that returns normally has
    made exactly one.  The entry list of that request is the add entries of
    the fresh uploads (each pointing at the blob the remote created for its
    file), then the delete entries of the scan, then one entry at the
    manifest path pointing at a blob created from the tab-indented JSON of
    the post-remap list; no other entry sits at the manifest path. *)
Theorem single_tree_request (params : PushMusicParams) (w : W) :
  ((exists items, treeRequests (trace (snd (run params w))) = [items])
   \/ (treeRequests (trace (snd (run params w))) = []
       /\ exists e, fst (run params w) = inl e))
  /\ (fst (run params w) = inr tt ->
      length (treeRequests (trace (snd (run params w)))) = 1)
  /\ forall items,
       In items (treeRequests (trace (snd (run params w)))) ->
       exists token shas previous manifestSha,
         treeRequests (trace (snd (run params w))) = [items]
         /\ items = addItems (plan lib params) shas
                    ++ staleOf lib previous (postRemap lib params)
                    ++ [manifestItem manifestSha]
         /\ length shas = length (plan lib params)
         /\ (forall u blobSha,
               In (u, blobSha) (combine (plan lib params) shas) ->
               In (EvCreateBlob token (OWNER GITHUB_CONFIG) (REPO GITHUB_CONFIG)
                                (fileToBase64NoPrefix lib (fst u)) "base64" (inr blobSha))
                  (trace (snd (run params w))))
         /\ manifestReads (trace (snd (run params w))) = [inr previous]
         /\ In (EvCreateBlob token (OWNER GITHUB_CONFIG) (REPO GITHUB_CONFIG)
                             (toBase64Utf8 lib
                                (Json.stringifyList Json.tab (postRemap lib params)))
                             "base64" (inr manifestSha))
               (trace (snd (run params w)))
         /\ (forall it, In it items -> path it = manifestPath -> it = manifestItem manifestSha).
Proof.
  assert (forall items,
             In items (treeRequests (trace (snd (run params w)))) ->
             exists token latest shas previous manifestSha treeReply rest,
               length shas = length (plan lib params)
               /\ trace (snd (run params w))
                  = traceToTree GITHUB_CONFIG lib params token latest shas previous
                                manifestSha treeReply ++ rest
               /\ treeRequests (trace (snd (run params w))) = [items]
               /\ manifestReads (trace (snd (run params w))) = [inr previous]
               /\ items = treeEntries lib params shas previous manifestSha) as Hinv.
  { intros items Hin.
    destruct (tree_request_inv params w items Hin)
      as (token & latest & shas & previous & manifestSha & treeReply & rest
          & Hlen & Htr & Hafter & ->).
    exists token, latest, shas, previous, manifestSha, treeReply, rest.
    destruct (traceToTree_queries params token latest shas previous manifestSha treeReply Hlen)
      as (Hq & Hr & _).
    destruct (AfterTree_quiet _ _ _ _ _ Hafter) as (Hq' & _ & Hr').
    rewrite Htr, treeRequests_app, manifestReads_app, Hq, Hq', Hr, Hr'. auto. }
  split; [|split].
  - destruct (publish_cases params w) as [(Hnone & _ & He)|[H|H]].
    + right. auto.
    + destruct H as (token & latest & shas & previous & e & Hlen & Htr & He).
      right. split; [|eauto].
      destruct (traceToScan_queries params token latest shas previous Hlen) as (Hq & _).
      rewrite Htr, treeRequests_app, Hq. reflexivity.
    + destruct H as (token & latest & shas & previous & manifestSha & treeReply & rest
                     & Hlen & Htr & Hafter).
      left. exists (treeEntries lib params shas previous manifestSha).
      destruct (traceToTree_queries params token latest shas previous manifestSha treeReply
                                    Hlen) as (Hq & _).
      destruct (AfterTree_quiet _ _ _ _ _ Hafter) as (Hq' & _).
      rewrite Htr, treeRequests_app, Hq, Hq'. reflexivity.
  - intros Hok.
    destruct (publish_ok_inv params w Hok)
      as (token & latest & shas & previous & manifestSha & treeSha & commitSha & Hlen & Htr).
    destruct (traceToTree_queries params token latest shas previous manifestSha
                                  (inr treeSha) Hlen) as (Hq & _).
    rewrite Htr, treeRequests_app, Hq. reflexivity.
  - intros items Hin.
    destruct (Hinv items Hin)
      as (token & latest & shas & previous & manifestSha & treeReply & rest
          & Hlen & Htr & Hone & Hread & ->).
    exists token, shas, previous, manifestSha.
    repeat split; try assumption.
    + intros u blobSha Hu. rewrite Htr. unfold traceToTree, traceToScan.
      rewrite !in_app_iff. left. left. right. right. left.
      unfold blobEvents. apply in_map_iff. exists (u, blobSha). auto.
    + rewrite Htr. unfold traceToTree. rewrite !in_app_iff. left. right. now left.
    + intros it Hit. apply (treeEntries_In _ _ _ _ _ Hit).
Qed.

Lemma no_pending_plan (params : PushMusicParams) :
  musicFileItems params = None \/ musicFileItems params = Some [] ->
  plan lib params = [] /\ postRemap lib params = musicList params.
Proof.
  unfold plan, postRemap, pendingEntries. intros [-> | ->]; split; reflexivity.
Qed.

(** C7.  With no pending uploads (the map absent or empty) the post-remap
    list is the input list itself; the manifest entry of the tree request
    points at a blob created from the tab-indented JSON of the input list,
    the request adds nothing else, and a publish that returns normally has
    created that one blob only.  That JSON text is the text of no other
    list: it fixes every name, every url and their order. *)
Theorem publish_without_uploads (params : PushMusicParams) (w : W) :
  musicFileItems params = None \/ musicFileItems params = Some [] ->
  postRemap lib params = musicList params
  /\ (forall items,
        In items (treeRequests (trace (snd (run params w)))) ->
        exists token manifestSha,
          In (EvCreateBlob token (OWNER GITHUB_CONFIG) (REPO GITHUB_CONFIG)
                           (toBase64Utf8 lib
                              (Json.stringifyList Json.tab (musicList params)))
                           "base64" (inr manifestSha))
             (trace (snd (run params w)))
          /\ In (manifestItem manifestSha) items
          /\ (forall it, In it items -> sha it <> None -> it = manifestItem manifestSha))
  /\ (fst (run params w) = inr tt ->
      blobRequests (trace (snd (run params w)))
      = [toBase64Utf8 lib (Json.stringifyList Json.tab (musicList params))]
      /\ length (treeRequests (trace (snd (run params w)))) = 1)
  /\ (forall l,
        Json.stringifyList Json.tab l = Json.stringifyList Json.tab (musicList params) ->
        l = musicList params).
Proof.
  intros Hnone. destruct (no_pending_plan params Hnone) as (Hplan & Hlist).
  split; [exact Hlist|]. split; [|split; [|intros l; apply stringifyList_inj]].
  - intros items Hin.
    destruct (tree_request_inv params w items Hin)
      as (token & latest & shas & previous & manifestSha & treeReply & rest
          & Hlen & Htr & Hafter & ->).
    exists token, manifestSha. rewrite Htr. split; [|split].
    + unfold traceToTree, manifestBlobEvent, manifestContent. rewrite Hlist.
      rewrite !in_app_iff. left. right. now left.
    + unfold treeEntries. rewrite !in_app_iff. right. right. now left.
    + intros it Hit Hsha. unfold treeEntries in Hit. rewrite Hplan in Hit.
      cbn [addItems combine map app] in Hit. apply in_app_iff in Hit as [Hit|[<-|[]]].
      * apply staleOf_In in Hit as (u & -> & _). now destruct Hsha.
      * reflexivity.
  - intros Hok.
    destruct (publish_ok_inv params w Hok)
      as (token & latest & shas & previous & manifestSha & treeSha & commitSha & Hlen & Htr).
    destruct (traceToTree_queries params token latest shas previous manifestSha
                                  (inr treeSha) Hlen) as (Hq & _ & Hb).
    rewrite Htr, treeRequests_app, blobRequests_app, Hq, Hb, Hplan.
    unfold manifestContent. rewrite Hlist. split; reflexivity.
Qed.

(** C4.  When the previous manifest is absent, or its text does not parse
    ([JSON.parse] throws, or the [try] block throws on the parsed value),
    the tree request carries no delete entry and the publish goes on: the
    manifest blob is requested next, the publish throws only the error of a
    failed remote call, and when every remote call succeeds it returns
    normally after the tree request, the commit and the ref update. *)
Theorem unparsable_manifest_degrades (params : PushMusicParams) (w : W)
    (previous : option string) :
  In (inr previous) (manifestReads (trace (snd (run params w)))) ->
  previous = None \/ (exists text, previous = Some text /\ ~ readable lib text) ->
  (forall items,
      In items (treeRequests (trace (snd (run params w)))) -> filter isDelete items = [])
  /\ In (manifestContent lib params) (blobRequests (trace (snd (run params w))))
  /\ (forall e,
        fst (run params w) = inl e ->
        exists pre ev, trace (snd (run params w)) = pre ++ [ev] /\ failure ev = Some e)
  /\ (clean (trace (snd (run params w))) ->
      fst (run params w) = inr tt
      /\ exists token latest items treeSha commitSha,
           treeRequests (trace (snd (run params w))) = [items]
           /\ In (EvCreateTree token (OWNER GITHUB_CONFIG) (REPO GITHUB_CONFIG) items latest
                               (inr treeSha))
                 (trace (snd (run params w)))
           /\ In (EvCreateCommit token (OWNER GITHUB_CONFIG) (REPO GITHUB_CONFIG) commitText
                                 treeSha [latest] (inr commitSha))
                 (trace (snd (run params w)))
           /\ In (EvUpdateRef token (OWNER GITHUB_CONFIG) (REPO GITHUB_CONFIG)
                              ("heads/" ++ BRANCH GITHUB_CONFIG)%string commitSha (inr tt))
                 (trace (snd (run params w)))).
Proof.
  intros Hread Hbad.
  assert (forall updated, staleOf lib previous updated = []) as Hstale.
  { intros updated. unfold staleOf. destruct Hbad as [->|(text & -> & Hparse)]; [reflexivity|].
    destruct (truthy (Some text)) as [text'|] eqn:Ht; [|reflexivity].
    assert (text' = text) as -> by (destruct text; cbn in Ht; congruence).
    now rewrite (tryStale_unreadable lib text updated Hparse). }
  assert (forall e,
             fst (run params w) = inl e ->
             exists pre ev, trace (snd (run params w)) = pre ++ [ev] /\ failure ev = Some e)
    as Hfail.
  { intros e He.
    destruct (disciplined_pushMusic params {| world := w; trace := [] |}) as (evs & Ht & Hr).
    change (pushMusic GITHUB_CONFIG lib remote params {| world := w; trace := [] |})
      with (run params w) in *.
    rewrite He in Hr. destruct Hr as (pre & ev & -> & _ & Hev).
    exists pre, ev. split; [exact Ht | exact Hev]. }
  split; [|split; [|split]].
  - intros items Hin.
    destruct (tree_request_inv params w items Hin)
      as (token & latest & shas & previous' & manifestSha & treeReply & rest
          & Hlen & Htr & Hafter & ->).
    rewrite Htr, manifestReads_app in Hread.
    destruct (traceToTree_queries params token latest shas previous' manifestSha treeReply
                                  Hlen) as (_ & Hq & _).
    destruct (AfterTree_quiet _ _ _ _ _ Hafter) as (_ & _ & Hq').
    rewrite Hq, Hq' in Hread. destruct Hread as [Heq|[]]. injection Heq as ->.
    rewrite treeEntries_deletes. apply Hstale.
  - destruct (manifest_read_inv params w previous Hread)
      as (token & latest & shas & reply & rest & Hlen & Htr).
    rewrite Htr, blobRequests_app. apply in_or_app. right. now left.
  - exact Hfail.
  - intros Hclean.
    assert (fst (run params w) = inr tt) as Hok.
    { destruct (fst (run params w)) as [e|[]] eqn:He; [|reflexivity].
      destruct (Hfail e eq_refl) as (pre & ev & Htr & Hev).
      rewrite (Hclean ev) in Hev; [discriminate|]. rewrite Htr. apply in_elt. }
    split; [exact Hok|].
    destruct (publish_ok_inv params w Hok)
      as (token & latest & shas & previous' & manifestSha & treeSha & commitSha & Hlen & Htr).
    exists token, latest, (treeEntries lib params shas previous' manifestSha), treeSha,
      commitSha.
    destruct (traceToTree_queries params token latest shas previous' manifestSha
                                  (inr treeSha) Hlen) as (Hq & _).
    rewrite Htr, treeRequests_app, Hq. split; [reflexivity|].
    unfold traceToTree. rewrite !in_app_iff. cbn [In]. repeat split; auto 10.
Qed.

(** ** Which paths the scan deletes *)

Lemma NoDup_map_on (A B : Type) (f : A -> B) (l : list A) :
  (forall x y, In x l -> In y l -> f x = f y -> x = y) -> NoDup l -> NoDup (map f l).
Proof.
  intros Hinj H. induction H as [|x l Hx Hl IH]; cbn; constructor.
  - intros Hin. apply in_map_iff in Hin as (y & Hy & Hin).
    apply Hx. rewrite (Hinj x y); auto; [now left | now right].
  - apply IH. intros a b Ha Hb. apply Hinj; now right.
Qed.

Lemma NoDup_filter_keep (A : Type) (f : A -> bool) (l : list A) :
  NoDup l -> NoDup (filter f l).
Proof.
  intros H. induction H as [|x l Hx Hl IH]; cbn; [constructor|].
  destruct (f x); [|assumption]. constructor; [|assumption].
  intros Hin. apply filter_In in Hin as [Hin _]. contradiction.
Qed.

Lemma deleteItem_path_inj (u u' : string) :
  owned u = true -> owned u' = true ->
  path (deleteItem u) = path (deleteItem u') -> u = u'.
Proof.
  intros Hu Hu' H.
  destruct (deleteItem_owned u Hu) as (E & _). destruct (deleteItem_owned u' Hu') as (E' & _).
  rewrite E, E' in H. cbn in H. now injection H.
Qed.

(** The scan on a publish that read the text [text], parsed to a value whose
    elements carry the urls [urls]. *)
Lemma parsed_manifest_deletes (params : PushMusicParams) (w : W) (text : string)
    (v : JValue) (urls : list string) (items : list TreeItem) :
  parse lib EmptyString = None ->
  In (inr (Some text)) (manifestReads (trace (snd (run params w)))) ->
  parse lib text = Some v ->
  Json.readUrls v = Some urls ->
  In items (treeRequests (trace (snd (run params w)))) ->
  filter isDelete items
  = staleItems (collectOwned urls StrSet.empty) (collectCurrent (postRemap lib params)).
Proof.
  intros Hempty Hread Hparse Hurls Hin.
  destruct (tree_request_inv params w items Hin)
    as (token & latest & shas & previous & manifestSha & treeReply & rest
        & Hlen & Htr & Hafter & ->).
  rewrite Htr, manifestReads_app in Hread.
  destruct (traceToTree_queries params token latest shas previous manifestSha treeReply Hlen)
    as (_ & Hq & _).
  destruct (AfterTree_quiet _ _ _ _ _ Hafter) as (_ & _ & Hq').
  rewrite Hq, Hq' in Hread. destruct Hread as [Heq|[]]. injection Heq as ->.
  rewrite treeEntries_deletes. unfold staleOf.
  assert (truthy (Some text) = Some text) as ->.
  { destruct text; [|reflexivity]. rewrite Hempty in Hparse. discriminate. }
  now rewrite (tryStale_parsed lib text v urls (postRemap lib params) Hparse Hurls).
Qed.

(** C1.  On a publish that read a previous manifest that parses -- to a
    value whose elements all carry a string [url], [urls] being those urls
    -- the delete entries of the tree request are exactly the entries
    [sha: null] at [public/music/<filename>] for the owned urls
    [/music/<filename>] among [urls] that the post-remap list does not
    contain, each once; an owned url present in both lists gets none. *)
Theorem stale_owned_paths_deleted (params : PushMusicParams) (w : W) (text : string)
    (v : JValue) (urls : list string) (items : list TreeItem) :
  parse lib EmptyString = None ->
  In (inr (Some text)) (manifestReads (trace (snd (run params w)))) ->
  parse lib text = Some v ->
  Json.readUrls v = Some urls ->
  In items (treeRequests (trace (snd (run params w)))) ->
  NoDup (deletedPaths items)
  /\ (forall u,
        owned u = true ->
        (In ("public/music/" ++ Js.slice 7 u)%string (deletedPaths items)
         <-> In u urls /\ ~ In u (map url (postRemap lib params))))
  /\ (forall it,
        In it items -> sha it = None ->
        exists u,
          owned u = true /\ In u urls
          /\ ~ In u (map url (postRemap lib params))
          /\ it = {| path := ("public/music/" ++ Js.slice 7 u)%string;
                     mode := "100644"; type := "blob"; sha := None |}).
Proof.
  intros Hempty Hread Hparse Hurls Hin.
  pose proof (parsed_manifest_deletes params w text v urls items Hempty Hread Hparse Hurls Hin)
    as Hdel.
  assert (forall it,
             In it (filter isDelete items) <->
             exists u, it = deleteItem u /\ owned u = true /\ In u urls
                       /\ ~ In u (map url (postRemap lib params))) as Hchar.
  { intros it. rewrite Hdel, staleItems_In. split.
    - intros (u & -> & Hu & Hnot). apply collectOwned_In in Hu as [[]|[Ho Hu]].
      exists u. repeat split; try assumption.
      intros Hc. apply Hnot, collectCurrent_In. auto.
    - intros (u & -> & Ho & Hu & Hnot). exists u. split; [reflexivity|].
      split; [apply collectOwned_In; auto|].
      intros Hc. apply collectCurrent_In in Hc as [_ Hc]. contradiction. }
  split; [|split].
  - unfold deletedPaths. rewrite Hdel. unfold staleItems, StrSet.elements.
    rewrite map_map. apply NoDup_map_on.
    + intros x y Hx Hy. apply filter_In in Hx as [Hx _]. apply filter_In in Hy as [Hy _].
      apply collectOwned_In in Hx as [[]|[Hx _]]. apply collectOwned_In in Hy as [[]|[Hy _]].
      now apply deleteItem_path_inj.
    + apply NoDup_filter_keep, collectOwned_NoDup. constructor.
  - intros u Ho. unfold deletedPaths. rewrite in_map_iff. split.
    + intros (it & Hpath & Hit). apply Hchar in Hit as (u' & -> & Ho' & Hu' & Hnot').
      destruct (deleteItem_owned u Ho) as (_ & _ & E).
      rewrite <- E in Hpath. apply deleteItem_path_inj in Hpath; try assumption.
      subst u'. auto.
    + intros [Hu Hnot]. exists (deleteItem u). split.
      * now destruct (deleteItem_owned u Ho) as (_ & _ & E).
      * apply Hchar. eauto.
  - intros it Hit Hsha.
    assert (In it (filter isDelete items)) as Hf.
    { apply filter_In. split; [assumption|]. unfold isDelete. now rewrite Hsha. }
    apply Hchar in Hf as (u & -> & Ho & Hu & Hnot). exists u. repeat split; try assumption.
    destruct (deleteItem_owned u Ho) as (_ & _ & E). unfold deleteItem in *. cbn in E.
    cbn. injection E as E. now rewrite E.
Qed.

(** C5.  Every delete entry of a tree request deletes the path of a url
    under the owned prefix, whatever the previous manifest holds; and when
    the previous manifest parses, [urls] being the urls of its elements,
    the delete entries are those computed from the owned urls among [urls]
    alone: a url outside the prefix yields none, whether the new list
    contains it or not. *)
Theorem external_urls_never_deleted (params : PushMusicParams) (w : W)
    (items : list TreeItem) :
  In items (treeRequests (trace (snd (run params w)))) ->
  (forall it,
      In it items -> sha it = None ->
      exists u, owned u = true /\ it = deleteItem u /\ path it = ("public" ++ u)%string)
  /\ (forall text v urls,
        parse lib EmptyString = None ->
        In (inr (Some text)) (manifestReads (trace (snd (run params w)))) ->
        parse lib text = Some v ->
        Json.readUrls v = Some urls ->
        filter isDelete items
        = staleItems (collectOwned (filter owned urls) StrSet.empty)
                     (collectCurrent (postRemap lib params))
        /\ forall it,
             In it items -> sha it = None ->
             exists u, owned u = true /\ In u urls /\ it = deleteItem u).
Proof.
  intros Hin. split.
  - intros it Hit Hsha.
    destruct (tree_request_inv params w items Hin)
      as (token & latest & shas & previous & manifestSha & treeReply & rest
          & Hlen & Htr & Hafter & ->).
    destruct (treeEntries_In _ _ _ _ _ Hit) as (_ & Hstale).
    destruct (staleOf_In _ _ _ (Hstale Hsha)) as (u & -> & Ho & _).
    exists u. repeat split; try assumption. now destruct (deleteItem_owned u Ho).
  - intros text v urls Hempty Hread Hparse Hurls.
    pose proof (parsed_manifest_deletes params w text v urls items Hempty Hread Hparse Hurls
                                        Hin) as Hdel.
    split; [now rewrite collectOwned_filter|].
    intros it Hit Hsha.
    assert (In it (filter isDelete items)) as Hf.
    { apply filter_In. split; [assumption|]. unfold isDelete. now rewrite Hsha. }
    rewrite Hdel in Hf. apply staleItems_In in Hf as (u & -> & Hu & _).
    apply collectOwned_In in Hu as [[]|[Ho Hu]]. eauto.
Qed.

(** ** Deduplication and remapping *)

Lemma seenAfter_In (entries : list (string * MusicFileItem)) :
  forall (seen : StrSet.t) (h : string),
    In h (seenAfter lib entries seen) <-> In h seen \/ In h (hashesOf lib entries).
Proof.
  induction entries as [|[key item] rest IH]; intros seen h; cbn [seenAfter hashesOf].
  - cbn. tauto.
  - destruct (file item) as [f|]; [|apply IH].
    rewrite IH, add_In. cbn [In]. intuition.
Qed.

Lemma freshUploads_app (a b : list (string * MusicFileItem)) :
  forall seen : StrSet.t,
    freshUploads lib (a ++ b) seen
    = freshUploads lib a seen ++ freshUploads lib b (seenAfter lib a seen).
Proof.
  induction a as [|[key item] a IH]; intros seen; cbn [app freshUploads seenAfter];
    [reflexivity|].
  destruct (file item) as [f|]; [|apply IH].
  destruct (StrSet.has seen (hashOf lib item f)) eqn:Hs.
  - rewrite IH. unfold StrSet.add. now rewrite Hs.
  - cbn [app]. now rewrite IH.
Qed.

(** An upload whose hash is in [uploadedHashes] creates no blob. *)
Lemma freshUploads_seen (key : string) (item : MusicFileItem) (f : File.t)
    (rest : list (string * MusicFileItem)) (seen : StrSet.t) :
  file item = Some f -> In (hashOf lib item f) seen ->
  freshUploads lib ((key, item) :: rest) seen = freshUploads lib rest seen
  /\ seenAfter lib ((key, item) :: rest) seen = seenAfter lib rest seen.
Proof.
  intros Hf Hin. cbn [freshUploads seenAfter]. rewrite Hf.
  apply has_In in Hin. unfold StrSet.add. now rewrite Hin.
Qed.

Lemma freshUploads_hashes (entries : list (string * MusicFileItem)) :
  forall seen : StrSet.t,
    NoDup (map snd (freshUploads lib entries seen))
    /\ forall h, In h (map snd (freshUploads lib entries seen)) <->
                 In h (hashesOf lib entries) /\ ~ In h seen.
Proof.
  induction entries as [|[key item] rest IH]; intros seen; cbn [freshUploads hashesOf].
  - split; [constructor|]. cbn. tauto.
  - destruct (file item) as [f|]; [|apply IH].
    destruct (StrSet.has seen (hashOf lib item f)) eqn:Hs.
    + apply has_In in Hs. destruct (IH seen) as [Hnd Hin]. split; [assumption|].
      intros h. rewrite Hin. cbn [In]. intuition. subst. contradiction.
    + apply has_false in Hs.
      destruct (IH (StrSet.add (hashOf lib item f) seen)) as [Hnd Hin].
      cbn [map snd]. split.
      * constructor; [|assumption]. rewrite Hin, add_In. tauto.
      * intros h. cbn [In]. rewrite Hin, add_In. split.
        -- intros [E|[H1 H2]].
           ++ subst h. split; [now left | exact Hs].
           ++ split; [now right|]. intros H. apply H2. now right.
        -- intros [[E|H1] H2]; [now left|].
           destruct (string_dec h (hashOf lib item f)) as [E|Hne]; [left; now symmetry|].
           right. split; [assumption|]. intros [E|H]; contradiction.
Qed.

(** The entry at which a hash first appears is a fresh upload. *)
Lemma first_occurrence_fresh (pre post : list (string * MusicFileItem)) (key : string)
    (item : MusicFileItem) (f : File.t) :
  file item = Some f ->
  ~ In (hashOf lib item f) (hashesOf lib pre) ->
  In (f, hashOf lib item f) (freshUploads lib (pre ++ (key, item) :: post) StrSet.empty).
Proof.
  intros Hf Hnew. rewrite freshUploads_app. apply in_or_app. right.
  cbn [freshUploads]. rewrite Hf.
  assert (StrSet.has (seenAfter lib pre StrSet.empty) (hashOf lib item f) = false) as ->.
  { apply has_false. rewrite seenAfter_In. intros [[]|H]. contradiction. }
  now left.
Qed.

Lemma remap_map (key publicPath : string) (l : list MusicItem) :
  remap key publicPath l
  = map (fun m => {| name := name m;
                     url := if String.eqb (url m) key then publicPath else url m |}) l.
Proof.
  unfold remap. apply map_ext. intros [n u]. cbn. now destruct (String.eqb u key).
Qed.

Lemma remapAll_map (entries : list (string * MusicFileItem)) :
  forall l : list MusicItem,
    remapAll lib entries l
    = map (fun m => {| name := name m; url := finalUrl lib entries (url m) |}) l.
Proof.
  induction entries as [|[key item] rest IH]; intros l; cbn [remapAll finalUrl].
  - rewrite <- (map_id l) at 1. apply map_ext. now intros [n u].
  - destruct (file item) as [f|]; [|apply IH].
    rewrite IH, remap_map, map_map. reflexivity.
Qed.


Lemma finalUrl_app (a b : list (string * MusicFileItem)) :
  forall u : string, finalUrl lib (a ++ b) u = finalUrl lib b (finalUrl lib a u).
Proof.
  induction a as [|[key item] a IH]; intros u; cbn [app finalUrl]; [reflexivity|].
  destruct (file item); apply IH.
Qed.

(** A url that is no transient key is left alone. *)
Lemma finalUrl_other (entries : list (string * MusicFileItem)) (u : string) :
  ~ In u (map fst entries) -> finalUrl lib entries u = u.
Proof.
  induction entries as [|[key item] rest IH]; intros Hnot; cbn [finalUrl]; [reflexivity|].
  cbn [map fst In] in Hnot.
  assert (String.eqb u key = false) as Hne.
  { apply String.eqb_neq. intros ->. apply Hnot. now left. }
  destruct (file item); rewrite ?Hne; apply IH; tauto.
Qed.

(** A transient key ends at the public path of its upload, when no
    transient key is that path. *)
Lemma finalUrl_key (pre post : list (string * MusicFileItem)) (key : string)
    (item : MusicFileItem) (f : File.t) :
  file item = Some f ->
  NoDup (map fst (pre ++ (key, item) :: post)) ->
  ~ In (publicPathOf lib item f) (map fst (pre ++ (key, item) :: post)) ->
  finalUrl lib (pre ++ (key, item) :: post) key = publicPathOf lib item f.
Proof.
  intros Hf Hnd Hpath. rewrite map_app in Hnd, Hpath. cbn [map fst] in Hnd, Hpath.
  apply NoDup_remove_2 in Hnd. rewrite in_app_iff in Hnd, Hpath. cbn [In] in Hpath.
  rewrite finalUrl_app, (finalUrl_other pre key) by tauto.
  cbn [finalUrl]. rewrite Hf, String.eqb_refl.
  apply finalUrl_other. tauto.
Qed.

(** A planned upload has its add entry in the tree request, pointing at the
    blob the remote created for its file. *)
Lemma fresh_upload_in_tree (params : PushMusicParams) (w : W) (u : File.t * string)
    (items : list TreeItem) :
  In u (plan lib params) ->
  In items (treeRequests (trace (snd (run params w)))) ->
  exists token blobSha,
    In (addItem u blobSha) items
    /\ In (EvCreateBlob token (OWNER GITHUB_CONFIG) (REPO GITHUB_CONFIG)
                        (fileToBase64NoPrefix lib (fst u)) "base64" (inr blobSha))
          (trace (snd (run params w))).
Proof.
  intros Hu Hin.
  destruct (tree_request_inv params w items Hin)
    as (token & latest & shas & previous & manifestSha & treeReply & rest
        & Hlen & Htr & Hafter & ->).
  destruct (combine_In_fst _ _ (plan lib params) shas u Hlen Hu) as (blobSha & Hc).
  exists token, blobSha. split.
  - unfold treeEntries. apply in_or_app. left. apply addItems_In. eauto.
  - rewrite Htr. unfold traceToTree, traceToScan. rewrite !in_app_iff.
    left. left. right. right. left.
    unfold blobEvents. apply in_map_iff. exists (u, blobSha). auto.
Qed.


(** C10.  A pending upload that carries a file, at the first occurrence of
    its hash in the call, is a planned upload whatever the desired list
    holds: its add entry is in the tree request, pointing at the blob
    created from its file.  A publish that returns normally has committed
    that entry: its one tree request holds the entry and was built on the
    tip read at the start, the commit was created from the tree the remote
    answered to that request, with the tip as parent, and the ref was moved
    to that commit.  No track of the desired list needs to refer to the
    upload's transient key. *)
Theorem fresh_upload_committed (params : PushMusicParams) (w : W)
    (pre post : list (string * MusicFileItem)) (key : string) (item : MusicFileItem)
    (f : File.t) :
  pendingEntries params = pre ++ (key, item) :: post ->
  file item = Some f ->
  ~ In (hashOf lib item f) (hashesOf lib pre) ->
  (forall items,
      In items (treeRequests (trace (snd (run params w)))) ->
      exists token blobSha,
        In {| path := ("public/music/" ++ hashOf lib item f ++ getFileExt (File.name f))%string;
              mode := "100644"; type := "blob"; sha := Some blobSha |} items
        /\ In (EvCreateBlob token (OWNER GITHUB_CONFIG) (REPO GITHUB_CONFIG)
                            (fileToBase64NoPrefix lib f) "base64" (inr blobSha))
              (trace (snd (run params w))))
  /\ (fst (run params w) = inr tt ->
      exists token latest items blobSha treeSha commitSha,
        treeRequests (trace (snd (run params w))) = [items]
        /\ In {| path := ("public/music/" ++ hashOf lib item f
                          ++ getFileExt (File.name f))%string;
                 mode := "100644"; type := "blob"; sha := Some blobSha |} items
        /\ In (EvCreateBlob token (OWNER GITHUB_CONFIG) (REPO GITHUB_CONFIG)
                            (fileToBase64NoPrefix lib f) "base64" (inr blobSha))
              (trace (snd (run params w)))
        /\ In (EvGetRef token (OWNER GITHUB_CONFIG) (REPO GITHUB_CONFIG)
                        ("heads/" ++ BRANCH GITHUB_CONFIG)%string (inr latest))
              (trace (snd (run params w)))
        /\ In (EvCreateTree token (OWNER GITHUB_CONFIG) (REPO GITHUB_CONFIG) items latest
                            (inr treeSha))
              (trace (snd (run params w)))
        /\ In (EvCreateCommit token (OWNER GITHUB_CONFIG) (REPO GITHUB_CONFIG) commitText
                              treeSha [latest] (inr commitSha))
              (trace (snd (run params w)))
        /\ In (EvUpdateRef token (OWNER GITHUB_CONFIG) (REPO GITHUB_CONFIG)
                           ("heads/" ++ BRANCH GITHUB_CONFIG)%string commitSha (inr tt))
              (trace (snd (run params w)))).
Proof.
  intros Hentries Hf Hnew.
  pose proof (first_occurrence_fresh pre post key item f Hf Hnew) as Hplan.
  rewrite <- Hentries in Hplan. fold (plan lib params) in Hplan.
  split.
  - intros items Hin.
    destruct (fresh_upload_in_tree params w _ items Hplan Hin) as (token & blobSha & Hi & He).
    exists token, blobSha. split; [exact Hi | exact He].
  - intros Hok.
    destruct (publish_ok_inv params w Hok)
      as (token & latest & shas & previous & manifestSha & treeSha & commitSha & Hlen & Htr).
    destruct (combine_In_fst _ _ (plan lib params) shas _ Hlen Hplan) as (blobSha & Hc).
    exists token, latest, (treeEntries lib params shas previous manifestSha), blobSha,
      treeSha, commitSha.
    destruct (traceToTree_queries params token latest shas previous manifestSha
                                  (inr treeSha) Hlen) as (Hq & _).
    rewrite Htr, treeRequests_app, Hq. split; [reflexivity|]. split.
    { unfold treeEntries. apply in_or_app. left. apply addItems_In.
      exists (f, hashOf lib item f), blobSha. split; [exact Hc | reflexivity]. }
    split.
    { apply in_or_app. left. unfold traceToTree, traceToScan. rewrite !in_app_iff.
      left. right. right. left.
      unfold blobEvents. apply in_map_iff. exists ((f, hashOf lib item f), blobSha).
      split; [reflexivity | exact Hc]. }
    split.
    { apply in_or_app. left. unfold traceToTree, traceToScan. rewrite !in_app_iff.
      left. left. cbn [In]. tauto. }
    split.
    { apply in_or_app. left. unfold traceToTree. rewrite !in_app_iff.
      right. cbn [In]. tauto. }
    split; apply in_or_app; right; cbn [In]; tauto.
Qed.

Lemma hashesOf_app (a b : list (string * MusicFileItem)) :
  hashesOf lib (a ++ b) = hashesOf lib a ++ hashesOf lib b.
Proof.
  induction a as [|[key item] a IH]; cbn [app hashesOf]; [reflexivity|].
  destruct (file item); cbn [app]; now rewrite IH.
Qed.


(** The second of two uploads with one hash adds nothing to the plan. *)
Lemma duplicate_not_planned (pre mid post : list (string * MusicFileItem))
    (k1 k2 : string) (i1 i2 : MusicFileItem) (f1 f2 : File.t) :
  file i1 = Some f1 -> file i2 = Some f2 ->
  hashOf lib i1 f1 = hashOf lib i2 f2 ->
  freshUploads lib (pre ++ (k1, i1) :: mid ++ (k2, i2) :: post) StrSet.empty
  = freshUploads lib (pre ++ (k1, i1) :: mid ++ post) StrSet.empty.
Proof.
  intros H1 H2 Hh.
  change (pre ++ (k1, i1) :: mid ++ (k2, i2) :: post)
    with (pre ++ ((k1, i1) :: mid) ++ (k2, i2) :: post).
  change (pre ++ (k1, i1) :: mid ++ post) with (pre ++ ((k1, i1) :: mid) ++ post).
  rewrite !app_assoc, !(freshUploads_app (pre ++ (k1, i1) :: mid)). f_equal.
  refine (proj1 (freshUploads_seen k2 i2 f2 post _ H2 _)).
  apply seenAfter_In. right. rewrite hashesOf_app. apply in_or_app. right.
  cbn [hashesOf]. rewrite H1, Hh. now left.
Qed.



End RunFacts.

(** ** The publisher at work *)

Example getFileExt_upper : getFileExt "Song.MP3" = ".mp3".
Proof. reflexivity. Qed.

Example getFileExt_first_match : getFileExt "cover.jpeg" = ".jpeg".
Proof. reflexivity. Qed.

(** The manifest is printed with one tab per nesting level. *)
Example stringify_tabs :
  Json.stringifyList Json.tab [{| name := "B"; url := "/music/deadbeef.mp3" |}]
  = ("[" ++ Json.nl
     ++ Json.tab ++ "{" ++ Json.nl
     ++ Json.tab ++ Json.tab ++ Json.quote "name" ++ ": " ++ Json.quote "B" ++ "," ++ Json.nl
     ++ Json.tab ++ Json.tab ++ Json.quote "url" ++ ": " ++ Json.quote "/music/deadbeef.mp3"
     ++ Json.nl
     ++ Json.tab ++ "}" ++ Json.nl ++ "]")%string.
Proof. reflexivity. Qed.

(** The end-to-end scenario of the documentation: the previous manifest
    lists [/music/old.mp3], the desired list refers to one pending upload
    hashing to [deadbeef]. *)
Example end_to_end :
  fst (Demo.run (Some Demo.oldText) true Demo.replaceParams) = inr tt
  /\ postRemap Demo.lib Demo.replaceParams = [{| name := "B"; url := "/music/deadbeef.mp3" |}]
  /\ treeRequests (trace (snd (Demo.run (Some Demo.oldText) true Demo.replaceParams)))
     = [[{| path := "public/music/deadbeef.mp3"; mode := "100644"; type := "blob";
            sha := Some "blob0" |};
         {| path := "public/music/old.mp3"; mode := "100644"; type := "blob";
            sha := None |};
         {| path := "src/app/music/list.json"; mode := "100644"; type := "blob";
            sha := Some "blob1" |}]].
Proof. repeat split; reflexivity. Qed.

(** Without a token nothing else is attempted. *)
Example unauthenticated_stops :
  publish Demo.config Demo.lib (Demo.remote false (Some Demo.oldText) true)
          Demo.replaceParams 0
  = (inl Demo.Unauthenticated,
     {| world := 0; trace := [EvGetAuthToken (inl Demo.Unauthenticated)] |}).
Proof. reflexivity. Qed.

(** A manifest that is not JSON is reported on the console and the publish
    carries on without deleting anything. *)
Example parse_failure_logged :
  In (EvConsoleError msgParseFailed)
     (trace (snd (Demo.run (Some "not json") true Demo.keepParams)))
  /\ deletedPaths (Demo.treeOf (Demo.run (Some "not json") true Demo.keepParams)) = [].
Proof. split; [vm_compute; auto 20 | reflexivity]. Qed.

(** C1 at work: the end-to-end scenario deletes
    [public/music/old.mp3], once. *)
Lemma stale_owned_paths_deleted_witness :
  parse Demo.lib EmptyString = None
  /\ In (inr (Some Demo.oldText))
        (manifestReads (trace (snd (Demo.run (Some Demo.oldText) true Demo.replaceParams))))
  /\ parse Demo.lib Demo.oldText = Some (Json.ofList Demo.oldList)
  /\ Json.readUrls (Json.ofList Demo.oldList) = Some ["/music/old.mp3"]
  /\ In (Demo.treeOf (Demo.run (Some Demo.oldText) true Demo.replaceParams))
        (treeRequests (trace (snd (Demo.run (Some Demo.oldText) true Demo.replaceParams))))
  /\ NoDup (deletedPaths (Demo.treeOf (Demo.run (Some Demo.oldText) true Demo.replaceParams))).
Proof.
  assert (parse Demo.lib EmptyString = None) as H1 by reflexivity.
  assert (In (inr (Some Demo.oldText))
             (manifestReads
                (trace (snd (Demo.run (Some Demo.oldText) true Demo.replaceParams)))))
    as H2 by (vm_compute; auto).
  assert (parse Demo.lib Demo.oldText = Some (Json.ofList Demo.oldList)) as H3
      by reflexivity.
  assert (In (Demo.treeOf (Demo.run (Some Demo.oldText) true Demo.replaceParams))
             (treeRequests
                (trace (snd (Demo.run (Some Demo.oldText) true Demo.replaceParams)))))
    as H4 by (vm_compute; auto).
  repeat split; try assumption.
  exact (proj1 (stale_owned_paths_deleted nat Demo.PublishError Demo.config Demo.lib
                  (Demo.remote true (Some Demo.oldText) true) Demo.replaceParams 0
                  Demo.oldText (Json.ofList Demo.oldList) ["/music/old.mp3"] _
                  H1 H2 H3 eq_refl H4)).
Defined.



(** C4 at work: a previous manifest that is
    not JSON. *)
Lemma unparsable_manifest_degrades_witness :
  In (inr (Some "not json"))
     (manifestReads (trace (snd (Demo.run (Some "not json") true Demo.keepParams))))
  /\ ~ readable Demo.lib "not json"
  /\ In (manifestContent Demo.lib Demo.keepParams)
        (blobRequests (trace (snd (Demo.run (Some "not json") true Demo.keepParams))))
  /\ fst (Demo.run (Some "not json") true Demo.keepParams) = inr tt.
Proof.
  assert (In (inr (Some "not json"))
             (manifestReads (trace (snd (Demo.run (Some "not json") true Demo.keepParams)))))
    as H1 by (vm_compute; auto).
  assert (~ readable Demo.lib "not json") as H2
      by (apply syntax_error_unreadable; reflexivity).
  pose proof (unparsable_manifest_degrades nat Demo.PublishError Demo.config Demo.lib
                (Demo.remote true (Some "not json") true) Demo.keepParams 0
                (Some "not json") H1
                (or_intror (ex_intro _ "not json" (conj eq_refl H2))))
    as (_ & H4 & _ & H6).
  split; [exact H1|]. split; [exact H2|]. split; [exact H4|].
  apply H6. intros ev Hev. vm_compute in Hev.
  repeat (destruct Hev as [<-|Hev]; [reflexivity|]). destruct Hev.
Defined.

(** C5 at work: the previous manifest lists an
    owned track and an external one; only the owned one is deleted. *)
Lemma external_urls_never_deleted_witness :
  In (Demo.treeOf (Demo.run (Some Demo.mixedText) true Demo.replaceParams))
     (treeRequests (trace (snd (Demo.run (Some Demo.mixedText) true Demo.replaceParams))))
  /\ filter isDelete (Demo.treeOf (Demo.run (Some Demo.mixedText) true Demo.replaceParams))
     = staleItems (collectOwned (filter owned (map url Demo.mixedList)) StrSet.empty)
                  (collectCurrent (postRemap Demo.lib Demo.replaceParams)).
Proof.
  assert (In (Demo.treeOf (Demo.run (Some Demo.mixedText) true Demo.replaceParams))
             (treeRequests
                (trace (snd (Demo.run (Some Demo.mixedText) true Demo.replaceParams)))))
    as H1 by (vm_compute; auto).
  split; [exact H1|].
  refine (proj1 (proj2 (external_urls_never_deleted nat Demo.PublishError Demo.config Demo.lib
                         (Demo.remote true (Some Demo.mixedText) true) Demo.replaceParams 0
                         _ H1) Demo.mixedText (Json.ofList Demo.mixedList)
                  (map url Demo.mixedList) eq_refl _ eq_refl eq_refl)).
  vm_compute. auto.
Defined.

(** C6 at work: the end-to-end scenario sends one tree request. *)
Lemma single_tree_request_witness :
  fst (Demo.run (Some Demo.oldText) true Demo.replaceParams) = inr tt
  /\ length (treeRequests (trace (snd (Demo.run (Some Demo.oldText) true Demo.replaceParams))))
     = 1.
Proof.
  split; [reflexivity|].
  exact (proj1 (proj2 (single_tree_request nat Demo.PublishError Demo.config Demo.lib
                         (Demo.remote true (Some Demo.oldText) true) Demo.replaceParams 0))
               eq_refl).
Defined.

(** C7 at work: no pending uploads, the manifest blob is the only blob. *)
Lemma publish_without_uploads_witness :
  musicFileItems Demo.keepParams = None
  /\ postRemap Demo.lib Demo.keepParams = musicList Demo.keepParams
  /\ blobRequests (trace (snd (Demo.run (Some Demo.oldText) true Demo.keepParams)))
     = [toBase64Utf8 Demo.lib (Json.stringifyList Json.tab (musicList Demo.keepParams))].
Proof.
  pose proof (publish_without_uploads nat Demo.PublishError Demo.config Demo.lib
                (Demo.remote true (Some Demo.oldText) true) Demo.keepParams 0
                (or_introl eq_refl))
    as (H1 & _ & H3 & _).
  split; [reflexivity|]. split; [exact H1|]. exact (proj1 (H3 eq_refl)).
Defined.

(** C8 at work: the remote rejects the ref update;
    the publish throws the conflict and the rejected call ends the trace. *)
Lemma publish_error_aborts_witness :
  failure (last (trace (snd (Demo.run (Some Demo.oldText) false Demo.replaceParams)))
                (EvToast ToastSuccess msgPublished))
  = Some Demo.RefUpdateConflict
  /\ fst (Demo.run (Some Demo.oldText) false Demo.replaceParams) = inl Demo.RefUpdateConflict.
Proof.
  split; [reflexivity|].
  refine (proj2 (publish_error_aborts nat Demo.PublishError Demo.config Demo.lib
                   (Demo.remote true (Some Demo.oldText) false) Demo.replaceParams 0
                   (removelast (trace (snd (Demo.run (Some Demo.oldText) false
                                                     Demo.replaceParams))))
                   []
                   (last (trace (snd (Demo.run (Some Demo.oldText) false Demo.replaceParams)))
                         (EvToast ToastSuccess msgPublished))
                   Demo.RefUpdateConflict _ _)); reflexivity.
Defined.


(** C10 at work: no track refers to [temp-9], the publish succeeds, its
    tree request holds the add entry, the commit is made from the tree of
    that request and the ref moves to it, and the manifest does not mention
    the blob's public path. *)
Lemma fresh_upload_committed_witness :
  (forall m, In m (musicList Demo.orphanParams) -> url m <> "temp-9")
  /\ fst (Demo.run None true Demo.orphanParams) = inr tt
  /\ ~ In "/music/f00d.png" (map url (postRemap Demo.lib Demo.orphanParams))
  /\ exists token latest items blobSha treeSha commitSha,
       treeRequests (trace (snd (Demo.run None true Demo.orphanParams))) = [items]
       /\ In {| path := "public/music/f00d.png"; mode := "100644"; type := "blob";
                sha := Some blobSha |} items
       /\ In (EvCreateBlob token "alan" "blog" "f00d" "base64" (inr blobSha))
             (trace (snd (Demo.run None true Demo.orphanParams)))
       /\ In (EvCreateTree token "alan" "blog" items latest (inr treeSha))
             (trace (snd (Demo.run None true Demo.orphanParams)))
       /\ In (EvCreateCommit token "alan" "blog" commitText treeSha [latest] (inr commitSha))
             (trace (snd (Demo.run None true Demo.orphanParams)))
       /\ In (EvUpdateRef token "alan" "blog" "heads/main" commitSha (inr tt))
             (trace (snd (Demo.run None true Demo.orphanParams))).
Proof.
  assert (fst (Demo.run None true Demo.orphanParams) = inr tt) as Hok by reflexivity.
  split; [|split; [exact Hok|split]].
  - intros m [<-|[]]. discriminate.
  - cbn. intuition discriminate.
  - destruct (proj2 (fresh_upload_committed nat Demo.PublishError Demo.config Demo.lib
                       (Demo.remote true None true) Demo.orphanParams 0
                       [] [] "temp-9" (Demo.upload "recording" "f00d")
                       (Demo.fileOf "recording" "f00d") eq_refl eq_refl
                       (fun H : In _ [] => H)) Hok)
      as (token & latest & items & blobSha & treeSha & commitSha
          & Hone & Hadd & Hblob & _ & Htree & Hcommit & Href).
    exists token, latest, items, blobSha, treeSha, commitSha.
    split; [exact Hone|]. split; [exact Hadd|]. split; [exact Hblob|].
    split; [exact Htree|]. split; [exact Hcommit | exact Href].
Defined.

(** * Further properties of the sources *)

(** ** Suffixes and [getFileExt] *)

Lemma length_append (a b : string) :
  String.length (a ++ b) = String.length a + String.length b.
Proof. induction a as [|c a IH]; cbn; [reflexivity | now rewrite IH]. Qed.

Lemma slice_append (a s : string) (k : nat) :
  Js.slice (String.length a + k) (a ++ s) = Js.slice k s.
Proof. induction a as [|c a IH]; cbn; [reflexivity | exact IH]. Qed.

Lemma slice_add (j : nat) : forall (k : nat) (s : string),
  Js.slice (k + j) s = Js.slice j (Js.slice k s).
Proof.
  intros k. induction k as [|k IH]; intros s; cbn; [reflexivity|].
  destruct s as [|c s]; [now destruct j | apply IH].
Qed.

Lemma toLowerCase_append (a b : string) :
  Js.toLowerCase (a ++ b) = (Js.toLowerCase a ++ Js.toLowerCase b)%string.
Proof. induction a as [|c a IH]; cbn; [reflexivity | now rewrite IH]. Qed.

Lemma toLowerCase_length (s : string) :
  String.length (Js.toLowerCase s) = String.length s.
Proof. induction s as [|c s IH]; cbn; [reflexivity | now rewrite IH]. Qed.

(** A text ends with what was appended to it. *)
Lemma endsWith_append (a e : string) : Js.endsWith (a ++ e) e = true.
Proof.
  unfold Js.endsWith. rewrite length_append.
  replace (String.length a + String.length e - String.length e) with (String.length a + 0)
    by lia.
  rewrite slice_append. cbn [Js.slice]. rewrite String.eqb_refl, andb_true_r.
  apply Nat.leb_le. lia.
Qed.

(** A suffix test only looks at a tail long enough to hold the suffix. *)
Lemma endsWith_tail (a s e : string) :
  String.length e <= String.length s ->
  Js.endsWith (a ++ s) e = Js.endsWith s e.
Proof.
  intros H. unfold Js.endsWith. rewrite length_append.
  replace (String.length a + String.length s - String.length e)
    with (String.length a + (String.length s - String.length e))
    by lia.
  rewrite slice_append. f_equal.
  apply Nat.leb_le in H as H'. rewrite H'. apply Nat.leb_le. lia.
Qed.

(** Of two suffixes of one text, the shorter is a suffix of the longer. *)
Lemma endsWith_nested (x e e' : string) :
  Js.endsWith x e = true -> Js.endsWith x e' = true ->
  String.length e <= String.length e' ->
  Js.endsWith e' e = true.
Proof.
  unfold Js.endsWith. intros H H' Hlen.
  apply andb_true_iff in H as [Hl He]. apply andb_true_iff in H' as [Hl' He'].
  apply Nat.leb_le in Hl, Hl'. apply String.eqb_eq in He, He'.
  apply andb_true_iff. split; [now apply Nat.leb_le|]. apply String.eqb_eq.
  rewrite <- He' at 2. rewrite <- slice_add.
  replace (String.length x - String.length e' + (String.length e' - String.length e))
    with (String.length x - String.length e) by lia.
  exact He.
Qed.

(** No recognised extension is a suffix of another one, so a text ends
    with at most one of them. *)
Lemma recognized_suffix_unique (x e e' : string) :
  In e recognizedExts -> In e' recognizedExts ->
  Js.endsWith x e = true -> Js.endsWith x e' = true -> e = e'.
Proof.
  intros Hin Hin' H H'.
  destruct (Nat.le_ge_cases (String.length e) (String.length e')) as [Hl|Hl].
  - pose proof (endsWith_nested x e e' H H' Hl) as Hn.
    unfold recognizedExts in Hin, Hin'. cbn [In] in Hin, Hin'.
    repeat (destruct Hin as [<-|Hin]; [
      repeat (destruct Hin' as [<-|Hin']; [first [reflexivity | discriminate Hn]|]);
      destruct Hin' |]).
    destruct Hin.
  - pose proof (endsWith_nested x e' e H' H Hl) as Hn.
    unfold recognizedExts in Hin, Hin'. cbn [In] in Hin, Hin'.
    repeat (destruct Hin as [<-|Hin]; [
      repeat (destruct Hin' as [<-|Hin']; [first [reflexivity | discriminate Hn]|]);
      destruct Hin' |]).
    destruct Hin.
Qed.

(** What [getFileExt] returns: a recognised extension the lower-cased name
    ends with, or the default when the name ends with none. *)
Lemma getFileExt_cases (filename : string) :
  (In (getFileExt filename) recognizedExts
   /\ Js.endsWith (Js.toLowerCase filename) (getFileExt filename) = true)
  \/ (getFileExt filename = ".png"
      /\ forall e, In e recognizedExts -> Js.endsWith (Js.toLowerCase filename) e = false).
Proof.
  unfold getFileExt.
  repeat match goal with
  | |- context [if Js.endsWith ?l ?e then _ else _] =>
      destruct (Js.endsWith l e) eqn:?;
        [left; split; [cbn; tauto | assumption]|]
  end.
  right. split; [reflexivity|].
  intros e He. unfold recognizedExts in He. cbn [In] in He.
  repeat (destruct He as [<-|He]; [assumption|]). destruct He.
Qed.

Lemma getFileExt_recognized (filename : string) : In (getFileExt filename) recognizedExts.
Proof.
  destruct (getFileExt_cases filename) as [[H _]|[-> _]]; [assumption | cbn; tauto].
Qed.

Lemma ext_of_suffix (filename e : string) :
  In e recognizedExts -> Js.endsWith (Js.toLowerCase filename) e = true ->
  getFileExt filename = e.
Proof.
  intros He Hs. destruct (getFileExt_cases filename) as [[Hin Hends]|[_ Hnone]].
  - exact (recognized_suffix_unique _ _ _ Hin He Hends Hs).
  - rewrite (Hnone e He) in Hs. discriminate.
Qed.

Lemma recognized_lower (e : string) : In e recognizedExts -> Js.toLowerCase e = e.
Proof.
  unfold recognizedExts. cbn [In]. intros H.
  repeat (destruct H as [<-|H]; [reflexivity|]). destruct H.
Qed.

(** The name a recognised extension was appended to has that extension. *)
Lemma ext_of_append (stem e : string) :
  In e recognizedExts -> getFileExt (stem ++ e) = e.
Proof.
  intros He. apply ext_of_suffix; [assumption|].
  rewrite toLowerCase_append, (recognized_lower e He). apply endsWith_append.
Qed.

(** X1.  [getFileExt] returns a recognised extension other than the default
    exactly for the names that end with it, letter case apart; whenever it
    returns the default the name ends with [.png] or with no recognised
    extension at all. *)
Theorem getFileExt_exact (filename e : string) :
  In e recognizedExts ->
  (Js.endsWith (Js.toLowerCase filename) e = true -> getFileExt filename = e)
  /\ (getFileExt filename = e ->
      Js.endsWith (Js.toLowerCase filename) e = true
      \/ (e = ".png"
          /\ forall e', In e' recognizedExts ->
                        Js.endsWith (Js.toLowerCase filename) e' = false)).
Proof.
  intros He. split.
  - intros Hs. destruct (getFileExt_cases filename) as [[Hin Hends]|[_ Hnone]].
    + exact (recognized_suffix_unique _ _ _ Hin He Hends Hs).
    + rewrite (Hnone e He) in Hs. discriminate.
  - intros <-. destruct (getFileExt_cases filename) as [[_ Hends]|[Hpng Hnone]].
    + now left.
    + right. split; assumption.
Qed.

Lemma getFileExt_exact_witness :
  In ".jpeg" recognizedExts
  /\ getFileExt "Cover.JPEG" = ".jpeg".
Proof.
  split; [cbn; tauto|].
  refine (proj1 (getFileExt_exact "Cover.JPEG" ".jpeg" _) _); [cbn; tauto | reflexivity].
Defined.

(** X2.  Only the last five characters of a name matter to [getFileExt]. *)
Theorem getFileExt_last_five (a s : string) :
  5 <= String.length s -> getFileExt (a ++ s) = getFileExt s.
Proof.
  intros Hlen. unfold getFileExt. rewrite toLowerCase_append.
  rewrite !endsWith_tail by (rewrite toLowerCase_length; cbn; lia).
  reflexivity.
Qed.

Lemma getFileExt_last_five_witness :
  5 <= String.length "k.ogg" /\ getFileExt ("trac" ++ "k.ogg") = getFileExt "k.ogg".
Proof.
  split; [cbn; lia|]. apply (getFileExt_last_five "trac" "k.ogg"). cbn. lia.
Defined.

(** X3.  The name under which the publisher stores a file has the extension the
    file was given: [getFileExt] of [stem ++ getFileExt name] is
    [getFileExt name], whatever the stem. *)
Theorem getFileExt_stable (stem filename : string) :
  getFileExt (stem ++ getFileExt filename) = getFileExt filename.
Proof.
  pose proof (getFileExt_recognized filename) as Hin.
  destruct (getFileExt_cases (stem ++ getFileExt filename)) as [[Hin' Hends]|[_ Hnone]].
  - apply (recognized_suffix_unique _ _ _ Hin' Hin Hends).
    rewrite toLowerCase_append, (recognized_lower _ Hin). apply endsWith_append.
  - specialize (Hnone _ Hin).
    rewrite toLowerCase_append, (recognized_lower _ Hin), endsWith_append in Hnone.
    discriminate.
Qed.

(** ** The tree request of a publish: paths and tracks *)

Lemma append_cancel_r (e : string) :
  forall a b : string, (a ++ e = b ++ e)%string -> a = b.
Proof.
  induction a as [|c a IH]; intros [|d b] H.
  - reflexivity.
  - exfalso. apply (f_equal String.length) in H. rewrite !length_append in H.
    cbn in H. lia.
  - exfalso. apply (f_equal String.length) in H. rewrite !length_append in H.
    cbn in H. lia.
  - cbn in H. injection H as -> H. f_equal. now apply IH.
Qed.

(** The stored file name fixes the hash: no recognised extension is the
    end of another one. *)
Lemma filename_hash_inj (h1 h2 n1 n2 : string) :
  (h1 ++ getFileExt n1 = h2 ++ getFileExt n2)%string -> h1 = h2.
Proof.
  intros H.
  assert (getFileExt n1 = getFileExt n2) as E.
  { apply (recognized_suffix_unique (h1 ++ getFileExt n1));
      try apply getFileExt_recognized; [apply endsWith_append|].
    rewrite H. apply endsWith_append. }
  rewrite E in H. exact (append_cancel_r _ _ _ H).
Qed.

Lemma addItem_path_inj (u u' : File.t * string) (blobSha blobSha' : string) :
  path (addItem u blobSha) = path (addItem u' blobSha') -> snd u = snd u'.
Proof.
  unfold addItem. cbn [path]. intros H. apply append_cancel_l in H.
  exact (filename_hash_inj _ _ _ _ H).
Qed.

Lemma addItems_paths_NoDup (uploads : list (File.t * string)) :
  forall shas : list string,
    NoDup (map snd uploads) -> NoDup (map path (addItems uploads shas)).
Proof.
  induction uploads as [|u uploads IH]; intros [|blobSha shas] Hnd;
    try (cbn; constructor; fail).
  change (addItems (u :: uploads) (blobSha :: shas))
    with (addItem u blobSha :: addItems uploads shas).
  cbn [map]. inversion Hnd as [|x l Hx Hl]; subst. constructor.
  - intros Hin. apply in_map_iff in Hin as (it & Hpath & Hin).
    apply addItems_In in Hin as (u' & blobSha' & Hc & ->).
    apply Hx. apply addItem_path_inj in Hpath. rewrite <- Hpath.
    apply in_map. exact (in_combine_l _ _ _ _ Hc).
  - now apply IH.
Qed.

Lemma addItems_written (uploads : list (File.t * string)) (shas : list string) :
  filter (fun it => negb (isDelete it)) (addItems uploads shas) = addItems uploads shas.
Proof.
  unfold addItems. induction (combine uploads shas) as [|us l IH]; [reflexivity|].
  cbn. now rewrite IH.
Qed.

Lemma staleOf_written (lib : Helpers) (previous : option string) (updated : list MusicItem) :
  filter (fun it => negb (isDelete it)) (staleOf lib previous updated) = [].
Proof.
  assert (forall l, (forall it, In it l -> isDelete it = true) ->
                    filter (fun it => negb (isDelete it)) l = []) as Hall.
  { induction l as [|it l IH]; intros H; [reflexivity|]. cbn.
    rewrite (H it (or_introl eq_refl)). cbn. apply IH. intros it' Hin. apply H. now right. }
  apply Hall. intros it Hin. apply staleOf_In in Hin as (u & -> & _). reflexivity.
Qed.

(** The scan deletes no path twice. *)
Lemma staleOf_paths_NoDup (lib : Helpers) (previous : option string)
    (updated : list MusicItem) :
  NoDup (map path (staleOf lib previous updated)).
Proof.
  unfold staleOf. destruct (truthy previous) as [text|]; [|constructor].
  unfold tryStale. destruct (parse lib text) as [v|]; [|constructor].
  destruct (Json.iterate v) as [els|]; [|constructor].
  destruct (collectPrevious els StrSet.empty) as [previousUrls|] eqn:Hc; [|constructor].
  destruct (collectPrevious_readable els _ _ Hc) as (urls & Hurls).
  rewrite (collectPrevious_urls els _ _ Hurls) in Hc. injection Hc as <-.
  unfold staleItems, StrSet.elements. rewrite map_map.
  apply NoDup_map_on.
  - intros u u' Hu Hu' Hp.
    apply filter_In in Hu as [Hu _]. apply filter_In in Hu' as [Hu' _].
    apply collectOwned_In in Hu as [[]|[Hu _]]. apply collectOwned_In in Hu' as [[]|[Hu' _]].
    exact (deleteItem_path_inj u u' Hu Hu' Hp).
  - apply NoDup_filter_keep, collectOwned_NoDup. constructor.
Qed.

(** What the loop makes of a url: the url itself, or the public path of a
    pending upload that carries a file. *)
Lemma finalUrl_range (lib : Helpers) (entries : list (string * MusicFileItem)) :
  forall u : string,
    finalUrl lib entries u = u
    \/ exists key item f,
         In (key, item) entries /\ file item = Some f
         /\ finalUrl lib entries u = publicPathOf lib item f.
Proof.
  induction entries as [|[key item] rest IH]; intros u; [now left|].
  cbn [finalUrl]. destruct (file item) as [f|] eqn:Hf.
  - destruct (String.eqb u key) eqn:Hk.
    + destruct (IH (publicPathOf lib item f)) as [E|(k' & i' & f' & Hin & Hf' & E)].
      * right. exists key, item, f. rewrite E. split; [now left | auto].
      * right. exists k', i', f'. split; [now right | auto].
    + destruct (IH u) as [E|(k' & i' & f' & Hin & Hf' & E)]; [now left|].
      right. exists k', i', f'. split; [now right | auto].
  - destruct (IH u) as [E|(k' & i' & f' & Hin & Hf' & E)]; [now left|].
    right. exists k', i', f'. split; [now right | auto].
Qed.

Section PublishFacts.

Variables W Err : Type.
Variable GITHUB_CONFIG : GithubConfig.
Variable lib : Helpers.
Variable remote : Remote W Err.

Local Abbreviation run params w := (publish GITHUB_CONFIG lib remote params w).

(** The manifest blob of a publish that reached the tree request. *)
Lemma manifest_blob_in_trace (params : PushMusicParams) (w : W) (items : list TreeItem) :
  In items (treeRequests (trace (snd (run params w)))) ->
  exists token shas previous manifestSha,
    length shas = length (plan lib params)
    /\ items = treeEntries lib params shas previous manifestSha
    /\ In (EvCreateBlob token (OWNER GITHUB_CONFIG) (REPO GITHUB_CONFIG)
                        (manifestContent lib params) "base64" (inr manifestSha))
          (trace (snd (run params w))).
Proof.
  intros Hin.
  destruct (tree_request_inv W Err GITHUB_CONFIG lib remote params w items Hin)
    as (token & latest & shas & previous & manifestSha & treeReply & rest
        & Hlen & Htr & _ & ->).
  exists token, shas, previous, manifestSha. repeat split; [assumption|].
  rewrite Htr. unfold traceToTree, manifestBlobEvent.
  apply in_or_app. left. apply in_or_app. right. now left.
Qed.

(** ** The order of the phases *)

Lemma beforeScan_beforeTree (evs : list (Event Err)) :
  forallb beforeScan evs = true -> forallb beforeTree evs = true.
Proof.
  induction evs as [|ev evs IH]; [reflexivity|]. cbn [forallb]. intros H.
  apply andb_true_iff in H as [Hev Hevs]. rewrite (IH Hevs), andb_true_r.
  now destruct ev.
Qed.

Lemma blobEvents_before (token : string) (uploads : list (File.t * string))
    (shas : list string) :
  forallb beforeScan (blobEvents GITHUB_CONFIG lib (Err := Err) token uploads shas) = true.
Proof.
  unfold blobEvents. induction (combine uploads shas) as [|x l IH]; [reflexivity | exact IH].
Qed.

Lemma uploadToast_before (params : PushMusicParams) :
  forallb beforeScan (uploadToast (Err := Err) params) = true.
Proof. unfold uploadToast. now destruct (musicFileItems params) as [[|? ?]|]. Qed.

Lemma parseWarning_before (previous : option string) (updated : list MusicItem) :
  forallb beforeTree (parseWarning lib (Err := Err) previous updated) = true.
Proof.
  unfold parseWarning. destruct (truthy previous) as [text|]; [|reflexivity].
  now destruct (tryStale lib text updated).
Qed.

Lemma traceToScan_before (params : PushMusicParams) (token latest : string)
    (shas : list string) (previous : option string) :
  forallb beforeTree
          (traceToScan GITHUB_CONFIG lib (Err := Err) params token latest shas previous)
  = true.
Proof.
  unfold traceToScan.
  rewrite !forallb_app, (beforeScan_beforeTree _ (uploadToast_before params)),
    (beforeScan_beforeTree _ (blobEvents_before token (plan lib params) shas)),
    parseWarning_before.
  reflexivity.
Qed.

(** The upload phase records toasts and blob creations only. *)
Lemma uploadAll_before (token : string) (items : option (list (string * MusicFileItem)))
    (st : UploadState) (s : State W Err) :
  exists evs,
    trace (snd (uploadAll GITHUB_CONFIG lib remote token items st s)) = trace s ++ evs
    /\ forallb beforeScan evs = true.
Proof.
  unfold uploadAll. destruct items as [[|entry entries]|].
  - exists []. cbn. now rewrite app_nil_r.
  - unfold bind at 1, toastInfo, emit.
    match goal with
    | |- context [forEach _ ?l ?st1 ?s1] =>
        pose proof (upload_loop W Err GITHUB_CONFIG lib remote token l st1 s1) as H;
          destruct (forEach _ l st1 s1) as [[e|st2] s2]
    end; cbn [uploadedHashes treeItems updatedMusicList trace world snd] in H |- *.
    + destruct H as (shas & u & _ & ->). eexists. rewrite <- !app_assoc.
      split; [reflexivity|]. rewrite !forallb_app, blobEvents_before. reflexivity.
    + destruct H as (shas & _ & -> & _). eexists. rewrite <- !app_assoc.
      split; [reflexivity|]. rewrite !forallb_app, blobEvents_before. reflexivity.
  - exists []. cbn. now rewrite app_nil_r.
Qed.

(** A publish that stops before the scan has recorded nothing of the scan
    or of the later phases; otherwise its trace is [traceToScan] followed by
    the manifest blob request and, that succeeding, by the tree request and
    what [AfterTree] says. *)
Lemma publish_phases (params : PushMusicParams) (w : W) :
  (forallb beforeScan (trace (snd (run params w))) = true
   /\ exists e, fst (run params w) = inl e)
  \/ (exists token latest shas previous e,
        length shas = length (plan lib params)
        /\ trace (snd (run params w))
           = traceToScan GITHUB_CONFIG lib params token latest shas previous
             ++ [manifestBlobEvent GITHUB_CONFIG lib params token (inl e)]
        /\ fst (run params w) = inl e)
  \/ exists token latest shas previous manifestSha treeReply rest,
       length shas = length (plan lib params)
       /\ trace (snd (run params w))
          = traceToTree GITHUB_CONFIG lib params token latest shas previous manifestSha
                        treeReply ++ rest
       /\ AfterTree GITHUB_CONFIG token latest treeReply rest (fst (run params w)).
Proof.
  destruct (run params w) as [r s] eqn:Hrun.
  cbn [fst snd]. unfold publish, pushMusic in Hrun.
  unfold bind at 1, call at 1 in Hrun. cbn [world trace] in Hrun.
  destruct (getAuthToken remote w) as [[e|token] w1].
  { injection Hrun as <- <-. left. split; [reflexivity | eauto]. }
  unfold bind at 1, toastInfo at 1, emit at 1 in Hrun.
  unfold bind at 1, call at 1 in Hrun. cbn [world trace] in Hrun.
  destruct (getRef remote token (OWNER GITHUB_CONFIG) (REPO GITHUB_CONFIG)
                   ("heads/" ++ BRANCH GITHUB_CONFIG)%string w1) as [[e|latest] w2].
  { injection Hrun as <- <-. left. split; [reflexivity | eauto]. }
  unfold bind at 1, toastInfo at 1, emit at 1 in Hrun.
  unfold bind at 1 in Hrun. cbn [world trace] in Hrun.
  match type of Hrun with
  | context [uploadAll _ _ _ _ ?its ?st0 ?s0] =>
      pose proof (uploadAll_run W Err GITHUB_CONFIG lib remote token params s0) as Hup;
        pose proof (uploadAll_before token its st0 s0) as Hbefore;
        destruct (uploadAll GITHUB_CONFIG lib remote token its st0 s0) as [[e|st] s3]
  end; cbn [trace snd] in Hup, Hbefore.
  { injection Hrun as <- <-. left. destruct Hbefore as (evs & -> & Hevs).
    split; [|eauto]. rewrite forallb_app, Hevs. reflexivity. }
  clear Hbefore. destruct Hup as (shas & Hlen & Htr & Hitems & Hlist).
  unfold bind at 1, toastInfo at 1, emit at 1 in Hrun.
  unfold bind at 1, call at 1 in Hrun. cbn [world trace] in Hrun.
  destruct (readTextFileFromRepo remote token (OWNER GITHUB_CONFIG) (REPO GITHUB_CONFIG)
                                 manifestPath (BRANCH GITHUB_CONFIG) (world s3))
    as [[e|previous] w4].
  { injection Hrun as <- <-. left. cbn [trace]. rewrite Htr. split; [|eauto].
    rewrite !forallb_app, uploadToast_before, blobEvents_before. reflexivity. }
  unfold bind at 1 in Hrun. rewrite scanStale_run in Hrun.
  unfold bind at 1, awaitCreateBlob at 1, call at 1 in Hrun. cbn [world trace] in Hrun.
  rewrite Hlist, Hitems, Htr in Hrun.
  destruct (createBlob remote token (OWNER GITHUB_CONFIG) (REPO GITHUB_CONFIG)
                       (toBase64Utf8 lib (Json.stringifyList Json.tab (postRemap lib params)))
                       "base64" w4) as [[e|manifestSha] w5].
  { injection Hrun as <- <-. right. left. exists token, latest, shas, previous, e.
    repeat split; try assumption.
    cbn [trace]. unfold traceToScan, manifestBlobEvent, manifestContent.
    rewrite <- !app_assoc. reflexivity. }
  unfold bind at 1, toastInfo at 1, emit at 1 in Hrun.
  unfold bind at 1, call at 1 in Hrun. cbn [world trace] in Hrun.
  right. right. exists token, latest, shas, previous, manifestSha.
  match type of Hrun with
  | context [createTree remote ?a ?b ?c ?d ?e ?f] =>
      destruct (createTree remote a b c d e f) as [[e1|treeSha] w6]
  end.
  { injection Hrun as <- <-. exists (inl e1), []. split; [assumption|]. split; [|constructor].
    cbn [trace].
    unfold traceToTree, traceToScan, manifestBlobEvent, treeEntries, manifestContent,
      manifestItem.
    rewrite <- !app_assoc. reflexivity. }
  unfold bind at 1, toastInfo at 1, emit at 1 in Hrun.
  unfold bind at 1, call at 1 in Hrun. cbn [world trace] in Hrun.
  exists (inr treeSha).
  match type of Hrun with
  | context [createCommit remote ?a ?b ?c ?d ?e ?f ?g] =>
      destruct (createCommit remote a b c d e f g) as [[e1|commitSha] w7]
  end.
  { injection Hrun as <- <-. eexists. split; [assumption|]. split; [|apply CommitFailed].
    cbn [trace].
    unfold traceToTree, traceToScan, manifestBlobEvent, treeEntries, manifestContent,
      manifestItem.
    rewrite <- !app_assoc. reflexivity. }
  unfold bind at 1, toastInfo at 1, emit at 1 in Hrun.
  unfold bind at 1, call at 1 in Hrun. cbn [world trace] in Hrun.
  match type of Hrun with
  | context [updateRef remote ?a ?b ?c ?d ?e ?f] =>
      destruct (updateRef remote a b c d e f) as [[e1|[]] w8]
  end.
  { injection Hrun as <- <-. eexists. split; [assumption|]. split; [|apply RefUpdateFailed].
    cbn [trace].
    unfold traceToTree, traceToScan, manifestBlobEvent, treeEntries, manifestContent,
      manifestItem.
    rewrite <- !app_assoc. reflexivity. }
  unfold emit in Hrun. cbn [world trace] in Hrun.
  injection Hrun as <- <-. eexists. split; [assumption|]. split; [|apply Published].
  cbn [trace].
  unfold traceToTree, traceToScan, manifestBlobEvent, treeEntries, manifestContent,
    manifestItem.
  rewrite <- !app_assoc. reflexivity.
Qed.

(** X4.  The manifest a publish commits lists the tracks it was given, in the
    same order and under the same names; a track whose url is no key of a
    pending upload is committed as it is, and every url the loop has
    changed is the public path [/music/<hash><ext>] of a pending upload. *)
Theorem manifest_keeps_tracks (params : PushMusicParams) (w : W) (items : list TreeItem) :
  In items (treeRequests (trace (snd (run params w)))) ->
  exists token manifestSha updated,
    In (EvCreateBlob token (OWNER GITHUB_CONFIG) (REPO GITHUB_CONFIG)
                     (toBase64Utf8 lib (Json.stringifyList Json.tab updated))
                     "base64" (inr manifestSha))
       (trace (snd (run params w)))
    /\ In (manifestItem manifestSha) items
    /\ map name updated = map name (musicList params)
    /\ (forall n m,
          nth_error (musicList params) n = Some m ->
          ~ In (url m) (map fst (pendingEntries params)) ->
          nth_error updated n = Some m)
    /\ (forall n m m',
          nth_error (musicList params) n = Some m ->
          nth_error updated n = Some m' ->
          url m' <> url m ->
          exists key item f,
            In (key, item) (pendingEntries params) /\ file item = Some f
            /\ url m' = ("/music/" ++ hashOf lib item f ++ getFileExt (File.name f))%string).
Proof.
  intros Hin.
  destruct (manifest_blob_in_trace params w items Hin)
    as (token & shas & previous & manifestSha & _ & -> & Hblob).
  exists token, manifestSha, (postRemap lib params).
  split; [exact Hblob|]. split.
  { unfold treeEntries. apply in_or_app. right. apply in_or_app. right. now left. }
  unfold postRemap. rewrite remapAll_map. split; [|split].
  - rewrite map_map. reflexivity.
  - intros n m Hn Hkey. rewrite nth_error_map, Hn. cbn.
    rewrite (finalUrl_other lib _ _ Hkey). now destruct m.
  - intros n m m' Hn Hn' Hne. rewrite nth_error_map, Hn in Hn'. cbn in Hn'.
    injection Hn' as <-. cbn [url] in *.
    destruct (finalUrl_range lib (pendingEntries params) (url m))
      as [E|(key & item & f & Hi & Hf & E)]; [contradiction|].
    exists key, item, f. auto.
Qed.

(** X5.  In a tree request no two entries write the same path and no two
    entries delete the same path. *)
Theorem tree_paths_distinct (params : PushMusicParams) (w : W) (items : list TreeItem) :
  In items (treeRequests (trace (snd (run params w)))) ->
  NoDup (map path (filter (fun it => negb (isDelete it)) items))
  /\ NoDup (deletedPaths items).
Proof.
  intros Hin.
  destruct (manifest_blob_in_trace params w items Hin)
    as (token & shas & previous & manifestSha & _ & -> & _).
  split.
  - unfold treeEntries. rewrite !filter_app, addItems_written, staleOf_written.
    cbn [filter isDelete sha manifestItem negb app]. rewrite map_app.
    apply NoDup_app.
    + apply addItems_paths_NoDup. apply (freshUploads_hashes lib).
    + repeat constructor. intros [].
    + intros p Hp [E|[]]. apply in_map_iff in Hp as (it & Hpath & Hit).
      apply addItems_In in Hit as (u & blobSha & _ & ->).
      rewrite <- E in Hpath. discriminate.
  - unfold deletedPaths. rewrite treeEntries_deletes. apply staleOf_paths_NoDup.
Qed.

(** X6.  A publish never deletes the file of a track it commits: no url of the
    list in the manifest blob has its path [public<url>] among the deleted
    paths of the tree request. *)
Theorem committed_tracks_not_deleted (params : PushMusicParams) (w : W)
    (items : list TreeItem) :
  In items (treeRequests (trace (snd (run params w)))) ->
  exists token manifestSha updated,
    In (EvCreateBlob token (OWNER GITHUB_CONFIG) (REPO GITHUB_CONFIG)
                     (toBase64Utf8 lib (Json.stringifyList Json.tab updated))
                     "base64" (inr manifestSha))
       (trace (snd (run params w)))
    /\ In (manifestItem manifestSha) items
    /\ forall m, In m updated -> ~ In ("public" ++ url m)%string (deletedPaths items).
Proof.
  intros Hin.
  destruct (manifest_blob_in_trace params w items Hin)
    as (token & shas & previous & manifestSha & _ & -> & Hblob).
  exists token, manifestSha, (postRemap lib params).
  split; [exact Hblob|]. split.
  { unfold treeEntries. apply in_or_app. right. apply in_or_app. right. now left. }
  intros m Hm. unfold deletedPaths. rewrite treeEntries_deletes. intros Hd.
  apply in_map_iff in Hd as (it & Hpath & Hit).
  apply staleOf_In in Hit as (u & -> & Ho & Hnot).
  destruct (deleteItem_owned u Ho) as (E & _). rewrite E in Hpath.
  apply append_cancel_l in Hpath. subst u. apply Hnot. now apply in_map.
Qed.

(** X7.  A tree request can write and delete the same path.  When a fresh
    upload is stored at a public path that the previous manifest lists and
    that no track of the committed list refers to -- an upload no track
    points at, say -- the entries of the request hold both the add entry
    and the delete entry of [public<path>]. *)
Theorem unreferenced_upload_written_and_deleted (params : PushMusicParams) (w : W)
    (text : string) (v : JValue) (urls : list string) (items : list TreeItem)
    (pre post : list (string * MusicFileItem)) (key : string) (item : MusicFileItem)
    (f : File.t) :
  parse lib EmptyString = None ->
  In (inr (Some text)) (manifestReads (trace (snd (run params w)))) ->
  parse lib text = Some v ->
  Json.readUrls v = Some urls ->
  In items (treeRequests (trace (snd (run params w)))) ->
  pendingEntries params = pre ++ (key, item) :: post ->
  file item = Some f ->
  ~ In (hashOf lib item f) (hashesOf lib pre) ->
  In (publicPathOf lib item f) urls ->
  ~ In (publicPathOf lib item f) (map url (postRemap lib params)) ->
  exists blobSha,
    In {| path := ("public" ++ publicPathOf lib item f)%string;
          mode := "100644"; type := "blob"; sha := Some blobSha |} items
    /\ In {| path := ("public" ++ publicPathOf lib item f)%string;
             mode := "100644"; type := "blob"; sha := None |} items.
Proof.
  intros Hempty Hread Hparse Hurls Hin Hentries Hf Hnew Hprev Hcur.
  assert (In (f, hashOf lib item f) (plan lib params)) as Hplan.
  { unfold plan. rewrite Hentries. now apply first_occurrence_fresh. }
  destruct (fresh_upload_in_tree W Err GITHUB_CONFIG lib remote params w _ items Hplan Hin)
    as (token & blobSha & Hadd & _).
  exists blobSha. split; [exact Hadd|].
  assert (owned (publicPathOf lib item f) = true) as Ho.
  { unfold owned, publicPathOf, Js.startsWith. cbn. now destruct (filenameOf lib item f). }
  pose proof (parsed_manifest_deletes W Err GITHUB_CONFIG lib remote params w text v urls
                items Hempty Hread Hparse Hurls Hin) as Hdel.
  assert (In (deleteItem (publicPathOf lib item f)) (filter isDelete items)) as Hd.
  { rewrite Hdel. apply staleItems_In. exists (publicPathOf lib item f).
    split; [reflexivity|]. split.
    - apply collectOwned_In. right. auto.
    - intros Hc. apply collectCurrent_In in Hc as [_ Hc]. contradiction. }
  apply filter_In in Hd as [Hd _].
  replace {| path := ("public" ++ publicPathOf lib item f)%string;
             mode := "100644"; type := "blob"; sha := None |}
    with (deleteItem (publicPathOf lib item f)); [exact Hd|].
  unfold deleteItem. f_equal.
  destruct (deleteItem_owned _ Ho) as (E & _). unfold deleteItem in E. exact E.
Qed.

(** X8.  The branch only ever moves to a commit of this publish.  A ref update
    in the trace targets the configured branch with the commit that was
    created, in this publish, from the tree of its one tree request, with
    the tip read at the start as only parent; and the publish returns what
    the update answered. *)
Theorem ref_update_chain (params : PushMusicParams) (w : W)
    (token owner repo ref commitSha : string) (reply : Err + unit) :
  In (EvUpdateRef token owner repo ref commitSha reply) (trace (snd (run params w))) ->
  exists latest items treeSha,
    In (EvGetRef token (OWNER GITHUB_CONFIG) (REPO GITHUB_CONFIG)
                 ("heads/" ++ BRANCH GITHUB_CONFIG)%string (inr latest))
       (trace (snd (run params w)))
    /\ treeRequests (trace (snd (run params w))) = [items]
    /\ In (EvCreateTree token (OWNER GITHUB_CONFIG) (REPO GITHUB_CONFIG) items latest
                        (inr treeSha))
          (trace (snd (run params w)))
    /\ In (EvCreateCommit token (OWNER GITHUB_CONFIG) (REPO GITHUB_CONFIG) commitText
                          treeSha [latest] (inr commitSha))
          (trace (snd (run params w)))
    /\ owner = OWNER GITHUB_CONFIG /\ repo = REPO GITHUB_CONFIG
    /\ ref = ("heads/" ++ BRANCH GITHUB_CONFIG)%string
    /\ fst (run params w) = match reply with
                            | inl e => inl e
                            | inr _ => inr tt
                            end.
Proof.
  intros Hin.
  destruct (publish_phases params w)
    as [(Hbefore & _)|[(tok & latest & shas & previous & e & _ & Htr & _)
                      |(tok & latest & shas & previous & manifestSha & treeReply & rest
                        & Hlen & Htr & Hafter)]].
  { rewrite forallb_forall in Hbefore. specialize (Hbefore _ Hin). discriminate. }
  { exfalso. rewrite Htr in Hin. apply in_app_or in Hin as [Hin|[Hin|[]]];
      [|discriminate].
    pose proof (traceToScan_before params tok latest shas previous) as Hb.
    rewrite forallb_forall in Hb. specialize (Hb _ Hin). discriminate. }
  assert (In (EvUpdateRef token owner repo ref commitSha reply) rest) as Hrest.
  { rewrite Htr in Hin. apply in_app_or in Hin as [Hin|Hin]; [|assumption].
    unfold traceToTree in Hin. apply in_app_or in Hin as [Hin|Hin].
    - pose proof (traceToScan_before params tok latest shas previous) as Hb.
      rewrite forallb_forall in Hb. specialize (Hb _ Hin). discriminate.
    - cbn in Hin. intuition discriminate. }
  destruct (traceToTree_queries Err GITHUB_CONFIG lib params tok latest shas previous
              manifestSha treeReply Hlen) as (Hq & _).
  destruct (AfterTree_quiet Err GITHUB_CONFIG _ _ _ _ _ Hafter) as (Hq' & _).
  assert (In (EvGetRef tok (OWNER GITHUB_CONFIG) (REPO GITHUB_CONFIG)
                       ("heads/" ++ BRANCH GITHUB_CONFIG)%string (inr latest))
             (trace (snd (run params w)))) as Href.
  { rewrite Htr. unfold traceToTree, traceToScan. rewrite !in_app_iff. cbn. tauto. }
  assert (In (EvCreateTree tok (OWNER GITHUB_CONFIG) (REPO GITHUB_CONFIG)
                           (treeEntries lib params shas previous manifestSha) latest
                           treeReply)
             (trace (snd (run params w)))) as Htree.
  { rewrite Htr. unfold traceToTree. rewrite !in_app_iff. cbn. tauto. }
  assert (treeRequests (trace (snd (run params w)))
          = [treeEntries lib params shas previous manifestSha]) as Hone.
  { rewrite Htr, treeRequests_app, Hq, Hq'. reflexivity. }
  rewrite Htr. rewrite Htr in Href, Htree, Hone.
  inversion Hafter as [e He Hr Hres|treeSha e He Hr Hres|treeSha c e He Hr Hres
                       |treeSha c He Hr Hres]; subst treeReply; subst rest.
  - destruct Hrest.
  - cbn in Hrest. intuition discriminate.
  - cbn in Hrest. destruct Hrest as [?|[?|[?|[E|[]]]]]; try discriminate.
    injection E as <- <- <- <- <- <-.
    exists latest, (treeEntries lib params shas previous manifestSha), treeSha.
    repeat split; try assumption; try reflexivity.
    apply in_or_app. right. cbn. tauto.
  - cbn in Hrest. destruct Hrest as [?|[?|[?|[E|[?|[]]]]]]; try discriminate.
    injection E as <- <- <- <- <- <-.
    exists latest, (treeEntries lib params shas previous manifestSha), treeSha.
    repeat split; try assumption; try reflexivity.
    apply in_or_app. right. cbn. tauto.
Qed.

(** X9.  The success toast is shown exactly by the publishes that return
    normally; it is the last event of the trace and follows the accepted
    ref update. *)
Theorem success_toast_means_published (params : PushMusicParams) (w : W) :
  (In (EvToast ToastSuccess msgPublished) (trace (snd (run params w)))
   <-> fst (run params w) = inr tt)
  /\ forall message,
       In (EvToast ToastSuccess message) (trace (snd (run params w))) ->
       message = msgPublished
       /\ exists token commitSha earlier,
            trace (snd (run params w))
            = earlier
              ++ [EvUpdateRef token (OWNER GITHUB_CONFIG) (REPO GITHUB_CONFIG)
                              ("heads/" ++ BRANCH GITHUB_CONFIG)%string commitSha (inr tt);
                  EvToast ToastSuccess message].
Proof.
  assert (forall message,
             In (EvToast ToastSuccess message) (trace (snd (run params w))) ->
             message = msgPublished /\ fst (run params w) = inr tt
             /\ exists token commitSha earlier,
                  trace (snd (run params w))
                  = earlier
                    ++ [EvUpdateRef token (OWNER GITHUB_CONFIG) (REPO GITHUB_CONFIG)
                                    ("heads/" ++ BRANCH GITHUB_CONFIG)%string commitSha
                                    (inr tt);
                        EvToast ToastSuccess message]) as Hinv.
  { intros message Hin.
    destruct (publish_phases params w)
      as [(Hbefore & _)|[(tok & latest & shas & previous & e & _ & Htr & _)
                        |(tok & latest & shas & previous & manifestSha & treeReply & rest
                          & Hlen & Htr & Hafter)]].
    { rewrite forallb_forall in Hbefore. specialize (Hbefore _ Hin). discriminate. }
    { exfalso. rewrite Htr in Hin. apply in_app_or in Hin as [Hin|[Hin|[]]];
        [|discriminate].
      pose proof (traceToScan_before params tok latest shas previous) as Hb.
      rewrite forallb_forall in Hb. specialize (Hb _ Hin). discriminate. }
    assert (In (EvToast ToastSuccess message) rest) as Hrest.
    { rewrite Htr in Hin. apply in_app_or in Hin as [Hin|Hin]; [|assumption].
      unfold traceToTree in Hin. apply in_app_or in Hin as [Hin|Hin].
      - pose proof (traceToScan_before params tok latest shas previous) as Hb.
        rewrite forallb_forall in Hb. specialize (Hb _ Hin). discriminate.
      - cbn in Hin. intuition discriminate. }
    rewrite Htr.
    inversion Hafter as [e He Hr Hres|treeSha e He Hr Hres|treeSha c e He Hr Hres
                         |treeSha c He Hr Hres]; subst treeReply; subst rest.
    - destruct Hrest.
    - cbn in Hrest. intuition discriminate.
    - cbn in Hrest. intuition discriminate.
    - cbn in Hrest. destruct Hrest as [?|[?|[?|[?|[E|[]]]]]]; try discriminate.
      injection E as <-. split; [reflexivity|]. split; [now symmetry|].
      exists tok, c,
        (traceToTree GITHUB_CONFIG lib params tok latest shas previous manifestSha
                     (inr treeSha)
         ++ [EvToast ToastInfo msgCreatingCommit;
             EvCreateCommit tok (OWNER GITHUB_CONFIG) (REPO GITHUB_CONFIG) commitText
                            treeSha [latest] (inr c);
             EvToast ToastInfo msgUpdatingRef]).
      rewrite <- app_assoc. reflexivity. }
  split.
  - split.
    + intros Hin. exact (proj1 (proj2 (Hinv _ Hin))).
    + intros Hok.
      destruct (publish_ok_inv W Err GITHUB_CONFIG lib remote params w Hok)
        as (token & latest & shas & previous & manifestSha & treeSha & commitSha & _ & ->).
      apply in_or_app. right. cbn. tauto.
  - intros message Hin. destruct (Hinv _ Hin) as (Hm & _ & Hshape). auto.
Qed.

Lemma parseWarning_In (previous : option string) (updated : list MusicItem)
    (message : string) :
  In (EvConsoleError (Err := Err) message) (parseWarning lib previous updated) <->
  message = msgParseFailed
  /\ exists text,
       previous = Some text /\ text <> EmptyString /\ tryStale lib text updated = None.
Proof.
  unfold parseWarning. destruct previous as [[|c text]|]; cbn [truthy].
  - split; [intros [] | intros (_ & text & E & Hne & _); congruence].
  - destruct (tryStale lib (String c text) updated) as [deletes|] eqn:Ht.
    + split; [intros [] | intros (_ & text' & E & _ & Hnone)].
      injection E as <-. congruence.
    + split.
      * intros [E|[]]. injection E as <-. split; [reflexivity|].
        exists (String c text). repeat split; [discriminate | assumption].
      * intros (-> & _). now left.
  - split; [intros [] | intros (_ & text & E & _); discriminate].
Qed.

Lemma traceToScan_console (params : PushMusicParams) (token latest : string)
    (shas : list string) (previous : option string) (message : string) :
  In (EvConsoleError message)
     (traceToScan GITHUB_CONFIG lib (Err := Err) params token latest shas previous) ->
  In (EvConsoleError (Err := Err) message)
     (parseWarning lib previous (postRemap lib params)).
Proof.
  unfold traceToScan. rewrite !in_app_iff. intros [H|[H|[H|[H|H]]]].
  - cbn in H. intuition discriminate.
  - pose proof (uploadToast_before params) as Hb. rewrite forallb_forall in Hb.
    specialize (Hb _ H). discriminate.
  - pose proof (blobEvents_before token (plan lib params) shas) as Hb.
    rewrite forallb_forall in Hb. specialize (Hb _ H). discriminate.
  - cbn in H. intuition discriminate.
  - exact H.
Qed.

(** X10.  The console message of the scan is logged exactly when the [try]
    block threw: a publish writes to the console only the message of the
    failed scan, and it does so exactly when the previous manifest it read
    is a non-empty text on which the scan fails.  An absent or empty
    manifest is skipped without a message. *)
Theorem parse_warning_exactly_on_failure (params : PushMusicParams) (w : W) :
  (forall message,
      In (EvConsoleError message) (trace (snd (run params w))) ->
      message = msgParseFailed
      /\ exists text,
           In (inr (Some text)) (manifestReads (trace (snd (run params w))))
           /\ text <> EmptyString
           /\ tryStale lib text (postRemap lib params) = None)
  /\ (forall text,
        In (inr (Some text)) (manifestReads (trace (snd (run params w)))) ->
        text <> EmptyString ->
        tryStale lib text (postRemap lib params) = None ->
        In (EvConsoleError msgParseFailed) (trace (snd (run params w))))
  /\ (In (inr None) (manifestReads (trace (snd (run params w))))
      \/ In (inr (Some EmptyString)) (manifestReads (trace (snd (run params w)))) ->
      forall message, ~ In (EvConsoleError message) (trace (snd (run params w)))).
Proof.
  assert (forall message,
             In (EvConsoleError message) (trace (snd (run params w))) ->
             exists previous,
               manifestReads (trace (snd (run params w))) = [inr previous]
               /\ In (EvConsoleError (Err := Err) message)
                     (parseWarning lib previous (postRemap lib params))) as Hinv.
  { intros message Hin.
    destruct (publish_phases params w)
      as [(Hbefore & _)|[(tok & latest & shas & previous & e & Hlen & Htr & _)
                        |(tok & latest & shas & previous & manifestSha & treeReply & rest
                          & Hlen & Htr & Hafter)]].
    - rewrite forallb_forall in Hbefore. specialize (Hbefore _ Hin). discriminate.
    - exists previous. rewrite Htr in Hin |- *. split.
      + rewrite manifestReads_app.
        destruct (traceToScan_queries Err GITHUB_CONFIG lib params tok latest shas previous
                    Hlen) as (_ & -> & _).
        reflexivity.
      + apply in_app_or in Hin as [Hin|[Hin|[]]]; [|discriminate].
        exact (traceToScan_console _ _ _ _ _ _ Hin).
    - exists previous. rewrite Htr in Hin |- *. split.
      + rewrite manifestReads_app.
        destruct (traceToTree_queries Err GITHUB_CONFIG lib params tok latest shas previous
                    manifestSha treeReply Hlen) as (_ & -> & _).
        destruct (AfterTree_quiet Err GITHUB_CONFIG _ _ _ _ _ Hafter) as (_ & _ & ->).
        reflexivity.
      + apply in_app_or in Hin as [Hin|Hin].
        * unfold traceToTree in Hin. apply in_app_or in Hin as [Hin|Hin].
          -- exact (traceToScan_console _ _ _ _ _ _ Hin).
          -- cbn in Hin. intuition discriminate.
        * exfalso. destruct Hafter; cbn in Hin; intuition discriminate. }
  split; [|split].
  - intros message Hin. destruct (Hinv _ Hin) as (previous & Hreads & Hw).
    apply parseWarning_In in Hw as (-> & text & -> & Hne & Hnone).
    split; [reflexivity|]. exists text. rewrite Hreads. cbn. auto.
  - intros text Hread Hne Hnone.
    destruct (manifest_read_inv W Err GITHUB_CONFIG lib remote params w _ Hread)
      as (token & latest & shas & reply & rest & _ & ->).
    apply in_or_app. left. unfold traceToScan. rewrite !in_app_iff.
    do 4 right. apply parseWarning_In. split; [reflexivity|]. exists text. auto.
  - intros Hread message Hin. destruct (Hinv _ Hin) as (previous & Hreads & Hw).
    apply parseWarning_In in Hw as (_ & text & -> & Hne & _).
    rewrite Hreads in Hread. cbn in Hread.
    destruct Hread as [[H|[]]|[H|[]]]; [discriminate H|].
    injection H as E. congruence.
Qed.

(** X11.  A supplied hash is trusted.  When two pending uploads carry the
    same non-empty [hash], whatever their bytes, the second is not
    uploaded: the plan is that of the call without it, and if the hash does
    not occur earlier the only planned upload under that hash is the first
    file.  A publish that returns normally has created blobs from the
    planned files and the manifest only, and every add entry of a tree
    request comes from a planned upload. *)
Theorem supplied_hash_is_trusted (params : PushMusicParams) (w : W)
    (pre mid post : list (string * MusicFileItem)) (k1 k2 : string)
    (i1 i2 : MusicFileItem) (f1 f2 : File.t) (h : string) :
  pendingEntries params = pre ++ (k1, i1) :: mid ++ (k2, i2) :: post ->
  file i1 = Some f1 -> file i2 = Some f2 ->
  hash i1 = Some h -> hash i2 = Some h -> h <> EmptyString ->
  ~ In h (hashesOf lib pre) ->
  plan lib params = freshUploads lib (pre ++ (k1, i1) :: mid ++ post) StrSet.empty
  /\ (forall f, In (f, h) (plan lib params) -> f = f1)
  /\ (fst (run params w) = inr tt ->
      blobRequests (trace (snd (run params w)))
      = map (fun u => fileToBase64NoPrefix lib (fst u)) (plan lib params)
        ++ [manifestContent lib params])
  /\ (forall items it,
        In items (treeRequests (trace (snd (run params w)))) ->
        In it items -> sha it <> None -> path it <> manifestPath ->
        exists u blobSha, In u (plan lib params) /\ it = addItem u blobSha).
Proof.
  intros Hentries H1 H2 Hh1 Hh2 Hne Hnew.
  assert (hashOf lib i1 f1 = h) as E1.
  { unfold hashOf. rewrite Hh1. destruct h; [congruence | reflexivity]. }
  assert (hashOf lib i2 f2 = h) as E2.
  { unfold hashOf. rewrite Hh2. destruct h; [congruence | reflexivity]. }
  assert (plan lib params
          = freshUploads lib (pre ++ (k1, i1) :: mid ++ post) StrSet.empty) as Hplan.
  { unfold plan. rewrite Hentries.
    apply (duplicate_not_planned lib pre mid post k1 k2 i1 i2 f1 f2 H1 H2). congruence. }
  split; [exact Hplan|]. split; [|split].
  - intros f Hin. rewrite Hplan, freshUploads_app in Hin.
    apply in_app_or in Hin as [Hin|Hin].
    + exfalso. apply Hnew.
      apply (freshUploads_hashes lib pre StrSet.empty). apply in_map_iff.
      exists (f, h). auto.
    + cbn [freshUploads] in Hin. rewrite H1, E1 in Hin.
      assert (StrSet.has (seenAfter lib pre StrSet.empty) h = false) as Hfresh.
      { apply has_false. rewrite seenAfter_In. intros [[]|H]. contradiction. }
      rewrite Hfresh in Hin. destruct Hin as [E|Hin]; [congruence|].
      exfalso.
      assert (In h (map snd (freshUploads lib (mid ++ post)
                               (StrSet.add h (seenAfter lib pre StrSet.empty))))) as Hh.
      { apply in_map_iff. exists (f, h). auto. }
      apply (freshUploads_hashes lib) in Hh as [_ Hnot]. apply Hnot.
      apply add_In. now left.
  - intros Hok.
    destruct (publish_ok_inv W Err GITHUB_CONFIG lib remote params w Hok)
      as (token & latest & shas & previous & manifestSha & treeSha & commitSha & Hlen & ->).
    rewrite blobRequests_app.
    destruct (traceToTree_queries Err GITHUB_CONFIG lib params token latest shas previous
                manifestSha (inr treeSha) Hlen) as (_ & _ & ->).
    cbn. now rewrite app_nil_r.
  - intros items it Hitems Hit Hsha Hpath.
    destruct (manifest_blob_in_trace params w items Hitems)
      as (token & shas & previous & manifestSha & _ & -> & _).
    unfold treeEntries in Hit. rewrite !in_app_iff in Hit.
    destruct Hit as [Hit|[Hit|[<-|[]]]].
    + apply addItems_In in Hit as (u & blobSha & Hc & ->).
      exists u, blobSha. split; [|reflexivity]. exact (in_combine_l _ _ _ _ Hc).
    + apply staleOf_In in Hit as (u & -> & _). now destruct Hsha.
    + now destruct Hpath.
Qed.

End PublishFacts.

(** ** [convertLocalMusicToFile]: from a stored data url to a file *)

Lemma split_nonempty (sep : ascii) (s : string) : JsText.split sep s <> [].
Proof.
  destruct s as [|c r]; cbn; [discriminate|].
  destruct (Ascii.eqb c sep); [discriminate|].
  destruct (JsText.split sep r); discriminate.
Qed.

(** A text without the separator is one piece. *)
Lemma split_plain (sep : ascii) (s : string) :
  ~ In sep (list_ascii_of_string s) -> JsText.split sep s = [s].
Proof.
  induction s as [|c r IH]; intros H; [reflexivity|].
  cbn [JsText.split]. cbn in H.
  destruct (Ascii.eqb c sep) eqn:E.
  - apply Ascii.eqb_eq in E. tauto.
  - rewrite IH by tauto. reflexivity.
Qed.

(** The first piece ends at the first separator. *)
Lemma split_at_first (sep : ascii) (a s : string) :
  ~ In sep (list_ascii_of_string a) ->
  JsText.split sep (a ++ String sep s) = a :: JsText.split sep s.
Proof.
  induction a as [|c r IH]; intros H.
  - cbn. now rewrite Ascii.eqb_refl.
  - cbn [append JsText.split]. cbn in H.
    destruct (Ascii.eqb c sep) eqn:E.
    + apply Ascii.eqb_eq in E. tauto.
    + rewrite IH by tauto. reflexivity.
Qed.

Lemma orElse_nonempty (s y : string) : s <> EmptyString -> JsText.orElse (Some s) y = s.
Proof. destruct s; [congruence | reflexivity]. Qed.

(** The second piece of [head,payload...] is the payload up to its own
    first separator. *)
Lemma second_piece (sep : ascii) (a payload : string) :
  ~ In sep (list_ascii_of_string a) ->
  ~ In sep (list_ascii_of_string payload) ->
  nth_error (JsText.split sep (a ++ String sep payload)) 1 = Some payload.
Proof.
  intros Ha Hp. rewrite (split_at_first sep a payload Ha), (split_plain sep payload Hp).
  reflexivity.
Qed.

Section ConvertFacts.

Variable Err : Type.
Variable lib : Helpers.
Variable browser : Browser Err.

(** X12.  A data url [<head>,<payload>] is converted to the file whose bytes are
    the decoded payload and whose name is the track's name followed by a
    dot and the subtype of the MIME type ([mp3] without one); nothing is
    written to the console. *)
Theorem convert_data_url (localMusic : LocalMusicItem.t) (head payload : string)
    (bytes : list Byte.byte) :
  LocalMusicItem.fileData localMusic = Some (head ++ String ","%char payload)%string ->
  ~ In ","%char (list_ascii_of_string head) ->
  ~ In ","%char (list_ascii_of_string payload) ->
  payload <> EmptyString ->
  atob browser payload = Some bytes ->
  convertLocalMusicToFile browser localMusic
  = (Some {| File.name :=
               (LocalMusicItem.name localMusic ++ "."
                ++ extOf (LocalMusicItem.fileType localMusic))%string;
             File.bytes := bytes |},
     []).
Proof.
  intros Hdata Hhead Hpayload Hne Hatob. unfold convertLocalMusicToFile.
  rewrite Hdata.
  assert (truthy (Some (head ++ String ","%char payload)%string)
          = Some (head ++ String ","%char payload)%string) as ->.
  { destruct head; reflexivity. }
  unfold base64DataOf. rewrite (second_piece _ _ _ Hhead Hpayload).
  rewrite (orElse_nonempty _ _ Hne), Hatob. reflexivity.
Qed.

(** X13.  A data url with nothing after its comma is not converted when [atob]
    rejects the whole text, as it does for a text with a comma: the
    fallback hands [atob] the data url itself, the error is logged and the
    result is [null]. *)
Theorem convert_empty_payload (localMusic : LocalMusicItem.t) (head : string) :
  LocalMusicItem.fileData localMusic = Some (head ++ ",")%string ->
  ~ In ","%char (list_ascii_of_string head) ->
  atob browser (head ++ ",")%string = None ->
  convertLocalMusicToFile browser localMusic = (None, [UiConsoleError msgConvertFailed]).
Proof.
  intros Hdata Hhead Hatob. unfold convertLocalMusicToFile. rewrite Hdata.
  assert (truthy (Some (head ++ ",")%string) = Some (head ++ ",")%string) as ->.
  { destruct head; reflexivity. }
  unfold base64DataOf.
  rewrite (second_piece ","%char head EmptyString Hhead) by (intros []).
  cbn [JsText.orElse]. rewrite Hatob. reflexivity.
Qed.

(** The subtype of a MIME type [<type>/<subtype>]. *)
Lemma extOf_subtype (type subtype : string) :
  ~ In "/"%char (list_ascii_of_string type) ->
  ~ In "/"%char (list_ascii_of_string subtype) ->
  subtype <> EmptyString ->
  extOf (Some (type ++ String "/"%char subtype)%string) = subtype.
Proof.
  intros Ht Hs Hne. unfold extOf. rewrite (second_piece _ _ _ Ht Hs).
  exact (orElse_nonempty _ _ Hne).
Qed.

(** X14.  The extension under which the publisher stores a converted local track
    comes from its MIME type alone: for [<type>/<subtype>] it is
    [.<subtype>] when that is a recognised extension, and for a subtype of
    four characters or more it is what [getFileExt] makes of [.<subtype>]
    whatever the track is called -- [.png] for [audio/mpeg]. *)
Theorem converted_extension (localMusic : LocalMusicItem.t) (f : File.t)
    (type subtype : string) :
  fst (convertLocalMusicToFile browser localMusic) = Some f ->
  LocalMusicItem.fileType localMusic = Some (type ++ String "/"%char subtype)%string ->
  ~ In "/"%char (list_ascii_of_string type) ->
  ~ In "/"%char (list_ascii_of_string subtype) ->
  subtype <> EmptyString ->
  File.name f = (LocalMusicItem.name localMusic ++ "." ++ subtype)%string
  /\ (In ("." ++ subtype)%string recognizedExts ->
      getFileExt (File.name f) = ("." ++ subtype)%string)
  /\ (4 <= String.length subtype ->
      getFileExt (File.name f) = getFileExt ("." ++ subtype)).
Proof.
  intros Hconv Htype Ht Hs Hne.
  assert (File.name f = (LocalMusicItem.name localMusic ++ "." ++ subtype)%string) as Hname.
  { unfold convertLocalMusicToFile in Hconv.
    destruct (truthy (LocalMusicItem.fileData localMusic)) as [fileData|]; [|discriminate].
    destruct (atob browser (base64DataOf fileData)) as [bytes|]; [|discriminate].
    cbn in Hconv. injection Hconv as <-. cbn [File.name].
    now rewrite Htype, (extOf_subtype _ _ Ht Hs Hne). }
  rewrite Hname. split; [reflexivity|]. split.
  - intros Hin. exact (ext_of_append _ _ Hin).
  - intros Hlen. unfold getFileExt. rewrite toLowerCase_append.
    rewrite !endsWith_tail by (rewrite toLowerCase_length; cbn; lia).
    reflexivity.
Qed.


End ConvertFacts.

(** ** [thousandsSeparator] *)

Lemma lookahead_short (s : string) : String.length s < 3 -> Regex.lookahead s = None.
Proof.
  destruct s as [|a [|b [|c r]]]; cbn; intros H; try reflexivity. lia.
Qed.

(** On a text of digits the lookahead succeeds exactly when the digits
    come in groups of three. *)
Lemma lookahead_digits (n : nat) :
  forall d : string,
    String.length d < n -> Regex.digits d = true ->
    (Regex.lookahead d <> None <-> (0 < String.length d /\ String.length d mod 3 = 0)).
Proof.
  induction n as [|n IH]; intros d Hlen Hd; [lia|].
  destruct d as [|a [|b [|c r]]];
    try (cbn; split; [congruence | intros [H1 H2]; try lia; discriminate]).
  cbn [Regex.digits] in Hd. apply andb_true_iff in Hd as [Ha Hd].
  apply andb_true_iff in Hd as [Hb Hd]. apply andb_true_iff in Hd as [Hc Hr].
  cbn [Regex.lookahead]. rewrite Ha, Hb, Hc. cbn [andb String.length].
  replace (S (S (S (String.length r))) mod 3) with (String.length r mod 3)
    by (rewrite <- (Nat.Div0.mod_add (String.length r) 1 3);
        f_equal; lia).
  assert (String.length r < n) as Hr' by (cbn in Hlen; lia).
  specialize (IH r Hr' Hr).
  destruct (Regex.lookahead r) as [captures|].
  - split; [|congruence]. intros _. split; [lia|]. apply IH. congruence.
  - destruct r as [|x r'].
    + cbn. split; [auto | congruence].
    + cbn [Regex.digits] in Hr. apply andb_true_iff in Hr as [Hx _].
      assert (Ascii.eqb x "."%char = false) as ->.
      { apply Ascii.eqb_neq. intros ->. discriminate Hx. }
      split; [congruence|]. intros [_ H]. exfalso. apply (proj2 IH); [|reflexivity].
      split; [cbn; lia | exact H].
Qed.

Lemma getSubstitution_plain (matched before after : string) (captures : list string)
    (template : string) :
  includes "$"%char template = false ->
  Regex.getSubstitution matched before after captures template = template.
Proof.
  induction template as [|c r IH]; intros H; [reflexivity|].
  cbn [includes] in H. apply orb_false_iff in H as [Hc Hr].
  cbn [Regex.getSubstitution]. rewrite Hc, (IH Hr). reflexivity.
Qed.

(** What the replacement [$&<sign>] inserts at a matching position, for a
    sign without [$]: the sign. *)
Lemma expansion_plain (before after : string) (captures : list string) (sign : string) :
  includes "$"%char sign = false ->
  Regex.getSubstitution EmptyString before after captures ("$&" ++ sign) = sign.
Proof.
  intros H. cbn. now rewrite getSubstitution_plain.
Qed.

Lemma digits_append (a b : string) :
  Regex.digits (a ++ b) = Regex.digits a && Regex.digits b.
Proof.
  induction a as [|c a IH]; [reflexivity|]. cbn. now rewrite IH, andb_assoc.
Qed.

Lemma digit_is_word (c : ascii) : Regex.isDigit c = true -> Regex.isWord c = true.
Proof. unfold Regex.isWord. now intros ->. Qed.

Lemma digits_no_dot (d : string) : Regex.digits d = true -> includes "."%char d = false.
Proof.
  induction d as [|c d IH]; [reflexivity|]. cbn. intros H.
  apply andb_true_iff in H as [Hc Hd]. rewrite (IH Hd), orb_false_r.
  apply Ascii.eqb_neq. intros ->. discriminate Hc.
Qed.

(** Appending three digits to a number appends the sign and the digits to
    its separated form. *)
Lemma replaceReg_group (replacement sign : string) (a b c : ascii) :
  (forall before after captures,
      Regex.getSubstitution EmptyString before after captures replacement = sign) ->
  Regex.isDigit a = true -> Regex.isDigit b = true -> Regex.isDigit c = true ->
  forall (d before : string) (prev : option ascii),
    d <> EmptyString -> Regex.digits d = true ->
    replaceReg replacement before prev
               (d ++ String a (String b (String c EmptyString)))
    = (replaceReg replacement before prev d
       ++ sign ++ String a (String b (String c EmptyString)))%string.
Proof.
  intros Hsign Ha Hb Hc. induction d as [|x r IH]; intros before prev Hne Hd; [congruence|].
  cbn [Regex.digits] in Hd. apply andb_true_iff in Hd as [Hx Hr].
  cbn [append replaceReg Regex.headOf].
  assert (match Regex.lookahead
                  (String x (r ++ String a (String b (String c EmptyString)))) with
          | Some (group, tail) =>
              Regex.getSubstitution EmptyString before
                (String x (r ++ String a (String b (String c EmptyString))))
                [group; tail] replacement
          | None => EmptyString
          end
          = match Regex.lookahead (String x r) with
            | Some (group, tail) =>
                Regex.getSubstitution EmptyString before (String x r) [group; tail]
                                      replacement
            | None => EmptyString
            end) as Hhere.
  { assert (Regex.digits (String x r) = true) as H1 by (cbn; now rewrite Hx, Hr).
    assert (Regex.digits (String x (r ++ String a (String b (String c EmptyString))))
            = true) as H2.
    { cbn [Regex.digits]. rewrite digits_append, Hx, Hr. cbn. now rewrite Ha, Hb, Hc. }
    pose proof (lookahead_digits _ _ (Nat.lt_succ_diag_r _) H1) as L1.
    pose proof (lookahead_digits _ _ (Nat.lt_succ_diag_r _) H2) as L2.
    cbn [String.length] in L1, L2. rewrite length_append in L2. cbn [String.length] in L2.
    replace (S (String.length r + 3) mod 3) with (S (String.length r) mod 3) in L2
      by (rewrite <- (Nat.Div0.mod_add (S (String.length r)) 1 3); f_equal; lia).
    destruct (Regex.lookahead (String x r)) as [[g1 t1]|];
      destruct (Regex.lookahead
                  (String x (r ++ String a (String b (String c EmptyString)))))
        as [[g2 t2]|].
    - now rewrite !Hsign.
    - exfalso. apply (proj2 L2); [|reflexivity]. split; [lia|].
      apply L1. congruence.
    - exfalso. apply (proj2 L1); [|reflexivity]. split; [lia|].
      apply L2. congruence.
    - reflexivity. }
  rewrite Hhere. rewrite append_assoc. f_equal. cbn [append]. f_equal.
  destruct r as [|y r'].
  - cbn [append replaceReg Regex.headOf]. unfold Regex.nonBoundary, Regex.isWordAt.
    rewrite (digit_is_word _ Hx), (digit_is_word _ Ha), (digit_is_word _ Hb),
      (digit_is_word _ Hc).
    cbn [Bool.eqb Regex.lookahead]. rewrite Ha, Hb, Hc. cbn [andb append].
    rewrite Hsign. reflexivity.
  - apply IH; [discriminate | assumption].
Qed.

(** A text shorter than three characters after its first one has no
    position that matches. *)
Lemma replaceReg_short (replacement before : string) (prev : option ascii) (s : string) :
  String.length s < 3 -> replaceReg replacement before prev s = s.
Proof.
  revert before prev. induction s as [|c r IH]; intros before prev H.
  - cbn. now destruct (Regex.nonBoundary prev None).
  - cbn [replaceReg]. rewrite (lookahead_short _ H).
    rewrite IH by (cbn in H; lia).
    now destruct (Regex.nonBoundary prev (Regex.headOf (String c r))).
Qed.

Lemma join_cons (sep piece : string) (rest : list string) :
  rest <> [] -> join sep (piece :: rest) = (piece ++ sep ++ join sep rest)%string.
Proof. destruct rest; [congruence | reflexivity]. Qed.

Lemma join_split (c : ascii) (s : string) :
  join (String c EmptyString) (JsText.split c s) = s.
Proof.
  induction s as [|d r IH]; [reflexivity|].
  cbn [JsText.split]. pose proof (split_nonempty c r) as Hne.
  destruct (Ascii.eqb d c) eqn:E.
  - apply Ascii.eqb_eq in E. subst d. rewrite (join_cons _ _ _ Hne), IH. reflexivity.
  - destruct (JsText.split c r) as [|p ps]; [congruence|].
    destruct ps as [|q ps].
    + cbn [join] in *. now rewrite <- IH.
    + rewrite join_cons by discriminate. rewrite join_cons in IH by discriminate.
      rewrite <- IH. reflexivity.
Qed.

Lemma includes_In (c : ascii) (s : string) :
  includes c s = false -> ~ In c (list_ascii_of_string s).
Proof.
  induction s as [|d r IH]; cbn; [tauto|]. intros H.
  apply orb_false_iff in H as [Hd Hr]. apply Ascii.eqb_neq in Hd.
  intros [E|Hin]; [congruence | now apply IH].
Qed.

Lemma includes_append (c : ascii) (a b : string) :
  includes c (a ++ b) = includes c a || includes c b.
Proof.
  induction a as [|d a IH]; [reflexivity|]. cbn. now rewrite IH, orb_assoc.
Qed.

(** X16.  Grouping by three, from the right.  For a sign without [$]: a number
    of up to three digits is left as it is, and appending three digits to
    a number appends the sign and those digits to its separated form. *)
Theorem thousands_groups_of_three (sign : string) (d : string) (a b c : ascii) :
  includes "$"%char sign = false ->
  Regex.digits d = true ->
  Regex.isDigit a = true -> Regex.isDigit b = true -> Regex.isDigit c = true ->
  (String.length d <= 3 -> thousandsSeparator (AmountString d) (Some sign) = Text d)
  /\ (d <> EmptyString ->
      forall t,
        thousandsSeparator (AmountString d) (Some sign) = Text t ->
        thousandsSeparator
          (AmountString (d ++ String a (String b (String c EmptyString)))) (Some sign)
        = Text (t ++ sign ++ String a (String b (String c EmptyString)))).
Proof.
  intros Hsign Hd Ha Hb Hc. split.
  - intros Hlen. unfold thousandsSeparator. rewrite (digits_no_dot d Hd). f_equal.
    destruct d as [|x r]; [reflexivity|].
    cbn [Regex.digits] in Hd. apply andb_true_iff in Hd as [Hx _].
    cbn [replaceReg Regex.headOf]. unfold Regex.nonBoundary, Regex.isWordAt.
    rewrite (digit_is_word _ Hx). cbn [Bool.eqb append]. f_equal.
    apply replaceReg_short. cbn in Hlen. lia.
  - intros Hne t Ht. unfold thousandsSeparator in *.
    rewrite (digits_no_dot d Hd) in Ht. injection Ht as <-.
    assert (includes "."%char (d ++ String a (String b (String c EmptyString))) = false)
      as ->.
    { apply digits_no_dot. rewrite digits_append, Hd. cbn. now rewrite Ha, Hb, Hc. }
    f_equal. apply replaceReg_group; try assumption.
    intros before after captures. now apply expansion_plain.
Qed.

(** X17.  What follows the first decimal point is copied as it is: only the part
    before it is separated. *)
Theorem thousands_fraction_untouched (n fraction : string) (sign : option string) :
  includes "."%char n = false ->
  exists t,
    thousandsSeparator (AmountString n) sign = Text t
    /\ thousandsSeparator (AmountString (n ++ String "."%char fraction)) sign
       = Text (t ++ String "."%char fraction).
Proof.
  intros Hn. unfold thousandsSeparator. rewrite Hn.
  eexists. split; [reflexivity|].
  assert (includes "."%char (n ++ String "."%char fraction) = true) as ->.
  { rewrite includes_append. cbn. now rewrite orb_true_r. }
  rewrite (split_at_first "."%char n fraction (includes_In _ _ Hn)).
  f_equal.
  rewrite (join_cons _ _ _ (split_nonempty "."%char fraction)).
  now rewrite (join_split "."%char fraction).
Qed.

Lemma replaceReg_nothing (replacement : string) :
  (forall before after captures,
      Regex.getSubstitution EmptyString before after captures replacement = EmptyString) ->
  forall (s before : string) (prev : option ascii),
    replaceReg replacement before prev s = s.
Proof.
  intros Hnone. induction s as [|c r IH]; intros before prev.
  - cbn [replaceReg]. destruct (Regex.nonBoundary prev (Regex.headOf EmptyString));
      [|reflexivity].
    now destruct (Regex.lookahead EmptyString) as [[g t]|].
  - cbn [replaceReg]. rewrite IH.
    destruct (Regex.nonBoundary prev (Regex.headOf (String c r))); [|reflexivity].
    destruct (Regex.lookahead (String c r)) as [[g t]|]; [|reflexivity].
    now rewrite Hnone.
Qed.

(** X18.  A sign is a replacement pattern, not a literal text: the sign [$&]
    stands for the empty match and separates nothing, whatever the
    argument. *)
Theorem thousands_sign_is_a_pattern (n : string) :
  thousandsSeparator (AmountString n) (Some "$&") = Text n
  /\ thousandsSeparator (AmountNumber n) (Some "$&") = Text n.
Proof.
  assert (forall s before prev, replaceReg "$&$&" before prev s = s) as Hid.
  { apply replaceReg_nothing. reflexivity. }
  unfold thousandsSeparator. cbn [append].
  destruct (includes "."%char n).
  - pose proof (split_nonempty "."%char n) as Hne.
    pose proof (join_split "."%char n) as Hjoin.
    destruct (JsText.split "."%char n) as [|p ps]; [congruence|].
    rewrite Hid. cbn [append] in Hjoin. rewrite Hjoin. auto.
  - rewrite Hid. auto.
Qed.

Lemma thousands_groups_of_three_witness :
  thousandsSeparator (AmountString "1234567") (Some " ") = Text "1 234 567".
Proof.
  assert (thousandsSeparator (AmountString "1234") (Some " ") = Text "1 234") as H
      by reflexivity.
  exact (proj2 (thousands_groups_of_three " " "1234" "5" "6" "7"
                  eq_refl eq_refl eq_refl eq_refl eq_refl)
               ltac:(discriminate) "1 234" H).
Defined.

Lemma thousands_fraction_untouched_witness :
  exists t,
    thousandsSeparator (AmountString "1234567") None = Text t
    /\ thousandsSeparator (AmountString "1234567.8915") None = Text (t ++ ".8915").
Proof.
  exact (thousands_fraction_untouched "1234567" "8915" None eq_refl).
Defined.


(** ** [handleSyncToGitHub]: from the local tracks to the committed manifest *)

Lemma mapSet_new (V : Type) (key : string) (value : V) (m : list (string * V)) :
  ~ In key (map fst m) -> JsText.mapSet key value m = m ++ [(key, value)].
Proof.
  induction m as [|[k v] m IH]; intros H; [reflexivity|].
  cbn [JsText.mapSet]. cbn in H.
  destruct (String.eqb k key) eqn:E.
  - apply String.eqb_eq in E. tauto.
  - rewrite IH by tauto. reflexivity.
Qed.

Lemma mapSet_keys (V : Type) (key : string) (value : V) (m : list (string * V)) :
  In key (map fst m) -> map fst (JsText.mapSet key value m) = map fst m.
Proof.
  induction m as [|[k v] m IH]; intros H; [destruct H|].
  cbn [JsText.mapSet]. destruct (String.eqb k key) eqn:E; [reflexivity|].
  cbn [map fst]. f_equal. apply IH. destruct H as [H|H]; [|assumption].
  cbn in H. subst k. rewrite String.eqb_refl in E. discriminate.
Qed.

Lemma mapSet_keys_cases (V : Type) (key : string) (value : V) (m : list (string * V)) :
  map fst (JsText.mapSet key value m) = map fst m
  \/ (~ In key (map fst m) /\ map fst (JsText.mapSet key value m) = map fst m ++ [key]).
Proof.
  destruct (in_dec string_dec key (map fst m)) as [H|H].
  - left. now apply mapSet_keys.
  - right. split; [assumption|]. rewrite (mapSet_new _ _ _ _ H), map_app. reflexivity.
Qed.

Lemma mapSet_has_key (V : Type) (key : string) (value : V) (m : list (string * V)) :
  In key (map fst (JsText.mapSet key value m)).
Proof.
  destruct (mapSet_keys_cases V key value m) as [E|[H E]]; rewrite E.
  - destruct (in_dec string_dec key (map fst m)) as [Hin|Hout]; [assumption|].
    rewrite (mapSet_new _ _ _ _ Hout), map_app in E. cbn in E.
    apply (f_equal (@length string)) in E. rewrite length_app in E. cbn in E. lia.
  - apply in_or_app. right. now left.
Qed.

Lemma mapSet_keeps_keys (V : Type) (key : string) (value : V) (m : list (string * V))
    (k : string) :
  In k (map fst m) -> In k (map fst (JsText.mapSet key value m)).
Proof.
  intros H. destruct (mapSet_keys_cases V key value m) as [E|[_ E]]; rewrite E.
  - assumption.
  - apply in_or_app. now left.
Qed.

Lemma mapSet_NoDup (V : Type) (key : string) (value : V) (m : list (string * V)) :
  NoDup (map fst m) -> NoDup (map fst (JsText.mapSet key value m)).
Proof.
  intros H. destruct (mapSet_keys_cases V key value m) as [E|[Hout E]]; rewrite E.
  - assumption.
  - apply NoDup_app; [assumption | repeat constructor; intros [] |].
    intros k Hk [<-|[]]. contradiction.
Qed.

Lemma mapSet_In (V : Type) (key : string) (value : V) (m : list (string * V))
    (k : string) (v : V) :
  In (k, v) (JsText.mapSet key value m) -> (k = key /\ v = value) \/ In (k, v) m.
Proof.
  induction m as [|[k' v'] m IH]; cbn [JsText.mapSet].
  - intros [E|[]]. injection E as <- <-. now left.
  - destruct (String.eqb k' key) eqn:E.
    + apply String.eqb_eq in E. subst k'. intros [H|H].
      * injection H as <- <-. now left.
      * right. now right.
    + intros [H|H]; [right; now left|].
      destruct (IH H) as [?|?]; [now left | right; now right].
Qed.

Section SyncFacts.

Variables W Err : Type.
Variable GITHUB_CONFIG : GithubConfig.
Variable lib : Helpers.
Variable browser : Browser Err.
Variable remote : Remote W Err.

Lemma convertedTracks_In (l : list LocalMusicItem.t) (localMusic : LocalMusicItem.t)
    (f : File.t) :
  In (localMusic, f) (convertedTracks browser l) <->
  In localMusic l /\ fst (convertLocalMusicToFile browser localMusic) = Some f.
Proof.
  induction l as [|x l IH]; cbn [convertedTracks In]; [tauto|].
  destruct (fst (convertLocalMusicToFile browser x)) as [g|] eqn:E.
  - cbn [In]. rewrite IH. split.
    + intros [H|[H1 H2]]; [injection H as <- <-; auto | auto].
    + intros [[<-|H1] H2]; [left; congruence | auto].
  - rewrite IH. split.
    + intros [H1 H2]; auto.
    + intros [[<-|H1] H2]; [congruence | auto].
Qed.

Lemma convertedTracks_length (l : list LocalMusicItem.t) :
  length (convertedTracks browser l) <= length l.
Proof.
  induction l as [|x l IH]; cbn; [lia|].
  destruct (fst (convertLocalMusicToFile browser x)); cbn; lia.
Qed.

(** The loop of the handler computes its bookkeeping. *)
Lemma syncLoop_fold (l : list LocalMusicItem.t) :
  forall st : SyncState Err,
    fold_left (syncOne lib browser) l st
    = {| syncFileItems :=
           syncedEntries lib browser (readings st) (convertedTracks browser l)
                         (syncFileItems st);
         musicItemsToSync :=
           musicItemsToSync st
           ++ syncedItems lib browser (readings st) (convertedTracks browser l);
         readings := readings st + length (convertedTracks browser l);
         consoleOutput :=
           consoleOutput st
           ++ flat_map (fun localMusic => snd (convertLocalMusicToFile browser localMusic)) l |}.
Proof.
  induction l as [|x l IH]; intros st.
  - cbn. rewrite !app_nil_r, Nat.add_0_r. now destruct st.
  - cbn [fold_left convertedTracks flat_map]. rewrite IH. unfold syncOne.
    destruct (truthy (LocalMusicItem.fileData x)) as [fileData|] eqn:Ht.
    + destruct (convertLocalMusicToFile browser x) as [[f|] output] eqn:Hc;
        cbn [fst snd syncFileItems musicItemsToSync readings consoleOutput
             syncedEntries syncedItems length].
      * rewrite <- !app_assoc. cbn [app]. unfold tempUrlOf, syncItemOf.
        f_equal. lia.
      * rewrite <- !app_assoc. reflexivity.
    + assert (convertLocalMusicToFile browser x = (None, [])) as ->.
      { unfold convertLocalMusicToFile. now rewrite Ht. }
      reflexivity.
Qed.

Lemma syncLoop_run (l : list LocalMusicItem.t) :
  syncFileItems (syncLoop lib browser l)
  = syncedEntries lib browser 0 (convertedTracks browser l) []
  /\ musicItemsToSync (syncLoop lib browser l)
     = syncedItems lib browser 0 (convertedTracks browser l).
Proof. unfold syncLoop. rewrite syncLoop_fold. auto. Qed.

Lemma syncParams_entries (saved : list MusicItem) (st : SyncState Err) :
  pendingEntries (syncParams saved st) = syncFileItems st.
Proof. unfold pendingEntries, syncParams. cbn. now destruct (syncFileItems st). Qed.

Lemma syncedItems_names (tracks : list (LocalMusicItem.t * File.t)) :
  forall n : nat,
    map name (syncedItems lib browser n tracks)
    = map (fun t => LocalMusicItem.name (fst t)) tracks.
Proof.
  induction tracks as [|[localMusic f] rest IH]; intros n; [reflexivity|].
  cbn. now rewrite IH.
Qed.

Lemma syncedItems_length (tracks : list (LocalMusicItem.t * File.t)) :
  forall n : nat, length (syncedItems lib browser n tracks) = length tracks.
Proof.
  induction tracks as [|[localMusic f] rest IH]; intros n; [reflexivity|].
  cbn. now rewrite IH.
Qed.

Lemma syncedEntries_keeps (tracks : list (LocalMusicItem.t * File.t)) :
  forall (n : nat) (acc : list (string * MusicFileItem)) (k : string),
    In k (map fst acc) -> In k (map fst (syncedEntries lib browser n tracks acc)).
Proof.
  induction tracks as [|[localMusic f] rest IH]; intros n acc k H; [assumption|].
  cbn [syncedEntries]. apply IH. now apply mapSet_keeps_keys.
Qed.

(** Every transient url the loop hands out is a key of the [Map]. *)
Lemma syncedItems_keys (tracks : list (LocalMusicItem.t * File.t)) :
  forall (n : nat) (acc : list (string * MusicFileItem)) (m : MusicItem),
    In m (syncedItems lib browser n tracks) ->
    In (url m) (map fst (syncedEntries lib browser n tracks acc)).
Proof.
  induction tracks as [|[localMusic f] rest IH]; intros n acc m H; [destruct H|].
  cbn [syncedItems syncedEntries] in *. destruct H as [<-|H].
  - cbn [url]. apply syncedEntries_keeps, mapSet_has_key.
  - now apply IH.
Qed.

Lemma syncedEntries_NoDup (tracks : list (LocalMusicItem.t * File.t)) :
  forall (n : nat) (acc : list (string * MusicFileItem)),
    NoDup (map fst acc) -> NoDup (map fst (syncedEntries lib browser n tracks acc)).
Proof.
  induction tracks as [|[localMusic f] rest IH]; intros n acc H; [assumption|].
  cbn [syncedEntries]. apply IH. now apply mapSet_NoDup.
Qed.

(** Every entry of the [Map] carries a converted file under a key that
    starts with [temp-], together with the digest of that file. *)
Lemma syncedEntries_In (tracks : list (LocalMusicItem.t * File.t)) :
  forall (n : nat) (acc : list (string * MusicFileItem)) (k : string) (item : MusicFileItem),
    In (k, item) (syncedEntries lib browser n tracks acc) ->
    In (k, item) acc
    \/ exists i localMusic f,
         In (localMusic, f) tracks /\ k = tempUrlOf lib browser i f
         /\ item = {| file := Some f; hash := Some (hashFileSHA256 lib f) |}.
Proof.
  induction tracks as [|[localMusic f] rest IH]; intros n acc k item H; [now left|].
  cbn [syncedEntries] in H. destruct (IH _ _ _ _ H) as [Hacc|(i & lm & g & Hin & Hk & Hi)].
  - apply mapSet_In in Hacc as [[-> ->]|Hacc]; [|now left].
    right. exists n, localMusic, f. split; [now left | auto].
  - right. exists i, lm, g. split; [now right | auto].
Qed.

(** When the transient urls are pairwise distinct the [Map] holds one entry
    per converted track, in order. *)
Lemma syncedEntries_distinct (tracks : list (LocalMusicItem.t * File.t)) :
  forall (n : nat) (acc : list (string * MusicFileItem)),
    NoDup (map fst acc ++ map url (syncedItems lib browser n tracks)) ->
    syncedEntries lib browser n tracks acc
    = acc ++ combine (map url (syncedItems lib browser n tracks))
                     (map (fun t => {| file := Some (snd t);
                                       hash := Some (hashFileSHA256 lib (snd t)) |}) tracks).
Proof.
  induction tracks as [|[localMusic f] rest IH]; intros n acc H.
  - cbn. now rewrite app_nil_r.
  - cbn [syncedEntries syncedItems map url combine snd] in *.
    assert (~ In (tempUrlOf lib browser n f) (map fst acc)) as Hout.
    { intros Hin. apply NoDup_remove_2 in H. apply H. apply in_or_app. now left. }
    rewrite (mapSet_new _ _ _ _ Hout). rewrite IH.
    + rewrite <- app_assoc. reflexivity.
    + rewrite map_app. cbn [map fst]. rewrite <- app_assoc. exact H.
Qed.

Lemma hashOf_syncItem (f : File.t) :
  hashOf lib {| file := Some f; hash := Some (hashFileSHA256 lib f) |} f
  = sha256Hex lib (File.bytes f).
Proof.
  unfold hashOf, hashFileSHA256. cbn [hash]. now destruct (sha256Hex lib (File.bytes f)).
Qed.

Lemma tempUrl_prefix (n : nat) (f : File.t) :
  Js.startsWith (tempUrlOf lib browser n f) "temp-" = true.
Proof.
  unfold tempUrlOf, Js.startsWith. cbn.
  now destruct (dateNow browser n ++ String "-" (hashFileSHA256 lib f))%string.
Qed.

Lemma syncedEntries_key_prefix (tracks : list (LocalMusicItem.t * File.t)) (k : string) :
  In k (map fst (syncedEntries lib browser 0 tracks [])) -> Js.startsWith k "temp-" = true.
Proof.
  intros H. apply in_map_iff in H as ([k' item] & <- & H).
  apply syncedEntries_In in H as [[]|(i & lm & f & _ & -> & _)]. apply tempUrl_prefix.
Qed.

(** A transient url of the loop ends at the public path of a converted
    file, addressed by the digest of its bytes. *)
Lemma synced_url_final (tracks : list (LocalMusicItem.t * File.t)) (k : string) :
  In k (map fst (syncedEntries lib browser 0 tracks [])) ->
  exists localMusic f,
    In (localMusic, f) tracks
    /\ In (k, {| file := Some f; hash := Some (hashFileSHA256 lib f) |})
          (syncedEntries lib browser 0 tracks [])
    /\ finalUrl lib (syncedEntries lib browser 0 tracks []) k
       = ("/music/" ++ sha256Hex lib (File.bytes f) ++ getFileExt (File.name f))%string.
Proof.
  intros Hk. pose proof Hk as Hk'. apply in_map_iff in Hk' as ([k' item] & E & Hin).
  cbn in E. subst k'.
  destruct (syncedEntries_In _ _ _ _ _ Hin) as [[]|(i & lm & f & Ht & Hki & ->)].
  exists lm, f. split; [assumption|]. split; [assumption|].
  destruct (in_split _ _ Hin) as (pre & post & Hsplit).
  pose proof (syncedEntries_NoDup tracks 0 [] (NoDup_nil _)) as Hnd.
  rewrite Hsplit in Hnd |- *.
  rewrite (finalUrl_key lib pre post k
             {| file := Some f; hash := Some (hashFileSHA256 lib f) |} f eq_refl Hnd).
  - unfold publicPathOf, filenameOf. now rewrite hashOf_syncItem.
  - rewrite <- Hsplit. intros Hp. apply syncedEntries_key_prefix in Hp. discriminate.
Qed.

Lemma sync_postRemap (saved : list MusicItem) (l : list LocalMusicItem.t) :
  postRemap lib (syncParams saved (syncLoop lib browser l))
  = map (fun m => {| name := name m;
                     url := finalUrl lib (syncedEntries lib browser 0
                                            (convertedTracks browser l) [])
                                     (url m) |})
        (saved ++ syncedItems lib browser 0 (convertedTracks browser l)).
Proof.
  unfold postRemap. rewrite syncParams_entries.
  destruct (syncLoop_run l) as (-> & Hitems).
  unfold syncParams. cbn [musicList]. rewrite Hitems. apply remapAll_map.
Qed.

(** The list a sync hands to the publisher, after the publisher's remap:
    the saved tracks, then one track per converted local track under its
    own name and at a public path. *)
Lemma sync_committed_list (saved : list MusicItem) (l : list LocalMusicItem.t) :
  map name (postRemap lib (syncParams saved (syncLoop lib browser l)))
  = map name saved
    ++ map (fun t => LocalMusicItem.name (fst t)) (convertedTracks browser l)
  /\ (forall n m,
        nth_error saved n = Some m -> Js.startsWith (url m) "temp-" = false ->
        nth_error (postRemap lib (syncParams saved (syncLoop lib browser l))) n = Some m)
  /\ (forall n m',
        nth_error (postRemap lib (syncParams saved (syncLoop lib browser l)))
                  (length saved + n) = Some m' ->
        exists localMusic f,
          In localMusic l
          /\ fst (convertLocalMusicToFile browser localMusic) = Some f
          /\ url m'
             = ("/music/" ++ sha256Hex lib (File.bytes f) ++ getFileExt (File.name f))%string).
Proof.
  rewrite sync_postRemap. split; [|split].
  - rewrite map_map. cbn [name]. rewrite map_app, syncedItems_names. reflexivity.
  - intros n m Hn Hm. rewrite nth_error_map, nth_error_app1
      by (apply nth_error_Some; congruence).
    rewrite Hn. cbn. rewrite finalUrl_other; [now destruct m|].
    intros Hk. apply syncedEntries_key_prefix in Hk. congruence.
  - intros n m' Hn. rewrite map_app, nth_error_app2 in Hn by (rewrite length_map; lia).
    rewrite length_map in Hn. replace (length saved + n - length saved) with n in Hn by lia.
    rewrite nth_error_map in Hn.
    destruct (nth_error (syncedItems lib browser 0 (convertedTracks browser l)) n)
      as [m|] eqn:Hm; [|discriminate].
    cbn in Hn. injection Hn as <-. cbn [url].
    apply nth_error_In in Hm.
    pose proof (syncedItems_keys _ 0 [] m Hm) as Hk.
    destruct (synced_url_final _ _ Hk) as (lm & f & Ht & _ & E).
    apply convertedTracks_In in Ht as [H1 H2]. exists lm, f. auto.
Qed.

Lemma syncedItems_nth (tracks : list (LocalMusicItem.t * File.t)) :
  forall (i n : nat) (localMusic : LocalMusicItem.t) (f : File.t),
    nth_error tracks n = Some (localMusic, f) ->
    nth_error (syncedItems lib browser i tracks) n
    = Some {| name := LocalMusicItem.name localMusic;
              url := tempUrlOf lib browser (i + n) f |}.
Proof.
  induction tracks as [|[lm g] rest IH]; intros i [|n] localMusic f H; try discriminate.
  - cbn in H. injection H as -> ->. cbn. now rewrite Nat.add_0_r.
  - cbn in H. cbn [syncedItems nth_error]. rewrite (IH (S i) n _ _ H).
    replace (S i + n) with (i + S n) by lia. reflexivity.
Qed.

Lemma combine_nth_error (A B : Type) (a : list A) :
  forall (b : list B) (n : nat) (x : A) (y : B),
    nth_error a n = Some x -> nth_error b n = Some y ->
    nth_error (combine a b) n = Some (x, y).
Proof.
  induction a as [|a0 a IH]; intros [|b0 b] [|n] x y Ha Hb; try discriminate.
  - cbn in *. congruence.
  - cbn in *. now apply IH.
Qed.

(** With pairwise distinct transient urls every converted track ends at
    the public path of its own file. *)
Lemma sync_own_paths (saved : list MusicItem) (l : list LocalMusicItem.t) :
  NoDup (map url (syncedItems lib browser 0 (convertedTracks browser l))) ->
  forall n localMusic f,
    nth_error (convertedTracks browser l) n = Some (localMusic, f) ->
    nth_error (postRemap lib (syncParams saved (syncLoop lib browser l))) (length saved + n)
    = Some {| name := LocalMusicItem.name localMusic;
              url := ("/music/" ++ sha256Hex lib (File.bytes f)
                      ++ getFileExt (File.name f))%string |}.
Proof.
  intros Hnd n localMusic f Hn. rewrite sync_postRemap.
  rewrite map_app, nth_error_app2 by (rewrite length_map; lia).
  rewrite length_map. replace (length saved + n - length saved) with n by lia.
  rewrite nth_error_map, (syncedItems_nth _ 0 n _ _ Hn). cbn [option_map name url].
  do 2 f_equal. cbn [Nat.add].
  pose proof (syncedEntries_distinct (convertedTracks browser l) 0 [] Hnd) as Hentries.
  cbn [app] in Hentries.
  assert (nth_error (syncedEntries lib browser 0 (convertedTracks browser l) []) n
          = Some (tempUrlOf lib browser n f,
                  {| file := Some f; hash := Some (hashFileSHA256 lib f) |})) as Hentry.
  { rewrite Hentries. apply combine_nth_error.
    - rewrite nth_error_map, (syncedItems_nth _ 0 n _ _ Hn). reflexivity.
    - rewrite nth_error_map, Hn. reflexivity. }
  destruct (nth_error_split _ _ Hentry) as (pre & post & Hsplit & _).
  pose proof (syncedEntries_NoDup (convertedTracks browser l) 0 [] (NoDup_nil _)) as Hkeys.
  assert (forall k, In k (map fst (syncedEntries lib browser 0 (convertedTracks browser l) []))
                    -> Js.startsWith k "temp-" = true) as Hprefix.
  { intros k. apply syncedEntries_key_prefix. }
  rewrite Hsplit in Hkeys, Hprefix |- *.
  rewrite (finalUrl_key lib pre post (tempUrlOf lib browser n f)
             {| file := Some f; hash := Some (hashFileSHA256 lib f) |} f eq_refl Hkeys).
  - unfold publicPathOf, filenameOf. now rewrite hashOf_syncItem.
  - intros Hp. apply Hprefix in Hp. discriminate.
Qed.

Lemma publisherEvents_app (a b : list (UiEvent Err)) :
  publisherEvents (a ++ b) = publisherEvents a ++ publisherEvents b.
Proof.
  induction a as [|ev a IH]; [reflexivity|]. destruct ev; cbn; now rewrite ?IH.
Qed.

Lemma publisherEvents_map (tr : list (Event Err)) :
  publisherEvents (map UiPublisher tr) = tr.
Proof. induction tr as [|ev tr IH]; [reflexivity|]. cbn. now rewrite IH. Qed.

Lemma convert_output (localMusic : LocalMusicItem.t) :
  snd (convertLocalMusicToFile browser localMusic) = []
  \/ snd (convertLocalMusicToFile browser localMusic) = [UiConsoleError msgConvertFailed].
Proof.
  unfold convertLocalMusicToFile.
  destruct (truthy (LocalMusicItem.fileData localMusic)) as [fileData|]; [|now left].
  destruct (atob browser (base64DataOf fileData)); [now left | now right].
Qed.

(** The loop writes nothing but conversion failures to the console. *)
Lemma syncLoop_output (l : list LocalMusicItem.t) (ev : UiEvent Err) :
  In ev (consoleOutput (syncLoop lib browser l)) -> ev = UiConsoleError msgConvertFailed.
Proof.
  unfold syncLoop. rewrite syncLoop_fold. cbn [consoleOutput syncStart app].
  intros H. apply in_flat_map in H as (lm & _ & H).
  destruct (convert_output lm) as [E|E]; rewrite E in H; [destruct H|].
  destruct H as [<-|[]]. reflexivity.
Qed.

Lemma syncLoop_quiet (l : list LocalMusicItem.t) :
  publisherEvents (consoleOutput (syncLoop lib browser l)) = [].
Proof.
  pose proof (syncLoop_output l) as H.
  induction (consoleOutput (syncLoop lib browser l)) as [|ev evs IH]; [reflexivity|].
  rewrite (H ev (or_introl eq_refl)). cbn. apply IH. intros ev' Hin. apply H. now right.
Qed.

Local Abbreviation sync isAuth keyInput l saved w :=
  (handleSyncToGitHub GITHUB_CONFIG lib browser remote isAuth keyInput l saved w).

Local Abbreviation published l saved w :=
  (publish GITHUB_CONFIG lib remote (syncParams saved (syncLoop lib browser l)) w).

(** The handler, case by case. *)
Lemma sync_cases (isAuth keyInput : bool) (l : list LocalMusicItem.t) (saved : list MusicItem) (w : W) :
  (isAuth = false
   /\ sync isAuth keyInput l saved w = (if keyInput then [UiClickKeyInput] else [], w))
  \/ (isAuth = true /\ l = [] /\ sync isAuth keyInput l saved w = ([UiToastInfo msgNothingToSync], w))
  \/ (isAuth = true /\ l <> []
      /\ fst (published l saved w) = inr tt
      /\ sync isAuth keyInput l saved w
         = ([UiSetIsSyncing true]
            ++ consoleOutput (syncLoop lib browser l)
            ++ map UiPublisher (trace (snd (published l saved w)))
            ++ [UiSetLocalMusicList []; UiRemoveItem STORAGE_KEY;
                UiFetch "/api/music/list"; UiToastSuccess msgSynced]
            ++ [UiSetIsSyncing false],
            world (snd (published l saved w))))
  \/ (isAuth = true /\ l <> []
      /\ exists e,
           fst (published l saved w) = inl e
           /\ sync isAuth keyInput l saved w
              = ([UiSetIsSyncing true]
                 ++ consoleOutput (syncLoop lib browser l)
                 ++ map UiPublisher (trace (snd (published l saved w)))
                 ++ [UiConsoleError msgSyncFailed;
                     UiToastError
                       (msgSyncError
                        ++ JsText.orElse (messageOf browser e) msgUnknownError)]
                 ++ [UiSetIsSyncing false],
                 world (snd (published l saved w)))).
Proof.
  unfold handleSyncToGitHub. destruct isAuth; [|now left]. cbn [negb].
  destruct l as [|x l]; [right; left; auto|].
  destruct (published (x :: l) saved w) as [[e|[]] s] eqn:E; cbn [fst snd].
  - right. right. right. split; [reflexivity|]. split; [discriminate|].
    exists e. auto.
  - right. right. left. split; [reflexivity|]. split; [discriminate|]. auto.
Qed.

(** What the publisher did during a sync is the publish of the converted
    tracks; without authentication or local tracks the publisher is not
    called. *)
Lemma sync_publisher_events (isAuth keyInput : bool) (l : list LocalMusicItem.t)
    (saved : list MusicItem) (w : W) :
  (publisherEvents (fst (sync isAuth keyInput l saved w)) = []
   /\ snd (sync isAuth keyInput l saved w) = w
   /\ (isAuth = false \/ l = []))
  \/ (publisherEvents (fst (sync isAuth keyInput l saved w)) = trace (snd (published l saved w))
      /\ snd (sync isAuth keyInput l saved w) = world (snd (published l saved w))
      /\ isAuth = true /\ l <> []).
Proof.
  destruct (sync_cases isAuth keyInput l saved w)
    as [(Ha & ->)|[(Ha & Hl & ->)|[(Ha & Hl & _ & ->)|(Ha & Hl & e & _ & ->)]]].
  - left. destruct keyInput; auto.
  - left. auto.
  - right. cbn [fst snd]. rewrite !publisherEvents_app, syncLoop_quiet, publisherEvents_map.
    cbn. rewrite app_nil_r. auto.
  - right. cbn [fst snd]. rewrite !publisherEvents_app, syncLoop_quiet, publisherEvents_map.
    cbn. rewrite app_nil_r. auto.
Qed.

Lemma sync_prefix_events (l : list LocalMusicItem.t) (tr : list (Event Err))
    (ev : UiEvent Err) :
  In ev (consoleOutput (syncLoop lib browser l) ++ map UiPublisher tr) ->
  ev = UiConsoleError msgConvertFailed \/ exists pev, ev = UiPublisher pev.
Proof.
  intros H. apply in_app_or in H as [H|H].
  - left. exact (syncLoop_output l ev H).
  - right. apply in_map_iff in H as (pev & <- & _). now exists pev.
Qed.

(** A sync that discarded the local tracks or announced success went
    through a publish that returned normally. *)
Lemma sync_success_inv (isAuth keyInput : bool) (l : list LocalMusicItem.t) (saved : list MusicItem)
    (w : W) (ev : UiEvent Err) :
  In ev (fst (sync isAuth keyInput l saved w)) ->
  (exists l', ev = UiSetLocalMusicList l') \/ (exists key, ev = UiRemoveItem key)
  \/ ev = UiToastSuccess msgSynced ->
  isAuth = true /\ l <> []
  /\ fst (published l saved w) = inr tt
  /\ publisherEvents (fst (sync isAuth keyInput l saved w)) = trace (snd (published l saved w))
  /\ (ev = UiSetLocalMusicList [] \/ ev = UiRemoveItem STORAGE_KEY
      \/ ev = UiToastSuccess msgSynced).
Proof.
  intros Hin Hev.
  assert (forall ev' : UiEvent Err,
             ev' = ev ->
             ev' = UiConsoleError msgConvertFailed \/ (exists pev, ev' = UiPublisher pev)
             \/ (exists b, ev' = UiSetIsSyncing b) \/ ev' = UiClickKeyInput
             \/ (exists msg, ev' = UiToastInfo msg) \/ (exists r, ev' = UiFetch r)
             \/ (exists msg, ev' = UiConsoleError msg) \/ (exists msg, ev' = UiToastError msg) ->
             False) as Hkill.
  { intros ev' -> H.
    destruct Hev as [(? & ->) | [(? & ->) | -> ]];
      decompose [or ex] H; discriminate. }
  destruct (sync_cases isAuth keyInput l saved w)
    as [(Ha & E)|[(Ha & Hl & E)|[(Ha & Hl & Hok & E)|(Ha & Hl & e & Hko & E)]]].
  - exfalso. rewrite E in Hin. destruct keyInput; [|destruct Hin].
    destruct Hin as [Hin|[]]. apply (Hkill _ Hin). tauto.
  - exfalso. rewrite E in Hin. destruct Hin as [Hin|[]].
    apply (Hkill _ Hin). right. right. right. right. left. eauto.
  - split; [assumption|]. split; [assumption|]. split; [assumption|]. split.
    { destruct (sync_publisher_events isAuth keyInput l saved w) as [(_ & _ & [H|H])|(Hp & _)];
        [congruence | contradiction | exact Hp]. }
    rewrite E in Hin. cbn [fst app] in Hin. destruct Hin as [Hin|Hin].
    { exfalso. apply (Hkill _ Hin). right. right. left. eauto. }
    rewrite app_assoc in Hin. apply in_app_or in Hin as [Hin|Hin].
    { exfalso. apply sync_prefix_events in Hin. apply (Hkill ev eq_refl). tauto. }
    cbn in Hin. destruct Hin as [<-|[<-|[Hin|[<-|[Hin|[]]]]]]; auto.
    + exfalso. apply (Hkill _ Hin). do 5 right. left. eauto.
    + exfalso. apply (Hkill _ Hin). right. right. left. eauto.
  - exfalso. rewrite E in Hin. cbn [fst app] in Hin. destruct Hin as [Hin|Hin].
    { apply (Hkill _ Hin). right. right. left. eauto. }
    rewrite app_assoc in Hin. apply in_app_or in Hin as [Hin|Hin].
    { apply sync_prefix_events in Hin. apply (Hkill ev eq_refl). tauto. }
    cbn in Hin. destruct Hin as [Hin|[Hin|[Hin|[]]]].
    + apply (Hkill _ Hin). do 6 right. left. eauto.
    + apply (Hkill _ Hin). do 7 right. eauto.
    + apply (Hkill _ Hin). right. right. left. eauto.
Qed.

(** The manifest blob and the tree entries of a sync that reached the tree
    request. *)
Lemma sync_tree_inv (isAuth keyInput : bool) (l : list LocalMusicItem.t) (saved : list MusicItem)
    (w : W) (items : list TreeItem) :
  In items (treeRequests (publisherEvents (fst (sync isAuth keyInput l saved w)))) ->
  exists token shas previous manifestSha,
    publisherEvents (fst (sync isAuth keyInput l saved w)) = trace (snd (published l saved w))
    /\ length shas = length (plan lib (syncParams saved (syncLoop lib browser l)))
    /\ items = treeEntries lib (syncParams saved (syncLoop lib browser l)) shas previous
                           manifestSha
    /\ In (EvCreateBlob token (OWNER GITHUB_CONFIG) (REPO GITHUB_CONFIG)
                        (manifestContent lib (syncParams saved (syncLoop lib browser l)))
                        "base64" (inr manifestSha))
          (publisherEvents (fst (sync isAuth keyInput l saved w))).
Proof.
  intros Hin.
  destruct (sync_publisher_events isAuth keyInput l saved w) as [(Hp & _)|(Hp & _)];
    rewrite Hp in Hin |- *; [destruct Hin|].
  destruct (manifest_blob_in_trace W Err GITHUB_CONFIG lib remote _ w items Hin)
    as (token & shas & previous & manifestSha & Hlen & Hitems & Hblob).
  exists token, shas, previous, manifestSha. auto.
Qed.

(** X19.  No transient url reaches the manifest of a sync.  The manifest a sync
    commits lists the saved tracks followed by one track per local track
    that could be converted, under that track's name; a saved track whose
    url does not start with [temp-] is committed as it is; and the url of
    every synced track is [/music/<digest><ext>] for the digest and the
    file name of a converted local file. *)
Theorem sync_commits_public_paths (isAuth keyInput : bool) (l : list LocalMusicItem.t)
    (saved : list MusicItem) (w : W) (items : list TreeItem) :
  In items (treeRequests (publisherEvents (fst (sync isAuth keyInput l saved w)))) ->
  exists token manifestSha updated,
    In (EvCreateBlob token (OWNER GITHUB_CONFIG) (REPO GITHUB_CONFIG)
                     (toBase64Utf8 lib (Json.stringifyList Json.tab updated))
                     "base64" (inr manifestSha))
       (publisherEvents (fst (sync isAuth keyInput l saved w)))
    /\ In (manifestItem manifestSha) items
    /\ map name updated
       = map name saved
         ++ map (fun t => LocalMusicItem.name (fst t)) (convertedTracks browser l)
    /\ (forall n m,
          nth_error saved n = Some m -> Js.startsWith (url m) "temp-" = false ->
          nth_error updated n = Some m)
    /\ (forall n m',
          nth_error updated (length saved + n) = Some m' ->
          exists localMusic f,
            In localMusic l
            /\ fst (convertLocalMusicToFile browser localMusic) = Some f
            /\ url m'
               = ("/music/" ++ sha256Hex lib (File.bytes f)
                  ++ getFileExt (File.name f))%string).
Proof.
  intros Hin.
  destruct (sync_tree_inv isAuth keyInput l saved w items Hin)
    as (token & shas & previous & manifestSha & _ & _ & -> & Hblob).
  exists token, manifestSha, (postRemap lib (syncParams saved (syncLoop lib browser l))).
  split; [exact Hblob|]. split.
  { unfold treeEntries. apply in_or_app. right. apply in_or_app. right. now left. }
  apply sync_committed_list.
Qed.

(** X20.  When the transient urls of a sync are pairwise distinct, every
    converted local track is committed at the public path of its own file:
    the digest of its bytes followed by the extension of its file name. *)
Theorem sync_track_paths (isAuth keyInput : bool) (l : list LocalMusicItem.t)
    (saved : list MusicItem) (w : W) (items : list TreeItem) :
  In items (treeRequests (publisherEvents (fst (sync isAuth keyInput l saved w)))) ->
  NoDup (map url (syncedItems lib browser 0 (convertedTracks browser l))) ->
  exists token manifestSha updated,
    In (EvCreateBlob token (OWNER GITHUB_CONFIG) (REPO GITHUB_CONFIG)
                     (toBase64Utf8 lib (Json.stringifyList Json.tab updated))
                     "base64" (inr manifestSha))
       (publisherEvents (fst (sync isAuth keyInput l saved w)))
    /\ In (manifestItem manifestSha) items
    /\ length updated = length saved + length (convertedTracks browser l)
    /\ forall n localMusic f,
         nth_error (convertedTracks browser l) n = Some (localMusic, f) ->
         nth_error updated (length saved + n)
         = Some {| name := LocalMusicItem.name localMusic;
                   url := ("/music/" ++ sha256Hex lib (File.bytes f)
                           ++ getFileExt (File.name f))%string |}.
Proof.
  intros Hin Hnd.
  destruct (sync_tree_inv isAuth keyInput l saved w items Hin)
    as (token & shas & previous & manifestSha & _ & _ & -> & Hblob).
  exists token, manifestSha, (postRemap lib (syncParams saved (syncLoop lib browser l))).
  split; [exact Hblob|]. split.
  { unfold treeEntries. apply in_or_app. right. apply in_or_app. right. now left. }
  split.
  - rewrite sync_postRemap, length_map, length_app, syncedItems_length. reflexivity.
  - exact (sync_own_paths saved l Hnd).
Qed.

Lemma hashesOf_combine (tracks : list (LocalMusicItem.t * File.t)) :
  forall keys : list string,
    length keys = length tracks ->
    hashesOf lib (combine keys
                    (map (fun t => {| file := Some (snd t);
                                      hash := Some (hashFileSHA256 lib (snd t)) |}) tracks))
    = map (fun t => sha256Hex lib (File.bytes (snd t))) tracks.
Proof.
  induction tracks as [|[lm f] rest IH]; intros [|k keys] Hlen; try discriminate;
    [reflexivity|].
  cbn [map combine hashesOf file snd]. rewrite hashOf_syncItem. f_equal.
  apply IH. now injection Hlen.
Qed.

Lemma same_elements_same_length (a b : list string) :
  NoDup a -> NoDup b -> (forall x, In x a <-> In x b) -> length a = length b.
Proof.
  intros Ha Hb H. apply Nat.le_antisymm; apply NoDup_incl_length; try assumption;
    intros x Hx; now apply H.
Qed.

(** X21.  A sync uploads each distinct content once: when the transient urls are
    pairwise distinct, a sync that announces success has created as many
    audio blobs as there are distinct digests among the converted files,
    and the manifest blob. *)
Theorem sync_one_blob_per_digest (isAuth keyInput : bool) (l : list LocalMusicItem.t)
    (saved : list MusicItem) (w : W) :
  In (UiToastSuccess msgSynced) (fst (sync isAuth keyInput l saved w)) ->
  NoDup (map url (syncedItems lib browser 0 (convertedTracks browser l))) ->
  length (blobRequests (publisherEvents (fst (sync isAuth keyInput l saved w))))
  = length (nodup string_dec
              (map (fun t => sha256Hex lib (File.bytes (snd t)))
                   (convertedTracks browser l)))
    + 1.
Proof.
  intros Hok Hnd.
  destruct (sync_success_inv isAuth keyInput l saved w _ Hok) as (_ & _ & Hres & Hp & _); [tauto|].
  rewrite Hp.
  destruct (publish_ok_inv W Err GITHUB_CONFIG lib remote _ w Hres)
    as (token & latest & shas & previous & manifestSha & treeSha & commitSha & Hlen & Htr).
  rewrite Htr, blobRequests_app.
  destruct (traceToTree_queries Err GITHUB_CONFIG lib _ token latest shas previous
              manifestSha (inr treeSha) Hlen) as (_ & _ & ->).
  cbn [blobRequests app]. rewrite app_nil_r, length_app, length_map. cbn [length].
  f_equal. rewrite <- (length_map snd).
  destruct (freshUploads_hashes lib
              (pendingEntries (syncParams saved (syncLoop lib browser l))) StrSet.empty)
    as (Hplan & Hiff).
  apply same_elements_same_length; [exact Hplan | apply NoDup_nodup|].
  intros h. unfold plan. rewrite Hiff, nodup_In, syncParams_entries.
  destruct (syncLoop_run l) as (-> & _).
  pose proof (syncedEntries_distinct (convertedTracks browser l) 0 [] Hnd) as ->.
  cbn [app]. rewrite hashesOf_combine
    by (rewrite length_map; apply syncedItems_length).
  unfold StrSet.empty. cbn [In]. tauto.
Qed.

(** X22.  Local tracks are discarded only after the branch has moved: whenever
    the handler resets the local list it resets it to the empty list and
    removes the stored copy, the publisher's last remote call having been
    the accepted ref update; and without authentication or without local
    tracks the publisher is not called and the remote is left alone. *)
Theorem sync_clears_after_ref_update (isAuth keyInput : bool) (l : list LocalMusicItem.t)
    (saved : list MusicItem) (w : W) :
  (forall l',
      In (UiSetLocalMusicList l') (fst (sync isAuth keyInput l saved w)) ->
      l' = []
      /\ In (UiRemoveItem STORAGE_KEY) (fst (sync isAuth keyInput l saved w))
      /\ exists token commitSha,
           In (EvUpdateRef token (OWNER GITHUB_CONFIG) (REPO GITHUB_CONFIG)
                           ("heads/" ++ BRANCH GITHUB_CONFIG)%string commitSha (inr tt))
              (publisherEvents (fst (sync isAuth keyInput l saved w))))
  /\ (isAuth = false \/ l = [] ->
      publisherEvents (fst (sync isAuth keyInput l saved w)) = []
      /\ snd (sync isAuth keyInput l saved w) = w).
Proof.
  split.
  - intros l' Hin.
    destruct (sync_success_inv isAuth keyInput l saved w _ Hin) as (_ & _ & Hres & Hp & Hev);
      [left; eauto|].
    split; [destruct Hev as [E|[E|E]]; [now injection E | discriminate E | discriminate E]|].
    split.
    + destruct (sync_cases isAuth keyInput l saved w)
        as [(_ & E)|[(_ & _ & E)|[(_ & _ & _ & E)|(_ & _ & e & Hko & _)]]];
        [rewrite E in Hin; destruct keyInput; [destruct Hin as [?|[]]; discriminate
                                              |destruct Hin]
        |rewrite E in Hin; destruct Hin as [?|[]]; discriminate
        | |congruence].
      rewrite E. cbn [fst]. rewrite !in_app_iff. right. right. right. left. cbn. tauto.
    + rewrite Hp.
      destruct (publish_ok_inv W Err GITHUB_CONFIG lib remote _ w Hres)
        as (token & latest & shas & previous & manifestSha & treeSha & commitSha & _ & ->).
      exists token, commitSha. apply in_or_app. right. cbn. tauto.
  - intros Hno.
    destruct (sync_publisher_events isAuth keyInput l saved w) as [(Hp & Hw & _)|(_ & _ & Ha & Hl)].
    + auto.
    + destruct Hno; [congruence | contradiction].
Qed.

(** X23.  A failed sync keeps the local tracks: when the handler shows an error
    toast, the publisher's last call failed, the toast shows the message of
    that error (or the fallback text), the local list is not reset and the
    stored copy is not removed. *)
Theorem sync_failure_keeps_local_tracks (isAuth keyInput : bool) (l : list LocalMusicItem.t)
    (saved : list MusicItem) (w : W) (message : string) :
  In (UiToastError message) (fst (sync isAuth keyInput l saved w)) ->
  (exists pre ev e,
      publisherEvents (fst (sync isAuth keyInput l saved w)) = pre ++ [ev]
      /\ failure ev = Some e
      /\ message
         = (msgSyncError ++ JsText.orElse (messageOf browser e) msgUnknownError)%string)
  /\ (forall l', ~ In (UiSetLocalMusicList l') (fst (sync isAuth keyInput l saved w)))
  /\ (forall key, ~ In (UiRemoveItem key) (fst (sync isAuth keyInput l saved w))).
Proof.
  intros Hin.
  assert (exists e, fst (published l saved w) = inl e
                    /\ message = (msgSyncError
                                  ++ JsText.orElse (messageOf browser e) msgUnknownError)%string
                    /\ publisherEvents (fst (sync isAuth keyInput l saved w))
                       = trace (snd (published l saved w))) as (e & Hko & Hmsg & Hp).
  { destruct (sync_cases isAuth keyInput l saved w)
      as [(_ & E)|[(_ & _ & E)|[(Ha & Hl & _ & E)|(Ha & Hl & e & Hko & E)]]].
    - rewrite E in Hin. destruct keyInput; [|destruct Hin].
      destruct Hin as [?|[]]. discriminate.
    - rewrite E in Hin. destruct Hin as [?|[]]. discriminate.
    - exfalso. rewrite E in Hin. cbn [fst app] in Hin. destruct Hin as [Hin|Hin];
        [discriminate|].
      rewrite app_assoc in Hin. apply in_app_or in Hin as [Hin|Hin].
      + apply sync_prefix_events in Hin as [?|(? & ?)]; discriminate.
      + cbn in Hin. intuition discriminate.
    - exists e. split; [assumption|]. split.
      + rewrite E in Hin. cbn [fst app] in Hin. destruct Hin as [Hin|Hin];
          [discriminate|].
        rewrite app_assoc in Hin. apply in_app_or in Hin as [Hin|Hin].
        * apply sync_prefix_events in Hin as [?|(? & ?)]; discriminate.
        * cbn in Hin. destruct Hin as [?|[Hin|[?|[]]]]; try discriminate.
          now injection Hin.
      + destruct (sync_publisher_events isAuth keyInput l saved w) as [(_ & _ & [H|H])|(Hp & _)];
          [congruence | contradiction | exact Hp]. }
  split; [|split].
  - destruct (disciplined_pushMusic W Err GITHUB_CONFIG lib remote
                (syncParams saved (syncLoop lib browser l)) {| world := w; trace := [] |})
      as (evs & Ht & Hr).
    change (pushMusic GITHUB_CONFIG lib remote (syncParams saved (syncLoop lib browser l))
                      {| world := w; trace := [] |})
      with (published l saved w) in *.
    rewrite Hko in Hr. destruct Hr as (pre & ev & -> & _ & Hfail).
    exists pre, ev, e. rewrite Hp, Ht. auto.
  - intros l' Hl'.
    destruct (sync_success_inv isAuth keyInput l saved w _ Hl') as (_ & _ & Hres & _);
      [left; eauto | congruence].
  - intros key Hkey.
    destruct (sync_success_inv isAuth keyInput l saved w _ Hkey) as (_ & _ & Hres & _);
      [right; left; eauto | congruence].
Qed.

(** X24.  Whatever the publish does, the handler resets the syncing flag as its
    last act, and sets it nowhere in between. *)
Theorem sync_flag_reset (isAuth keyInput : bool) (l : list LocalMusicItem.t)
    (saved : list MusicItem) (w : W) :
  In (UiSetIsSyncing true) (fst (sync isAuth keyInput l saved w)) ->
  exists middle,
    fst (sync isAuth keyInput l saved w)
    = UiSetIsSyncing true :: middle ++ [UiSetIsSyncing false]
    /\ forall b, ~ In (UiSetIsSyncing b) middle.
Proof.
  intros Hin.
  destruct (sync_cases isAuth keyInput l saved w)
    as [(_ & E)|[(_ & _ & E)|[(_ & _ & _ & E)|(_ & _ & e & _ & E)]]];
    rewrite E in Hin |- *; cbn [fst] in *.
  - destruct keyInput; [|destruct Hin]. destruct Hin as [?|[]]. discriminate.
  - destruct Hin as [?|[]]. discriminate.
  - exists (consoleOutput (syncLoop lib browser l)
            ++ map UiPublisher (trace (snd (published l saved w)))
            ++ [UiSetLocalMusicList []; UiRemoveItem STORAGE_KEY;
                UiFetch "/api/music/list"; UiToastSuccess msgSynced]).
    split.
    + rewrite <- !app_assoc. reflexivity.
    + intros b Hb. rewrite app_assoc in Hb. apply in_app_or in Hb as [Hb|Hb].
      * apply sync_prefix_events in Hb as [?|(? & ?)]; discriminate.
      * cbn in Hb. intuition discriminate.
  - exists (consoleOutput (syncLoop lib browser l)
            ++ map UiPublisher (trace (snd (published l saved w)))
            ++ [UiConsoleError msgSyncFailed;
                UiToastError
                  (msgSyncError ++ JsText.orElse (messageOf browser e) msgUnknownError)]).
    split.
    + rewrite <- !app_assoc. reflexivity.
    + intros b Hb. rewrite app_assoc in Hb. apply in_app_or in Hb as [Hb|Hb].
      * apply sync_prefix_events in Hb as [?|(? & ?)]; discriminate.
      * cbn in Hb. intuition discriminate.
Qed.

(** X25.  A local track that cannot be converted is lost by a successful sync:
    the manifest gets the saved tracks and the converted tracks only,
    fewer than the local list held, and the local list is reset to the
    empty list all the same. *)
Theorem sync_drops_unconverted (isAuth keyInput : bool) (l : list LocalMusicItem.t)
    (saved : list MusicItem) (w : W) (localMusic : LocalMusicItem.t) :
  In (UiToastSuccess msgSynced) (fst (sync isAuth keyInput l saved w)) ->
  In localMusic l ->
  fst (convertLocalMusicToFile browser localMusic) = None ->
  In (UiSetLocalMusicList []) (fst (sync isAuth keyInput l saved w))
  /\ length (convertedTracks browser l) < length l
  /\ exists token manifestSha updated,
       In (EvCreateBlob token (OWNER GITHUB_CONFIG) (REPO GITHUB_CONFIG)
                        (toBase64Utf8 lib (Json.stringifyList Json.tab updated))
                        "base64" (inr manifestSha))
          (publisherEvents (fst (sync isAuth keyInput l saved w)))
       /\ map name updated
          = map name saved
            ++ map (fun t => LocalMusicItem.name (fst t)) (convertedTracks browser l).
Proof.
  intros Hok Hin Hnone.
  destruct (sync_success_inv isAuth keyInput l saved w _ Hok) as (_ & _ & Hres & Hp & _); [tauto|].
  split; [|split].
  - destruct (sync_cases isAuth keyInput l saved w)
      as [(_ & E)|[(_ & _ & E)|[(_ & _ & _ & E)|(_ & _ & e & Hko & _)]]];
      [rewrite E in Hok; destruct keyInput; [destruct Hok as [?|[]]; discriminate
                                            |destruct Hok]
      |rewrite E in Hok; destruct Hok as [?|[]]; discriminate
      | |congruence].
    rewrite E. cbn [fst]. rewrite !in_app_iff. right. right. right. left. cbn. tauto.
  - clear Hok Hres Hp. induction l as [|x l IH]; [destruct Hin|].
    cbn [convertedTracks length]. destruct Hin as [->|Hin].
    + rewrite Hnone. pose proof (convertedTracks_length l). lia.
    + specialize (IH Hin).
      destruct (fst (convertLocalMusicToFile browser x)); cbn [length]; lia.
  - rewrite Hp.
    destruct (publish_ok_inv W Err GITHUB_CONFIG lib remote _ w Hres)
      as (token & latest & shas & previous & manifestSha & treeSha & commitSha & _ & ->).
    exists token, manifestSha,
      (postRemap lib (syncParams saved (syncLoop lib browser l))).
    split; [|apply sync_committed_list].
    unfold traceToTree, manifestBlobEvent, manifestContent. rewrite !in_app_iff.
    left. right. cbn. tauto.
Qed.

End SyncFacts.

(** ** The properties above at work *)

Lemma manifest_keeps_tracks_witness :
  In (Demo.treeOf (Demo.run None true Demo.replaceParams))
     (treeRequests (trace (snd (Demo.run None true Demo.replaceParams))))
  /\ exists manifestSha updated,
       In (manifestItem manifestSha) (Demo.treeOf (Demo.run None true Demo.replaceParams))
       /\ map name updated = ["B"].
Proof.
  assert (In (Demo.treeOf (Demo.run None true Demo.replaceParams))
             (treeRequests (trace (snd (Demo.run None true Demo.replaceParams)))))
    as H by (vm_compute; auto).
  split; [exact H|].
  destruct (manifest_keeps_tracks nat Demo.PublishError Demo.config Demo.lib
              (Demo.remote true None true) Demo.replaceParams 0 _ H)
    as (token & manifestSha & updated & _ & Hitem & Hnames & _).
  exists manifestSha, updated. split; [exact Hitem | exact Hnames].
Defined.

Lemma tree_paths_distinct_witness :
  In (Demo.treeOf (Demo.run (Some Demo.oldText) true Demo.sameBytesParams))
     (treeRequests (trace (snd (Demo.run (Some Demo.oldText) true Demo.sameBytesParams))))
  /\ NoDup (map path
              (filter (fun it => negb (isDelete it))
                      (Demo.treeOf (Demo.run (Some Demo.oldText) true Demo.sameBytesParams))))
  /\ NoDup (deletedPaths
              (Demo.treeOf (Demo.run (Some Demo.oldText) true Demo.sameBytesParams))).
Proof.
  assert (In (Demo.treeOf (Demo.run (Some Demo.oldText) true Demo.sameBytesParams))
             (treeRequests
                (trace (snd (Demo.run (Some Demo.oldText) true Demo.sameBytesParams)))))
    as H by (vm_compute; auto).
  split; [exact H|].
  exact (tree_paths_distinct nat Demo.PublishError Demo.config Demo.lib
           (Demo.remote true (Some Demo.oldText) true) Demo.sameBytesParams 0 _ H).
Defined.

Lemma committed_tracks_not_deleted_witness :
  In (Demo.treeOf (Demo.run (Some Demo.oldText) true Demo.keepParams))
     (treeRequests (trace (snd (Demo.run (Some Demo.oldText) true Demo.keepParams))))
  /\ exists updated,
       forall m,
         In m updated ->
         ~ In ("public" ++ url m)%string
              (deletedPaths (Demo.treeOf (Demo.run (Some Demo.oldText) true Demo.keepParams))).
Proof.
  assert (In (Demo.treeOf (Demo.run (Some Demo.oldText) true Demo.keepParams))
             (treeRequests (trace (snd (Demo.run (Some Demo.oldText) true Demo.keepParams)))))
    as H by (vm_compute; auto).
  split; [exact H|].
  destruct (committed_tracks_not_deleted nat Demo.PublishError Demo.config Demo.lib
              (Demo.remote true (Some Demo.oldText) true) Demo.keepParams 0 _ H)
    as (token & manifestSha & updated & _ & _ & Hkeep).
  exists updated. exact Hkeep.
Defined.

(** The upload of [Scenario.reuploadParams] is stored at the path of the
    track of the previous manifest, and no track refers to it. *)
Lemma unreferenced_upload_written_and_deleted_witness :
  exists blobSha,
    In {| path := "public/music/old.mp3"; mode := "100644"; type := "blob";
          sha := Some blobSha |}
       (Demo.treeOf (Demo.run (Some Demo.oldText) true Scenario.reuploadParams))
    /\ In {| path := "public/music/old.mp3"; mode := "100644"; type := "blob";
             sha := None |}
          (Demo.treeOf (Demo.run (Some Demo.oldText) true Scenario.reuploadParams)).
Proof.
  assert (In (inr (Some Demo.oldText))
             (manifestReads
                (trace (snd (Demo.run (Some Demo.oldText) true Scenario.reuploadParams)))))
    as Hread by (vm_compute; auto).
  assert (In (Demo.treeOf (Demo.run (Some Demo.oldText) true Scenario.reuploadParams))
             (treeRequests
                (trace (snd (Demo.run (Some Demo.oldText) true Scenario.reuploadParams)))))
    as Htree by (vm_compute; auto).
  assert (~ In (hashOf Demo.lib (Demo.upload "again.mp3" "old")
                       (Demo.fileOf "again.mp3" "old"))
            (hashesOf Demo.lib [])) as Hnew by (intros []).
  assert (In (publicPathOf Demo.lib (Demo.upload "again.mp3" "old")
                           (Demo.fileOf "again.mp3" "old"))
             ["/music/old.mp3"]) as Hprev by (vm_compute; auto).
  assert (~ In (publicPathOf Demo.lib (Demo.upload "again.mp3" "old")
                             (Demo.fileOf "again.mp3" "old"))
            (map url (postRemap Demo.lib Scenario.reuploadParams))) as Hcur.
  { vm_compute. intros [H|[]]. discriminate H. }
  exact (unreferenced_upload_written_and_deleted nat Demo.PublishError Demo.config Demo.lib
           (Demo.remote true (Some Demo.oldText) true) Scenario.reuploadParams 0
           Demo.oldText (Json.ofList Demo.oldList) ["/music/old.mp3"] _
           [] [] "temp-3" (Demo.upload "again.mp3" "old") (Demo.fileOf "again.mp3" "old")
           eq_refl Hread eq_refl eq_refl Htree eq_refl eq_refl Hnew Hprev Hcur).
Defined.

Lemma ref_update_chain_witness :
  In (EvUpdateRef "token" "alan" "blog" "heads/main" "commit" (inl Demo.RefUpdateConflict))
     (trace (snd (Demo.run None false Demo.replaceParams)))
  /\ fst (Demo.run None false Demo.replaceParams) = inl Demo.RefUpdateConflict.
Proof.
  assert (In (EvUpdateRef "token" "alan" "blog" "heads/main" "commit"
                          (inl Demo.RefUpdateConflict))
             (trace (snd (Demo.run None false Demo.replaceParams))))
    as H by (vm_compute; tauto).
  split; [exact H|].
  destruct (ref_update_chain nat Demo.PublishError Demo.config Demo.lib
              (Demo.remote true None false) Demo.replaceParams 0 _ _ _ _ _ _ H)
    as (latest & items & treeSha & _ & _ & _ & _ & _ & _ & _ & Hres).
  exact Hres.
Defined.

(** A previous manifest that is no JSON: the message is logged. *)
Lemma parse_warning_exactly_on_failure_witness :
  In (inr (Some "not json"))
     (manifestReads (trace (snd (Demo.run (Some "not json") true Demo.keepParams))))
  /\ In (EvConsoleError msgParseFailed)
        (trace (snd (Demo.run (Some "not json") true Demo.keepParams)))
  /\ forall message,
       ~ In (EvConsoleError message) (trace (snd (Demo.run None true Demo.keepParams))).
Proof.
  assert (In (inr (Some "not json"))
             (manifestReads (trace (snd (Demo.run (Some "not json") true Demo.keepParams)))))
    as Hread by (vm_compute; auto).
  assert (In (inr None)
             (manifestReads (trace (snd (Demo.run None true Demo.keepParams)))))
    as Hnone by (vm_compute; auto).
  split; [exact Hread|]. split.
  - refine (proj1 (proj2 (parse_warning_exactly_on_failure nat Demo.PublishError
                            Demo.config Demo.lib (Demo.remote true (Some "not json") true)
                            Demo.keepParams 0)) "not json" Hread _ _).
    + discriminate.
    + vm_compute. reflexivity.
  - exact (proj2 (proj2 (parse_warning_exactly_on_failure nat Demo.PublishError
                           Demo.config Demo.lib (Demo.remote true None true)
                           Demo.keepParams 0)) (or_introl Hnone)).
Defined.

(** Two files with different bytes under one supplied hash: only the first
    is planned. *)
Lemma supplied_hash_is_trusted_witness :
  File.bytes (Demo.fileOf "a.mp3" "aaaa") <> File.bytes (Demo.fileOf "b.mp3" "bbbb")
  /\ plan Demo.lib Scenario.sameHashParams
     = freshUploads Demo.lib
         [("temp-1", {| file := Some (Demo.fileOf "a.mp3" "aaaa"); hash := Some "h1" |})]
         StrSet.empty
  /\ forall f, In (f, "h1") (plan Demo.lib Scenario.sameHashParams) ->
               f = Demo.fileOf "a.mp3" "aaaa".
Proof.
  split; [vm_compute; discriminate|].
  assert ("h1" <> EmptyString) as Hne by discriminate.
  assert (~ In "h1" (hashesOf Demo.lib [])) as Hnew by (intros []).
  destruct (supplied_hash_is_trusted nat Demo.PublishError Demo.config Demo.lib
              (Demo.remote true None true) Scenario.sameHashParams 0
              [] [] [] "temp-1" "temp-2"
              {| file := Some (Demo.fileOf "a.mp3" "aaaa"); hash := Some "h1" |}
              {| file := Some (Demo.fileOf "b.mp3" "bbbb"); hash := Some "h1" |}
              (Demo.fileOf "a.mp3" "aaaa") (Demo.fileOf "b.mp3" "bbbb") "h1"
              eq_refl eq_refl eq_refl eq_refl eq_refl Hne Hnew)
    as (Hplan & Hfirst & _).
  split; [exact Hplan | exact Hfirst].
Defined.

Lemma convert_data_url_witness :
  convertLocalMusicToFile Scenario.browser Scenario.localSong
  = (Some {| File.name := "Song.mpeg"; File.bytes := Demo.bytesOf "song" |}, []).
Proof.
  refine (convert_data_url Demo.PublishError Scenario.browser Scenario.localSong
            "data:audio/mpeg;base64" "c29uZw==" (Demo.bytesOf "song")
            eq_refl _ _ _ eq_refl).
  - cbn. intuition discriminate.
  - cbn. intuition discriminate.
  - discriminate.
Defined.

Lemma convert_empty_payload_witness :
  convertLocalMusicToFile Scenario.browser Scenario.localBroken
  = (None, [UiConsoleError msgConvertFailed]).
Proof.
  refine (convert_empty_payload Demo.PublishError Scenario.browser Scenario.localBroken
            "data:audio/wav;base64" eq_refl _ eq_refl).
  cbn. intuition discriminate.
Defined.

(** A local MP3, whose MIME type is [audio/mpeg], is published as a
    [.png]. *)
Lemma converted_extension_witness :
  File.name (Demo.fileOf "Song.mpeg" "song") = "Song.mpeg"
  /\ getFileExt (File.name (Demo.fileOf "Song.mpeg" "song")) = getFileExt ".mpeg"
  /\ getFileExt ".mpeg" = ".png".
Proof.
  assert (~ In "/"%char (list_ascii_of_string "audio")) as Ht
      by (cbn; intuition discriminate).
  assert (~ In "/"%char (list_ascii_of_string "mpeg")) as Hs
      by (cbn; intuition discriminate).
  assert ("mpeg" <> EmptyString) as Hne by discriminate.
  destruct (converted_extension Demo.PublishError Scenario.browser Scenario.localSong
              (Demo.fileOf "Song.mpeg" "song") "audio" "mpeg" eq_refl eq_refl Ht Hs Hne)
    as (Hname & _ & Hext).
  split; [exact Hname|]. split; [|reflexivity].
  apply Hext. cbn. lia.
Defined.


(** The dialog of [Scenario] in front of the remote of [Demo], the file
    input being mounted. *)
Local Abbreviation demoSync fastForward isAuth l saved :=
  (handleSyncToGitHub Demo.config Demo.lib Scenario.browser
                      (Demo.remote true None fastForward) isAuth true l saved 0).

Lemma sync_commits_public_paths_witness :
  In (Scenario.treeOfSync (demoSync true true Scenario.localList Demo.oldList))
     (treeRequests (publisherEvents (fst (demoSync true true Scenario.localList Demo.oldList))))
  /\ exists updated,
       map name updated
       = map name Demo.oldList
         ++ map (fun t => LocalMusicItem.name (fst t))
                (convertedTracks Scenario.browser Scenario.localList)
       /\ nth_error updated 0 = Some {| name := "A"; url := "/music/old.mp3" |}.
Proof.
  assert (In (Scenario.treeOfSync (demoSync true true Scenario.localList Demo.oldList))
             (treeRequests
                (publisherEvents (fst (demoSync true true Scenario.localList Demo.oldList)))))
    as H by (vm_compute; auto).
  split; [exact H|].
  destruct (sync_commits_public_paths nat Demo.PublishError Demo.config Demo.lib
              Scenario.browser (Demo.remote true None true) true true Scenario.localList
              Demo.oldList 0
              (Scenario.treeOfSync (demoSync true true Scenario.localList Demo.oldList)) H)
    as (token & manifestSha & updated & _ & _ & Hnames & Hsaved & _).
  exists updated. split; [exact Hnames|].
  exact (Hsaved 0 {| name := "A"; url := "/music/old.mp3" |} eq_refl eq_refl).
Defined.

Lemma sync_track_paths_witness :
  NoDup (map url (syncedItems Demo.lib Scenario.browser 0
                              (convertedTracks Scenario.browser Scenario.localList)))
  /\ exists updated,
       length updated
       = length Demo.oldList + length (convertedTracks Scenario.browser Scenario.localList)
       /\ nth_error updated (length Demo.oldList + 0)
          = Some {| name := "Song";
                    url := ("/music/"
                            ++ sha256Hex Demo.lib (File.bytes (Demo.fileOf "Song.mpeg" "song"))
                            ++ getFileExt (File.name (Demo.fileOf "Song.mpeg" "song")))%string |}.
Proof.
  assert (In (Scenario.treeOfSync (demoSync true true Scenario.localList Demo.oldList))
             (treeRequests
                (publisherEvents (fst (demoSync true true Scenario.localList Demo.oldList)))))
    as H by (vm_compute; auto).
  assert (NoDup (map url (syncedItems Demo.lib Scenario.browser 0
                                      (convertedTracks Scenario.browser Scenario.localList))))
    as Hnd.
  { vm_compute. repeat constructor; cbn; intuition discriminate. }
  assert (nth_error (convertedTracks Scenario.browser Scenario.localList) 0
          = Some (Scenario.localSong, Demo.fileOf "Song.mpeg" "song")) as Hfirst
      by (vm_compute; reflexivity).
  split; [exact Hnd|].
  destruct (sync_track_paths nat Demo.PublishError Demo.config Demo.lib
              Scenario.browser (Demo.remote true None true) true true Scenario.localList
              Demo.oldList 0
              (Scenario.treeOfSync (demoSync true true Scenario.localList Demo.oldList))
              H Hnd)
    as (token & manifestSha & updated & _ & _ & Hlen & Hown).
  exists updated. split; [exact Hlen|].
  exact (Hown 0 Scenario.localSong (Demo.fileOf "Song.mpeg" "song") Hfirst).
Defined.

(** Three local tracks, two of them with the same bytes: two audio blobs
    and the manifest blob. *)
Lemma sync_one_blob_per_digest_witness :
  length (blobRequests
            (publisherEvents
               (fst (demoSync true true
                       [Scenario.localSong; Scenario.localTune; Scenario.localSong] []))))
  = length (nodup string_dec
              (map (fun t => sha256Hex Demo.lib (File.bytes (snd t)))
                   (convertedTracks Scenario.browser
                      [Scenario.localSong; Scenario.localTune; Scenario.localSong])))
    + 1
  /\ nodup string_dec
       (map (fun t => sha256Hex Demo.lib (File.bytes (snd t)))
            (convertedTracks Scenario.browser
               [Scenario.localSong; Scenario.localTune; Scenario.localSong]))
     = ["tune"; "song"].
Proof.
  assert (In (UiToastSuccess msgSynced)
             (fst (demoSync true true
                     [Scenario.localSong; Scenario.localTune; Scenario.localSong] [])))
    as Hok.
  { vm_compute. repeat (first [left; reflexivity | right]). }
  assert (NoDup (map url (syncedItems Demo.lib Scenario.browser 0
                            (convertedTracks Scenario.browser
                               [Scenario.localSong; Scenario.localTune;
                                Scenario.localSong]))))
    as Hnd.
  { vm_compute. repeat constructor; cbn; intuition discriminate. }
  split; [|vm_compute; reflexivity].
  exact (sync_one_blob_per_digest nat Demo.PublishError Demo.config Demo.lib
           Scenario.browser (Demo.remote true None true) true true
           [Scenario.localSong; Scenario.localTune; Scenario.localSong] [] 0 Hok Hnd).
Defined.

Lemma sync_clears_after_ref_update_witness :
  In (UiSetLocalMusicList []) (fst (demoSync true true Scenario.localList Demo.oldList))
  /\ In (UiRemoveItem STORAGE_KEY) (fst (demoSync true true Scenario.localList Demo.oldList))
  /\ publisherEvents (fst (demoSync true false Scenario.localList Demo.oldList)) = [].
Proof.
  assert (In (UiSetLocalMusicList [])
             (fst (demoSync true true Scenario.localList Demo.oldList))) as H.
  { vm_compute. repeat (first [left; reflexivity | right]). }
  split; [exact H|]. split.
  - exact (proj1 (proj2 (proj1 (sync_clears_after_ref_update nat Demo.PublishError
                                  Demo.config Demo.lib Scenario.browser
                                  (Demo.remote true None true) true true Scenario.localList
                                  Demo.oldList 0) [] H))).
  - exact (proj1 (proj2 (sync_clears_after_ref_update nat Demo.PublishError
                           Demo.config Demo.lib Scenario.browser
                           (Demo.remote true None true) false true Scenario.localList
                           Demo.oldList 0) (or_introl eq_refl))).
Defined.

(** The remote refuses the ref update: the error toast shows the fallback
    text and the local tracks stay. *)
Lemma sync_failure_keeps_local_tracks_witness :
  In (UiToastError (msgSyncError ++ msgUnknownError)%string)
     (fst (demoSync false true Scenario.localList Demo.oldList))
  /\ forall l',
       ~ In (UiSetLocalMusicList l')
            (fst (demoSync false true Scenario.localList Demo.oldList)).
Proof.
  assert (In (UiToastError (msgSyncError ++ msgUnknownError)%string)
             (fst (demoSync false true Scenario.localList Demo.oldList))) as H.
  { vm_compute. repeat (first [left; reflexivity | right]). }
  split; [exact H|].
  exact (proj1 (proj2 (sync_failure_keeps_local_tracks nat Demo.PublishError Demo.config
                         Demo.lib Scenario.browser (Demo.remote true None false) true true
                         Scenario.localList Demo.oldList 0
                         (msgSyncError ++ msgUnknownError)%string H))).
Defined.

Lemma sync_flag_reset_witness :
  In (UiSetIsSyncing true) (fst (demoSync false true Scenario.localList Demo.oldList))
  /\ exists middle,
       fst (demoSync false true Scenario.localList Demo.oldList)
       = UiSetIsSyncing true :: middle ++ [UiSetIsSyncing false].
Proof.
  assert (In (UiSetIsSyncing true)
             (fst (demoSync false true Scenario.localList Demo.oldList))) as H.
  { vm_compute. left. reflexivity. }
  split; [exact H|].
  destruct (sync_flag_reset nat Demo.PublishError Demo.config Demo.lib Scenario.browser
              (Demo.remote true None false) true true Scenario.localList Demo.oldList 0 H)
    as (middle & Hshape & _).
  exists middle. exact Hshape.
Defined.

Lemma sync_drops_unconverted_witness :
  In Scenario.localBroken Scenario.localList
  /\ fst (convertLocalMusicToFile Scenario.browser Scenario.localBroken) = None
  /\ In (UiSetLocalMusicList []) (fst (demoSync true true Scenario.localList Demo.oldList))
  /\ length (convertedTracks Scenario.browser Scenario.localList)
     < length Scenario.localList.
Proof.
  assert (In (UiToastSuccess msgSynced)
             (fst (demoSync true true Scenario.localList Demo.oldList))) as Hok.
  { vm_compute. repeat (first [left; reflexivity | right]). }
  assert (In Scenario.localBroken Scenario.localList) as Hin by (cbn; tauto).
  assert (fst (convertLocalMusicToFile Scenario.browser Scenario.localBroken) = None)
    as Hnone by (vm_compute; reflexivity).
  split; [exact Hin|]. split; [exact Hnone|].
  destruct (sync_drops_unconverted nat Demo.PublishError Demo.config Demo.lib
              Scenario.browser (Demo.remote true None true) true true Scenario.localList
              Demo.oldList 0 Scenario.localBroken Hok Hin Hnone)
    as (Hclear & Hless & _).
  split; [exact Hclear | exact Hless].
Defined.

(** ** Same bytes, different extensions *)

(** C2.  The code at the failing input.  Two pending uploads with the same
    bytes under the names [a.mp3] and [b.wav]: the publish returns
    normally, the two tracks are committed at two different public paths,
    and the tree request stores a blob at the first path only, so the
    second committed track refers to a file nothing stores.  The sync
    handler leads there as well: two local tracks with the same data whose
    MIME types are [audio/mpeg] and [audio/mp3] are committed at
    [/music/song.png] and [/music/song.mp3], and only
    [public/music/song.png] is written. *)
Theorem same_bytes_different_paths :
  File.bytes (Demo.fileOf "a.mp3" "cafe") = File.bytes (Demo.fileOf "b.wav" "cafe")
  /\ pendingEntries Demo.sameBytesParams
     = [("temp-1", Demo.upload "a.mp3" "cafe"); ("temp-2", Demo.upload "b.wav" "cafe")]
  /\ postRemap Demo.lib Demo.sameBytesParams
     = [{| name := "A"; url := "/music/cafe.mp3" |};
        {| name := "B"; url := "/music/cafe.wav" |}]
  /\ publicPathOf Demo.lib (Demo.upload "a.mp3" "cafe") (Demo.fileOf "a.mp3" "cafe")
     <> publicPathOf Demo.lib (Demo.upload "b.wav" "cafe") (Demo.fileOf "b.wav" "cafe")
  /\ fst (Demo.run None true Demo.sameBytesParams) = inr tt
  /\ treeRequests (trace (snd (Demo.run None true Demo.sameBytesParams)))
     = [[{| path := "public/music/cafe.mp3"; mode := "100644"; type := "blob";
            sha := Some "blob0" |};
         {| path := "src/app/music/list.json"; mode := "100644"; type := "blob";
            sha := Some "blob1" |}]]
  /\ blobRequests (trace (snd (Demo.run None true Demo.sameBytesParams)))
     = ["cafe";
        Json.stringifyList Json.tab
          [{| name := "A"; url := "/music/cafe.mp3" |};
           {| name := "B"; url := "/music/cafe.wav" |}]]
  /\ blobRequests
       (publisherEvents
          (fst (demoSync true true [Scenario.localSong; Scenario.localSongMp3] [])))
     = ["song";
        Json.stringifyList Json.tab
          [{| name := "Song"; url := "/music/song.png" |};
           {| name := "Song again"; url := "/music/song.mp3" |}]]
  /\ map path
         (Scenario.treeOfSync
            (demoSync true true [Scenario.localSong; Scenario.localSongMp3] []))
     = ["public/music/song.png"; "src/app/music/list.json"].
Proof.
  split; [reflexivity|]. split; [reflexivity|]. split; [vm_compute; reflexivity|].
  split; [vm_compute; discriminate|]. split; [vm_compute; reflexivity|].
  split; [vm_compute; reflexivity|]. split; [vm_compute; reflexivity|].
  split; vm_compute; reflexivity.
Qed.
